(** * BusTub buffer-pool substrate: LRU-K replacer and extendible hash table

    A shallow embedding of [src/buffer/lru_k_replacer.cpp] (with the classes
    [Node] and [List] of [lru_k_replacer.h]) and of
    [src/container/hash/extendible_hash_table.cpp], and the properties of the
    two components that are proved about them.

    Conventions.
    - [size_t] values are integers in [0, 2^64); [++]/[--] on them wrap and
      the wrap-around is written out with [to_size_t].
    - [int] values are integers in [-2^31, 2^31); arithmetic on them is
      written with [to_int].
    - Objects held through [std::shared_ptr] live in a store and are named by
      a handle, so that two owners of one object see one object.
    - A public operation runs under the object's mutex from entry to exit;
      the embedding is the sequential behaviour of one such critical
      section. *)

From stdpp Require Import gmap list strings.

#[local] Set Warnings "-clear-no-such-hyp".

Local Open Scope Z_scope.

(** ** Machine integers *)

Definition to_size_t (z : Z) : Z := z mod 2 ^ 64.

Definition to_int (z : Z) : Z := (z + 2 ^ 31) mod 2 ^ 32 - 2 ^ 31.

(** Modelled from the spec: [frame_id_t], which [common/config.h] (not among
    the sources at hand) declares; frame ids are integers, here those of a
    signed 32-bit type. *)
Definition is_frame_id_t (f : Z) : Prop := - 2 ^ 31 <= f < 2 ^ 31.

(** ** The LRU-K replacer *)

Module Replacer.

(** [class Node]: [prev_] and [next_] are carried by the position of the
    node's handle in the sequences of [List]. *)
Record Node := mkNode {
  frame_id_ : Z;
  count_ : Z;
  evictable_ : bool
}.

(** [explicit Node(frame_id_t frame_id) : frame_id_(frame_id), count_(1)] *)
Definition Node_new (frame_id : Z) : Node :=
  {| frame_id_ := frame_id; count_ := 1; evictable_ := false |}.

(** [class List]: the chain [head_ .. middle_ .. tail_].  The nodes strictly
    between [head_] and [middle_] are the cache list, those strictly between
    [middle_] and [tail_] the history list, both in [next_] order.  A node is
    named by the handle under which [frame_map_] owns it. *)
Record List := mkList {
  size_ : Z;
  cache_list : list Z;
  history_list : list Z
}.

Definition List_new : List :=
  {| size_ := 0; cache_list := []; history_list := [] |}.

Definition List_Size (l : List) : Z := size_ l.

Definition IncrementSize (l : List) : List :=
  {| size_ := to_size_t (size_ l + 1);
     cache_list := cache_list l; history_list := history_list l |}.

Definition DecrementSize (l : List) : List :=
  if 0 <? size_ l
  then {| size_ := to_size_t (size_ l - 1);
          cache_list := cache_list l; history_list := history_list l |}
  else l.

(** Taking the node [p] out of the chain it is linked in. *)
Definition unlink (p : Z) (chain : list Z) : list Z :=
  filter (λ q, q ≠ p) chain.

(** [List::Remove(node)], for the node at handle [p] with contents [n]. *)
Definition List_Remove (p : Z) (n : Node) (l : List) : List :=
  {| size_ := if evictable_ n then to_size_t (size_ l - 1) else size_ l;
     cache_list := unlink p (cache_list l);
     history_list := unlink p (history_list l) |}.

(** [List::InsertCacheList(node)]: linked in just before [middle_]. *)
Definition InsertCacheList (p : Z) (n : Node) (l : List) : List :=
  {| size_ := if evictable_ n then to_size_t (size_ l + 1) else size_ l;
     cache_list := cache_list l ++ [p];
     history_list := history_list l |}.

(** [List::InsertHistoryList(node)]: linked in just before [tail_]. *)
Definition InsertHistoryList (p : Z) (n : Node) (l : List) : List :=
  {| size_ := if evictable_ n then to_size_t (size_ l + 1) else size_ l;
     cache_list := cache_list l;
     history_list := history_list l ++ [p] |}.

(** [class LRUKReplacer].  [frame_map_] owns the nodes: the node stored
    under a key is the object that the chains of [list_] link by that key. *)
Record LRUKReplacer := mkReplacer {
  replacer_size_ : Z;
  k_ : Z;
  list_ : List;
  frame_map_ : gmap Z Node
}.

(** [LRUKReplacer::LRUKReplacer(num_frames, k)] *)
Definition LRUKReplacer_new (num_frames k : Z) : LRUKReplacer :=
  {| replacer_size_ := num_frames; k_ := k;
     list_ := List_new; frame_map_ := ∅ |}.

(** What a call ends with: a normal return or a C++ exception. *)
Inductive exception :=
  | runtime_error (what : string)
  | std_exception.

Inductive outcome :=
  | Returned
  | Thrown (e : exception).

(** The [while] loops of [Evict]: the first node of a chain, front to back,
    whose [evictable_] is set.  Every handle of a chain has its node in the
    map ([wf_linked] below); the scan passes over a handle that has none. *)
Fixpoint first_evictable (m : gmap Z Node) (chain : list Z)
  : option (Z * Node) :=
  match chain with
  | [] => None
  | p :: rest =>
      match m !! p with
      | Some n => if evictable_ n then Some (p, n) else first_evictable m rest
      | None => first_evictable m rest
      end
  end.

Definition evict_node (p : Z) (n : Node) (r : LRUKReplacer) : LRUKReplacer :=
  {| replacer_size_ := replacer_size_ r; k_ := k_ r;
     list_ := List_Remove p n (list_ r);
     frame_map_ := delete (frame_id_ n) (frame_map_ r) |}.

(** [LRUKReplacer::Evict]: [Some f] stands for [*frame_id = f; return true]
    and [None] for [return false]. *)
Definition Evict (r : LRUKReplacer) : option Z * LRUKReplacer :=
  match first_evictable (frame_map_ r) (history_list (list_ r)) with
  | Some (p, n) => (Some (frame_id_ n), evict_node p n r)
  | None =>
      match first_evictable (frame_map_ r) (cache_list (list_ r)) with
      | Some (p, n) => (Some (frame_id_ n), evict_node p n r)
      | None => (None, r)
      end
  end.

(** The tail shared by both branches of [RecordAccess]. *)
Definition insert_by_count (k : Z) (p : Z) (n : Node) (l : List) : List :=
  if k <=? count_ n then InsertCacheList p n l else InsertHistoryList p n l.

(** [LRUKReplacer::RecordAccess] *)
Definition RecordAccess (frame_id : Z) (r : LRUKReplacer)
  : outcome * LRUKReplacer :=
  match frame_map_ r !! frame_id with
  | Some node0 =>
      let node := {| frame_id_ := frame_id_ node0;
                     count_ := to_size_t (count_ node0 + 1);
                     evictable_ := evictable_ node0 |} in
      (Returned,
       {| replacer_size_ := replacer_size_ r; k_ := k_ r;
          list_ := insert_by_count (k_ r) frame_id node
                     (List_Remove frame_id node (list_ r));
          frame_map_ := <[frame_id := node]> (frame_map_ r) |})
  | None =>
      let node := Node_new frame_id in
      (Returned,
       {| replacer_size_ := replacer_size_ r; k_ := k_ r;
          list_ := insert_by_count (k_ r) frame_id node (list_ r);
          frame_map_ := <[frame_id := node]> (frame_map_ r) |})
  end.

(** [LRUKReplacer::SetEvictable] *)
Definition SetEvictable (frame_id : Z) (set_evictable : bool)
    (r : LRUKReplacer) : outcome * LRUKReplacer :=
  match frame_map_ r !! frame_id with
  | None =>
      (Thrown (runtime_error "SetEvictable: Frame not found in replacer"), r)
  | Some node0 =>
      let '(node1, l1) :=
        if negb (evictable_ node0) && set_evictable
        then ({| frame_id_ := frame_id_ node0; count_ := count_ node0;
                 evictable_ := true |}, IncrementSize (list_ r))
        else (node0, list_ r) in
      let '(node2, l2) :=
        if evictable_ node1 && negb set_evictable
        then ({| frame_id_ := frame_id_ node1; count_ := count_ node1;
                 evictable_ := false |}, DecrementSize l1)
        else (node1, l1) in
      (Returned,
       {| replacer_size_ := replacer_size_ r; k_ := k_ r;
          list_ := l2;
          frame_map_ := <[frame_id := node2]> (frame_map_ r) |})
  end.

(** [LRUKReplacer::Remove] *)
Definition Remove (frame_id : Z) (r : LRUKReplacer)
  : outcome * LRUKReplacer :=
  match frame_map_ r !! frame_id with
  | None => (Returned, r)
  | Some node =>
      if negb (evictable_ node) then (Thrown std_exception, r)
      else (Returned,
            {| replacer_size_ := replacer_size_ r; k_ := k_ r;
               list_ := List_Remove frame_id node (list_ r);
               frame_map_ := delete frame_id (frame_map_ r) |})
  end.

(** [LRUKReplacer::Size] *)
Definition Size (r : LRUKReplacer) : Z := List_Size (list_ r).

(** *** States of the replacer, and what is counted in them *)

(** The states a replacer goes through: made by the constructor, then any
    calls of the public operations.  A call that throws leaves the object
    as it was.  [RecordAccess] takes a [frame_id_t]. *)
Inductive reachable : LRUKReplacer → Prop :=
  | reach_new num_frames k :
      reachable (LRUKReplacer_new num_frames k)
  | reach_RecordAccess r frame_id :
      reachable r → is_frame_id_t frame_id →
      reachable (RecordAccess frame_id r).2
  | reach_SetEvictable r frame_id set_evictable :
      reachable r → reachable (SetEvictable frame_id set_evictable r).2
  | reach_Evict r :
      reachable r → reachable (Evict r).2
  | reach_Remove r frame_id :
      reachable r → reachable (Remove frame_id r).2.

(** The number of nodes of a map whose [evictable_] flag is set. *)
Definition count_evictable (m : gmap Z Node) : nat :=
  size (filter (λ kv : Z * Node, evictable_ kv.2 = true) m).

(** What one node adds to that number. *)
Definition flag (n : Node) : nat := if evictable_ n then 1%nat else 0%nat.

(** The number of tracked frames whose [evictable_] flag is set. *)
Definition evictable_count (r : LRUKReplacer) : nat :=
  count_evictable (frame_map_ r).

(** The chain from [head_] to [tail_], sentinels left out. *)
Definition chain (r : LRUKReplacer) : list Z :=
  cache_list (list_ r) ++ history_list (list_ r).

(** The representation invariant of the replacer. *)
Record wf (r : LRUKReplacer) : Prop := mkWf {
  wf_nodup : NoDup (chain r);
  wf_linked : ∀ p, p ∈ chain r ↔ is_Some (frame_map_ r !! p);
  wf_key : ∀ p n, frame_map_ r !! p = Some n →
                  frame_id_ n = p ∧ is_frame_id_t p;
  wf_segment : ∀ p n, frame_map_ r !! p = Some n →
                  (p ∈ history_list (list_ r) ↔ count_ n < k_ r);
  wf_size : size_ (list_ r) = Z.of_nat (evictable_count r)
}.

(** The order in which [Evict] looks at the nodes: the history list first,
    then the cache list, each front to back. *)
Definition evict_order (r : LRUKReplacer) : list Z :=
  history_list (list_ r) ++ cache_list (list_ r).

(** A node with its [evictable_] flag set to [b]. *)
Definition with_flag (b : bool) (n : Node) : Node :=
  {| frame_id_ := frame_id_ n; count_ := count_ n; evictable_ := b |}.

(** The node of [frame_id] once [RecordAccess] has counted one more access:
    the node made by [Node(frame_id)] for a frame that is not tracked. *)
Definition accessed (frame_id : Z) (r : LRUKReplacer) : Node :=
  match frame_map_ r !! frame_id with
  | Some n => {| frame_id_ := frame_id_ n;
                 count_ := to_size_t (count_ n + 1);
                 evictable_ := evictable_ n |}
  | None => Node_new frame_id
  end.

(** [Evict] called up to [n] times in a row, until it finds no frame: the
    frames it returned, in order. *)
Fixpoint evict_up_to (n : nat) (r : LRUKReplacer) : list Z :=
  match n with
  | O => []
  | S n' =>
      match Evict r with
      | (Some f, r') => f :: evict_up_to n' r'
      | (None, _) => []
      end
  end.

(** Two small states: frame 1 accessed once (pinned), and then marked
    evictable. *)
Definition tracker_pinned : LRUKReplacer :=
  (RecordAccess 1 (LRUKReplacer_new 7 2)).2.

Definition tracker_example : LRUKReplacer :=
  (SetEvictable 1 true tracker_pinned).2.

(** With [k = 3]: frame 1 accessed three times, frame 2 once, both marked
    evictable. *)
Definition tracker_two : LRUKReplacer :=
  (SetEvictable 2 true
     (RecordAccess 2
        (SetEvictable 1 true
           (RecordAccess 1
              (RecordAccess 1
                 (RecordAccess 1 (LRUKReplacer_new 7 3)).2).2).2).2).2).2.

End Replacer.

(** ** The extendible hash table *)

Module Table.

Section ExtendibleHashTable.

Context {K V : Type} `{EqDecision K}.

(** [std::hash<K>()(key)], a [size_t]. *)
Variable hash : K → Z.

(** [class Bucket]: [size_] is the capacity given at construction. *)
Record Bucket := mkBucket {
  size_ : Z;
  depth_ : Z;
  list_ : list (K * V)
}.

(** [Bucket::Bucket(array_size, depth)] *)
Definition Bucket_new (array_size depth : Z) : Bucket :=
  {| size_ := array_size; depth_ := depth; list_ := [] |}.

(** Modelled from the spec: [Bucket::IsFull], an inline member declared in
    [extendible_hash_table.h], which is not among the sources at hand.  "A
    bucket holding bucketCapacity entries cannot accept a new distinct key
    without first splitting." *)
Definition IsFull (b : Bucket) : bool :=
  Z.of_nat (length (list_ b)) =? size_ b.

(** Modelled from the spec: [Bucket::GetDepth], from the same header; the
    local depth of the bucket. *)
Definition GetDepth (b : Bucket) : Z := depth_ b.

(** Modelled from the spec: [Bucket::IncrementDepth], from the same header;
    "increment its localDepth", on an [int]. *)
Definition IncrementDepth (b : Bucket) : Bucket :=
  {| size_ := size_ b; depth_ := to_int (depth_ b + 1); list_ := list_ b |}.

(** Modelled from the spec: [Bucket::GetItems], from the same header; the
    entries of the bucket, in their order. *)
Definition GetItems (b : Bucket) : list (K * V) := list_ b.

Definition with_items (items : list (K * V)) (b : Bucket) : Bucket :=
  {| size_ := size_ b; depth_ := depth_ b; list_ := items |}.

(** The range-for of [Bucket::Find]. *)
Fixpoint find_item (key : K) (items : list (K * V)) : option V :=
  match items with
  | [] => None
  | (k, v) :: rest => if decide (k = key) then Some v else find_item key rest
  end.

(** [Bucket::Find]: [Some v] stands for [value = v; return true]. *)
Definition Bucket_Find (key : K) (b : Bucket) : option V :=
  find_item key (list_ b).

(** [std::find_if] followed by [list_.erase(it)]. *)
Fixpoint erase_item (key : K) (items : list (K * V)) : option (list (K * V)) :=
  match items with
  | [] => None
  | (k, v) :: rest =>
      if decide (k = key) then Some rest
      else match erase_item key rest with
           | Some rest' => Some ((k, v) :: rest')
           | None => None
           end
  end.

(** [Bucket::Remove] *)
Definition Bucket_Remove (key : K) (b : Bucket) : bool * Bucket :=
  match erase_item key (list_ b) with
  | Some items => (true, with_items items b)
  | None => (false, b)
  end.

(** [std::find_if] followed by [it->second = value]. *)
Fixpoint assign_item (key : K) (value : V) (items : list (K * V))
  : option (list (K * V)) :=
  match items with
  | [] => None
  | (k, v) :: rest =>
      if decide (k = key) then Some ((k, value) :: rest)
      else match assign_item key value rest with
           | Some rest' => Some ((k, v) :: rest')
           | None => None
           end
  end.

(** [Bucket::Insert] *)
Definition Bucket_Insert (key : K) (value : V) (b : Bucket) : bool * Bucket :=
  match assign_item key value (list_ b) with
  | Some items => (true, with_items items b)
  | None =>
      if IsFull b then (false, b)
      else (true, with_items (list_ b ++ [(key, value)]) b)
  end.

(** [class ExtendibleHashTable].  [buckets] is the store of the [Bucket]
    objects made by [std::make_shared]; a [std::shared_ptr<Bucket>] is
    [Some a], with [a] the place of the object in the store, or [None] when
    it is null.  Two slots of [dir_] holding the same [Some a] share one
    bucket. *)
Record ExtendibleHashTable := mkTable {
  global_depth_ : Z;
  bucket_size_ : Z;
  num_buckets_ : Z;
  dir_ : list (option nat);
  buckets : list Bucket
}.

(** [ExtendibleHashTable::ExtendibleHashTable(bucket_size)] *)
Definition ExtendibleHashTable_new (bucket_size : Z) : ExtendibleHashTable :=
  {| global_depth_ := 0; bucket_size_ := bucket_size; num_buckets_ := 1;
     dir_ := [Some 0%nat];
     buckets := [Bucket_new bucket_size 0] |}.

(** [int mask = (1 << global_depth_) - 1; return hash(key) & mask;] *)
Definition IndexOf (t : ExtendibleHashTable) (key : K) : Z :=
  let mask := to_int (to_int (Z.shiftl 1 (global_depth_ t)) - 1) in
  Z.land (hash key) (to_size_t mask).

Definition GetGlobalDepth (t : ExtendibleHashTable) : Z := global_depth_ t.

Definition GetNumBuckets (t : ExtendibleHashTable) : Z := num_buckets_ t.

(** [dir_[index]] followed through the store: the handle and the bucket. *)
Definition bucket_at (t : ExtendibleHashTable) (index : Z)
  : option (nat * Bucket) :=
  if index <? 0 then None
  else match dir_ t !! Z.to_nat index with
       | Some (Some a) =>
           match buckets t !! a with
           | Some b => Some (a, b)
           | None => None
           end
       | _ => None
       end.

(** [GetLocalDepth(dir_index)] *)
Definition GetLocalDepth (t : ExtendibleHashTable) (dir_index : Z) : option Z :=
  match bucket_at t dir_index with
  | Some (_, b) => Some (GetDepth b)
  | None => None
  end.

Definition put_bucket (a : nat) (b : Bucket) (t : ExtendibleHashTable)
  : ExtendibleHashTable :=
  {| global_depth_ := global_depth_ t; bucket_size_ := bucket_size_ t;
     num_buckets_ := num_buckets_ t; dir_ := dir_ t;
     buckets := <[a := b]> (buckets t) |}.

(** What [Find] runs through before it reaches the bucket. *)
Inductive find_path :=
  | IndexGuard      (* [index >= dir_.size()]: [return false] *)
  | NullGuard       (* [bucket == nullptr]: [return false] *)
  | InBucket (a : nat) (b : Bucket).

Definition Find_path (t : ExtendibleHashTable) (key : K) : find_path :=
  let index := IndexOf t key in
  if Z.of_nat (length (dir_ t)) <=? index then IndexGuard
  else match bucket_at t index with
       | Some (a, b) => InBucket a b
       | None => NullGuard
       end.

(** [ExtendibleHashTable::Find] *)
Definition Find (t : ExtendibleHashTable) (key : K) : option V :=
  match Find_path t key with
  | IndexGuard => None
  | NullGuard => None
  | InBucket _ b => Bucket_Find key b
  end.

(** The same for [Remove], whose first guard is [index > dir_.size()].  With
    [index = dir_.size()] the source reads one past the end of [dir_]; the
    embedding takes that read for a null pointer. *)
Definition Remove_path (t : ExtendibleHashTable) (key : K) : find_path :=
  let index := IndexOf t key in
  if Z.of_nat (length (dir_ t)) <? index then IndexGuard
  else match bucket_at t index with
       | Some (a, b) => InBucket a b
       | None => NullGuard
       end.

(** [ExtendibleHashTable::Remove] *)
Definition Remove (t : ExtendibleHashTable) (key : K)
  : bool * ExtendibleHashTable :=
  match Remove_path t key with
  | IndexGuard => (false, t)
  | NullGuard => (false, t)
  | InBucket a b =>
      let '(found, b') := Bucket_Remove key b in
      (found, put_bucket a b' t)
  end.

(** [ExtendibleHashTable::ExpandTable]: [dir_.resize(new_size)] fills the new
    half with null pointers, the loop then copies slot [i] to
    [i + old_size]. *)
Definition ExpandTable (t : ExtendibleHashTable) : ExtendibleHashTable :=
  let old_size := length (dir_ t) in
  let resized := dir_ t ++ replicate old_size None in
  {| global_depth_ := to_int (global_depth_ t + 1);
     bucket_size_ := bucket_size_ t;
     num_buckets_ := num_buckets_ t;
     dir_ := foldl (λ d i, <[(i + old_size)%nat := default None (d !! i)]> d)
               resized (seq 0 old_size);
     buckets := buckets t |}.

(** The [while (it != items.end())] loop of [SplitBucket]: [bit] is
    [1 << (bucket->GetDepth() - 1)] as a [size_t]; the result is what is left
    in [items] and the new bucket. *)
Fixpoint split_items (t : ExtendibleHashTable) (bit : Z)
    (items : list (K * V)) (new_bucket : Bucket) : list (K * V) * Bucket :=
  match items with
  | [] => ([], new_bucket)
  | (k, v) :: rest =>
      if Z.land (IndexOf t k) bit =? 0
      then let '(kept, nb) := split_items t bit rest new_bucket in
           ((k, v) :: kept, nb)
      else split_items t bit rest (Bucket_Insert k v new_bucket).2
  end.

(** The closing [for] loop of [SplitBucket] at slot [i]. *)
Definition repoint (a a' : nat) (depth : Z) (i : nat) (slot : option nat)
  : option nat :=
  if decide (slot = Some a) then
    if Z.land (Z.shiftr (Z.of_nat i) (depth - 1)) 1 =? 0 then slot
    else Some a'
  else slot.

(** [ExtendibleHashTable::SplitBucket(bucket)], with [bucket] the object at
    [a]; the new bucket is placed at the end of the store.  [Insert] calls
    it on a handle it has just read through, so the first branch is not
    taken. *)
Definition SplitBucket (a : nat) (t : ExtendibleHashTable)
  : ExtendibleHashTable :=
  match buckets t !! a with
  | None => t
  | Some b0 =>
      let new_bucket0 := Bucket_new (bucket_size_ t) (to_int (GetDepth b0 + 1)) in
      let b := IncrementDepth b0 in
      let bit := to_size_t (to_int (Z.shiftl 1 (GetDepth b - 1))) in
      let '(kept, new_bucket) := split_items t bit (GetItems b) new_bucket0 in
      let a' := length (buckets t) in
      {| global_depth_ := global_depth_ t;
         bucket_size_ := bucket_size_ t;
         num_buckets_ := to_int (num_buckets_ t + 1);
         dir_ := imap (repoint a a' (GetDepth b)) (dir_ t);
         buckets := <[a := with_items kept b]> (buckets t) ++ [new_bucket] |}
  end.

(** The [while] loop of [Insert].  [fuel] bounds the number of times the
    body (expand if needed, then split) is run; [None] is returned when that
    does not suffice, or when [dir_[index]] is not a bucket. *)
Fixpoint Insert_loop (fuel : nat) (key : K) (value : V)
    (t : ExtendibleHashTable) (index : Z) : option ExtendibleHashTable :=
  match bucket_at t index with
  | None => None
  | Some (a, b) =>
      let '(ok, b') := Bucket_Insert key value b in
      if ok then Some (put_bucket a b' t)
      else
        match fuel with
        | O => None
        | S fuel' =>
            let '(t1, index1) :=
              if GetDepth b =? global_depth_ t
              then (ExpandTable t, IndexOf (ExpandTable t) key)
              else (t, index) in
            match bucket_at t1 index1 with
            | None => None
            | Some (a1, _) =>
                Insert_loop fuel' key value (SplitBucket a1 t1) index1
            end
        end
  end.

(** [ExtendibleHashTable::Insert] *)
Definition Insert (fuel : nat) (key : K) (value : V)
    (t : ExtendibleHashTable) : option ExtendibleHashTable :=
  Insert_loop fuel key value t (IndexOf t key).

(** *** Runs of the table, and the map they implement *)

Inductive op :=
  | OpInsert (key : K) (value : V)
  | OpRemove (key : K).

Definition apply_op (fuel : nat) (o : op) (t : ExtendibleHashTable)
  : option ExtendibleHashTable :=
  match o with
  | OpInsert key value => Insert fuel key value t
  | OpRemove key => Some (Remove t key).2
  end.

(** The calls of [ops] made one after the other, each [Insert] being given
    [fuel] rounds of its loop. *)
Fixpoint run (fuel : nat) (ops : list op) (t : ExtendibleHashTable)
  : option ExtendibleHashTable :=
  match ops with
  | [] => Some t
  | o :: rest =>
      match apply_op fuel o t with
      | Some t' => run fuel rest t'
      | None => None
      end
  end.

(** The value most recently inserted for [key] by [ops] and not removed
    since, starting from [seen]. *)
Fixpoint last_inserted (ops : list op) (key : K) (seen : option V)
  : option V :=
  match ops with
  | [] => seen
  | OpInsert k v :: rest =>
      last_inserted rest key (if decide (k = key) then Some v else seen)
  | OpRemove k :: rest =>
      last_inserted rest key (if decide (k = key) then None else seen)
  end.

(** The keys that [ops] passes to [Insert]. *)
Fixpoint inserted_keys (ops : list op) : list K :=
  match ops with
  | [] => []
  | OpInsert k _ :: rest => k :: inserted_keys rest
  | OpRemove _ :: rest => inserted_keys rest
  end.

(** The states a table of bucket capacity [bucket_size] goes through. *)
Inductive reachable (bucket_size : Z) : ExtendibleHashTable → Prop :=
  | reach_new :
      0 <= bucket_size →
      reachable bucket_size (ExtendibleHashTable_new bucket_size)
  | reach_Insert t fuel key value t' :
      reachable bucket_size t → Insert fuel key value t = Some t' →
      reachable bucket_size t'
  | reach_Remove t key :
      reachable bucket_size t → reachable bucket_size (Remove t key).2.

(** The keys that [Insert(key, _)] has to tell apart: [key] and the keys of
    the bucket it is routed to. *)
Definition colliding_keys (t : ExtendibleHashTable) (key : K) : list K :=
  match bucket_at t (IndexOf t key) with
  | Some (_, b) => key :: (list_ b).*1
  | None => [key]
  end.

(** The keys held by some bucket of the table. *)
Definition stored (t : ExtendibleHashTable) (key : K) : Prop :=
  ∃ a b, buckets t !! a = Some b ∧ key ∈ (list_ b).*1.

(** The representation invariant of the table. *)
Record wf (t : ExtendibleHashTable) : Prop := mkWf {
  wf_depth : 0 <= global_depth_ t <= 30;
  wf_size : 0 <= bucket_size_ t;
  wf_length : Z.of_nat (length (dir_ t)) = 2 ^ global_depth_ t;
  wf_slot : ∀ i slot, dir_ t !! i = Some slot →
              ∃ a b, slot = Some a ∧ buckets t !! a = Some b;
  wf_bucket : ∀ a b, buckets t !! a = Some b →
              0 <= depth_ b <= global_depth_ t ∧
              size_ b = bucket_size_ t ∧
              Z.of_nat (length (list_ b)) <= bucket_size_ t ∧
              NoDup (list_ b).*1;
  wf_route : ∀ i a b key, dir_ t !! i = Some (Some a) →
              buckets t !! a = Some b → key ∈ (list_ b).*1 →
              hash key mod 2 ^ depth_ b = Z.of_nat i mod 2 ^ depth_ b;
  wf_share : ∀ i j a b, dir_ t !! i = Some (Some a) →
              dir_ t !! j = Some (Some a) → buckets t !! a = Some b →
              Z.of_nat i mod 2 ^ depth_ b = Z.of_nat j mod 2 ^ depth_ b
}.

(** The buckets that the slots of the directory point to. *)
Definition dir_buckets (t : ExtendibleHashTable) : gset nat :=
  list_to_set (omap id (dir_ t)).

(** What the invariant leaves open: a bucket of local depth [d] is held by
    every slot that agrees with one of its slots on the low [d] bits, every
    bucket of the store is held by some slot, and [num_buckets_] counts the
    buckets of the store. *)
Record tight (t : ExtendibleHashTable) : Prop := mkTight {
  tight_fill : ∀ i j a b, dir_ t !! i = Some (Some a) →
              buckets t !! a = Some b → (j < length (dir_ t))%nat →
              Z.of_nat j mod 2 ^ depth_ b = Z.of_nat i mod 2 ^ depth_ b →
              dir_ t !! j = Some (Some a);
  tight_used : ∀ a, (a < length (buckets t))%nat →
              ∃ i, dir_ t !! i = Some (Some a);
  tight_count : num_buckets_ t = Z.of_nat (length (buckets t))
}.

(** What a run keeps when its keys differ in their low [W] hash bits: the
    invariant, a bucket capacity of at least 1, a directory within [2^W]
    slots, and stored keys among those [seen] so far. *)
Definition run_inv (W : Z) (seen : list K) (t : ExtendibleHashTable) : Prop :=
  wf t ∧ 1 <= bucket_size_ t ∧ 0 <= W <= 30 ∧
  Z.of_nat (length (dir_ t)) <= 2 ^ W ∧
  ∀ k, stored t k → k ∈ seen.

End ExtendibleHashTable.

End Table.

(** ** The instance [ExtendibleHashTable<int, std::string>] *)

(** [std::hash<int>] is the conversion to [size_t]. *)
Definition hash_int (key : Z) : Z := to_size_t key.

(** The calls of the directory scenario, and the table they end in. *)
Definition scenario_ops : list (@Table.op Z string) :=
  [Table.OpInsert 0 "a"; Table.OpInsert 1 "b"; Table.OpInsert 2 "c"].

Definition scenario_table : @Table.ExtendibleHashTable Z string :=
  {| Table.global_depth_ := 1; Table.bucket_size_ := 2;
     Table.num_buckets_ := 2;
     Table.dir_ := [Some 0%nat; Some 1%nat];
     Table.buckets :=
       [ {| Table.size_ := 2; Table.depth_ := 1;
            Table.list_ := [(0, "a"); (2, "c")] |};
         {| Table.size_ := 2; Table.depth_ := 1;
            Table.list_ := [(1, "b")] |} ] |}.

(** A table of capacity 2 whose only bucket is full with the keys [first]
    and [second]. *)
Definition full_table (first second : Z) : @Table.ExtendibleHashTable Z string :=
  {| Table.global_depth_ := 0; Table.bucket_size_ := 2;
     Table.num_buckets_ := 1;
     Table.dir_ := [Some 0%nat];
     Table.buckets :=
       [ {| Table.size_ := 2; Table.depth_ := 0;
            Table.list_ := [(first, "a"); (second, "b")] |} ] |}.

(** Five insertions that leave buckets of three different local depths, and
    the table they end in. *)
Definition deep_ops : list (@Table.op Z string) :=
  [Table.OpInsert 1 "a"; Table.OpInsert 3 "b"; Table.OpInsert 0 "c";
   Table.OpInsert 4 "d"; Table.OpInsert 8 "e"].

Definition deep_table : @Table.ExtendibleHashTable Z string :=
  {| Table.global_depth_ := 3; Table.bucket_size_ := 2;
     Table.num_buckets_ := 4;
     Table.dir_ := [Some 0%nat; Some 1%nat; Some 2%nat; Some 1%nat;
                    Some 3%nat; Some 1%nat; Some 2%nat; Some 1%nat];
     Table.buckets :=
       [ {| Table.size_ := 2; Table.depth_ := 3;
            Table.list_ := [(0, "c"); (8, "e")] |};
         {| Table.size_ := 2; Table.depth_ := 1;
            Table.list_ := [(1, "a"); (3, "b")] |};
         {| Table.size_ := 2; Table.depth_ := 2; Table.list_ := [] |};
         {| Table.size_ := 2; Table.depth_ := 3;
            Table.list_ := [(4, "d")] |} ] |}.

(** * Facts about the replacer *)

Section ReplacerFacts.

Import Replacer.

Lemma to_size_t_small z : 0 <= z < 2 ^ 64 → to_size_t z = z.
Proof. intros. unfold to_size_t. by apply Z.mod_small. Qed.

Lemma to_size_t_dec_inc z :
  0 <= z < 2 ^ 64 → to_size_t (to_size_t (z - 1) + 1) = z.
Proof.
  intros Hz. unfold to_size_t.
  rewrite Zplus_mod_idemp_l. replace (z - 1 + 1) with z by lia.
  by apply Z.mod_small.
Qed.


Lemma count_evictable_insert_fresh m p n :
  m !! p = None →
  count_evictable (<[p := n]> m) = (count_evictable m + flag n)%nat.
Proof.
  intros Hp. unfold count_evictable, flag.
  destruct (evictable_ n) eqn:He.
  - rewrite map_filter_insert_True; [|done].
    rewrite map_size_insert_None; [lia|].
    apply map_lookup_filter_None. by left.
  - rewrite map_filter_insert_False; [|simpl; congruence].
    rewrite delete_id; [lia | done].
Qed.

Lemma count_evictable_delete m p n :
  m !! p = Some n →
  count_evictable m = (count_evictable (delete p m) + flag n)%nat.
Proof.
  intros Hp. rewrite <-(insert_delete_id m p n) at 1 by done.
  apply count_evictable_insert_fresh, lookup_delete_eq.
Qed.

Lemma count_evictable_insert m p n0 n :
  m !! p = Some n0 →
  (count_evictable (<[p := n]> m) + flag n0 = count_evictable m + flag n)%nat.
Proof.
  intros Hp. rewrite <-insert_delete_eq.
  rewrite count_evictable_insert_fresh by apply lookup_delete_eq.
  rewrite (count_evictable_delete m p n0 Hp). lia.
Qed.

Lemma count_evictable_le_size m : (count_evictable m ≤ size m)%nat.
Proof. apply map_subseteq_size, map_filter_subseteq. Qed.

(** A map keyed by [frame_id_t] values has at most 2^32 entries. *)
Lemma frame_map_size_bound (m : gmap Z Node) :
  (∀ p n, m !! p = Some n → is_frame_id_t p) →
  Z.of_nat (size m) <= 2 ^ 32.
Proof.
  intros Hkeys.
  assert (dom m ⊆ (list_to_set (seqZ (- 2 ^ 31) (2 ^ 32)) : gset Z)) as Hsub.
  { intros p [n Hn]%elem_of_dom. apply elem_of_list_to_set, elem_of_seqZ.
    specialize (Hkeys p n Hn). unfold is_frame_id_t in Hkeys. lia. }
  apply subseteq_size in Hsub.
  rewrite size_dom in Hsub.
  rewrite size_list_to_set in Hsub by apply NoDup_seqZ.
  rewrite length_seqZ in Hsub. lia.
Qed.

Lemma replacer_wf_count_bound r :
  wf r → Z.of_nat (size (frame_map_ r)) <= 2 ^ 32.
Proof.
  intros Hwf. apply frame_map_size_bound.
  intros p n Hn. by destruct (wf_key r Hwf p n Hn).
Qed.


Lemma elem_of_unlink p q l : q ∈ unlink p l ↔ q ≠ p ∧ q ∈ l.
Proof. unfold unlink. by rewrite list_elem_of_filter. Qed.

Lemma NoDup_unlink p l : NoDup l → NoDup (unlink p l).
Proof. apply NoDup_filter. Qed.

Lemma unlink_absent p l : p ∉ l → unlink p l = l.
Proof.
  intros Hp. unfold unlink. induction l as [|q l IH]; [done|].
  apply not_elem_of_cons in Hp as [Hne Hp].
  rewrite filter_cons_True by done. by rewrite IH.
Qed.

(** Unlinking a node and linking it in again at the tail of the segment
    its count selects. *)
Lemma relink_chain k p n l :
  let l' := insert_by_count k p n (List_Remove p n l) in
  NoDup (cache_list l ++ history_list l) →
  NoDup (cache_list l' ++ history_list l') ∧
  (∀ q, q ∈ cache_list l' ++ history_list l' ↔
        q = p ∨ q ∈ cache_list l ++ history_list l) ∧
  (∀ q, q ∈ history_list l' ↔
        (q = p ∧ count_ n < k) ∨ (q ≠ p ∧ q ∈ history_list l)).
Proof.
  intros l' Hnd. subst l'. unfold insert_by_count.
  apply NoDup_app in Hnd as (Hc & Hch & Hh).
  assert (NoDup (unlink p (cache_list l))) as Hc' by by apply NoDup_unlink.
  assert (NoDup (unlink p (history_list l))) as Hh' by by apply NoDup_unlink.
  destruct (k <=? count_ n) eqn:Hk; simpl;
    [apply Z.leb_le in Hk | apply Z.leb_gt in Hk].
  - split_and!.
    + apply NoDup_app. split_and!; [|intros q|done].
      * apply NoDup_app. split_and!; [done| |apply NoDup_singleton].
        intros q [Hq _]%elem_of_unlink ->%list_elem_of_singleton. done.
      * rewrite elem_of_app, list_elem_of_singleton, !elem_of_unlink.
        intros [[? Hq]| ->] [? Hq']; [by eapply Hch | done].
    + intros q. rewrite !elem_of_app, list_elem_of_singleton, !elem_of_unlink.
      destruct (decide (q = p)); naive_solver.
    + intros q. rewrite elem_of_unlink. split; [naive_solver|].
      intros [[_ ?]|?]; [lia | done].
  - split_and!.
    + apply NoDup_app. split_and!; [done|intros q|].
      * rewrite elem_of_app, list_elem_of_singleton, !elem_of_unlink.
        intros [? Hq] [[? Hq']| ->]; [by eapply Hch | done].
      * apply NoDup_app. split_and!; [done| |apply NoDup_singleton].
        intros q [Hq _]%elem_of_unlink ->%list_elem_of_singleton. done.
    + intros q. rewrite !elem_of_app, list_elem_of_singleton, !elem_of_unlink.
      destruct (decide (q = p)); naive_solver.
    + intros q. rewrite elem_of_app, list_elem_of_singleton, elem_of_unlink.
      destruct (decide (q = p)); naive_solver.
Qed.

Lemma relink_size k p n l :
  0 <= size_ l < 2 ^ 64 →
  size_ (insert_by_count k p n (List_Remove p n l)) = size_ l.
Proof.
  intros Hs. unfold insert_by_count.
  destruct (k <=? count_ n); simpl; destruct (evictable_ n); try done;
    by apply to_size_t_dec_inc.
Qed.

Lemma replacer_wf_size_range r : wf r → 0 <= size_ (list_ r) < 2 ^ 32 + 1.
Proof.
  intros Hwf. rewrite (wf_size r Hwf).
  pose proof (replacer_wf_count_bound r Hwf).
  pose proof (count_evictable_le_size (frame_map_ r)).
  unfold evictable_count. lia.
Qed.


Lemma replacer_wf_new num_frames k : wf (LRUKReplacer_new num_frames k).
Proof.
  split; simpl.
  - apply NoDup_nil_2.
  - intros p. unfold chain. simpl. rewrite lookup_empty.
    split; [by intros ?%not_elem_of_nil | by intros [? ?]].
  - intros p n. by rewrite lookup_empty.
  - intros p n. by rewrite lookup_empty.
  - done.
Qed.

Lemma replacer_wf_RecordAccess r frame_id :
  wf r → is_frame_id_t frame_id → wf (RecordAccess frame_id r).2.
Proof.
  intros Hwf Hid. unfold RecordAccess.
  pose proof (replacer_wf_size_range r Hwf) as Hrange.
  destruct (frame_map_ r !! frame_id) as [node0|] eqn:Hlook; simpl.
  - set (node := {| frame_id_ := frame_id_ node0;
                    count_ := to_size_t (count_ node0 + 1);
                    evictable_ := evictable_ node0 |}).
    destruct (relink_chain (k_ r) frame_id node (list_ r) (wf_nodup r Hwf))
      as (Hnd & Hin & Hhist).
    split; unfold chain; simpl.
    + done.
    + intros p. rewrite Hin, lookup_insert. case_decide as Hp.
      * subst p. split; [by eauto | by left].
      * rewrite <-(wf_linked r Hwf p). unfold chain. naive_solver.
    + intros p n. rewrite lookup_insert. case_decide as Hp.
      * intros [= <-]. subst p. simpl. split; [|done].
        by destruct (wf_key r Hwf _ _ Hlook).
      * apply (wf_key r Hwf).
    + intros p n. rewrite Hhist, lookup_insert. case_decide as Hp.
      * intros [= <-]. subst p. naive_solver.
      * intros Hn. rewrite <-(wf_segment r Hwf p n Hn). naive_solver.
    + rewrite relink_size by lia. rewrite (wf_size r Hwf).
      unfold evictable_count. simpl.
      pose proof (count_evictable_insert _ _ _ node Hlook) as Hc.
      unfold flag in Hc. simpl in Hc. lia.
  - assert (frame_id ∉ chain r) as Hfresh.
    { rewrite (wf_linked r Hwf), Hlook. by intros [? ?]. }
    assert (List_Remove frame_id (Node_new frame_id) (list_ r) = list_ r)
      as Hsame.
    { unfold chain in Hfresh. apply not_elem_of_app in Hfresh as [? ?].
      unfold List_Remove. simpl. rewrite !unlink_absent by done.
      by destruct (list_ r). }
    rewrite <-Hsame at 1.
    destruct (relink_chain (k_ r) frame_id (Node_new frame_id) (list_ r)
                (wf_nodup r Hwf)) as (Hnd & Hin & Hhist).
    split; unfold chain; simpl.
    + done.
    + intros p. rewrite Hin, lookup_insert. case_decide as Hp.
      * subst p. split; [by eauto | by left].
      * rewrite <-(wf_linked r Hwf p). unfold chain. naive_solver.
    + intros p n. rewrite lookup_insert. case_decide as Hp.
      * intros [= <-]. subst p. done.
      * apply (wf_key r Hwf).
    + intros p n. rewrite Hhist, lookup_insert. case_decide as Hp.
      * intros [= <-]. subst p. naive_solver.
      * intros Hn. rewrite <-(wf_segment r Hwf p n Hn). naive_solver.
    + rewrite relink_size by lia. rewrite (wf_size r Hwf).
      unfold evictable_count. simpl.
      rewrite count_evictable_insert_fresh by done.
      unfold flag. simpl. lia.
Qed.


Lemma replacer_wf_SetEvictable r frame_id set_evictable :
  wf r → wf (SetEvictable frame_id set_evictable r).2.
Proof.
  intros Hwf. unfold SetEvictable.
  destruct (frame_map_ r !! frame_id) as [node0|] eqn:Hlook; [|done].
  pose proof (replacer_wf_size_range r Hwf) as Hrange.
  pose proof (replacer_wf_count_bound r Hwf) as Hbound.
  pose proof (count_evictable_le_size (frame_map_ r)) as Hle.
  pose proof (wf_size r Hwf) as Hsize. unfold evictable_count in Hsize.
  destruct (wf_key r Hwf _ _ Hlook) as [Hfid Hid].
  assert (∀ node2 l2,
    frame_id_ node2 = frame_id → count_ node2 = count_ node0 →
    cache_list l2 = cache_list (list_ r) →
    history_list l2 = history_list (list_ r) →
    (Z.of_nat (flag node0) + size_ l2 =
       Z.of_nat (flag node2) + size_ (list_ r)) →
    wf {| replacer_size_ := replacer_size_ r; k_ := k_ r; list_ := l2;
          frame_map_ := <[frame_id := node2]> (frame_map_ r) |}) as Hgen.
  { intros node2 l2 Hf2 Hc2 Hcl Hhl Hsz.
    split; unfold chain; simpl; rewrite ?Hcl, ?Hhl.
    - apply (wf_nodup r Hwf).
    - intros p. rewrite lookup_insert. case_decide as Hp.
      + subst p. split; [by eauto|]. intros _.
        apply (wf_linked r Hwf). by eauto.
      + apply (wf_linked r Hwf).
    - intros p n. rewrite lookup_insert. case_decide as Hp.
      + intros [= <-]. by subst p.
      + apply (wf_key r Hwf).
    - intros p n. rewrite lookup_insert. case_decide as Hp.
      + intros [= <-]. subst p. rewrite Hc2. by apply (wf_segment r Hwf).
      + apply (wf_segment r Hwf).
    - unfold evictable_count. simpl.
      pose proof (count_evictable_insert _ _ _ node2 Hlook). lia. }
  assert (evictable_ node0 = true → (0 < count_evictable (frame_map_ r))%nat)
    as Hpos.
  { intros He. rewrite (count_evictable_delete _ _ _ Hlook).
    unfold flag. rewrite He. lia. }
  assert (evictable_ node0 = false →
          (count_evictable (frame_map_ r) < size (frame_map_ r))%nat) as Hroom.
  { intros He.
    rewrite (count_evictable_delete _ _ _ Hlook).
    pose proof (count_evictable_le_size (delete frame_id (frame_map_ r))).
    pose proof (map_size_delete_Some frame_id (frame_map_ r) ltac:(eauto)).
    unfold flag. rewrite He.
    assert (0 < size (frame_map_ r))%nat; [|lia].
    destruct (decide (size (frame_map_ r) = 0%nat)) as [Hz|]; [|lia].
    apply map_size_empty_inv in Hz. rewrite Hz in Hlook.
    by rewrite lookup_empty in Hlook. }
  destruct (evictable_ node0) eqn:He, set_evictable; simpl; rewrite ?He; simpl.
  - by apply Hgen.
  - specialize (Hpos eq_refl). unfold DecrementSize.
    destruct (0 <? size_ (list_ r)) eqn:Hlt; [|apply Z.ltb_ge in Hlt; lia].
    apply Hgen; simpl; [done..|]. unfold flag. rewrite He. simpl.
    rewrite to_size_t_small by lia. lia.
  - specialize (Hroom eq_refl).
    apply Hgen; simpl; [done..|]. unfold flag. rewrite He. simpl.
    rewrite to_size_t_small by lia. lia.
  - by apply Hgen.
Qed.

(** What the scan of a chain finds. *)
Lemma first_evictable_Some m l p n :
  first_evictable m l = Some (p, n) →
  p ∈ l ∧ m !! p = Some n ∧ evictable_ n = true.
Proof.
  induction l as [|q l IH]; simpl; [done|].
  destruct (m !! q) as [nq|] eqn:Hq.
  - destruct (evictable_ nq) eqn:He.
    + intros [= <- <-]. split_and!; [left|done|done].
    + intros (? & ? & ?)%IH. split_and!; [by right|done|done].
  - intros (? & ? & ?)%IH. split_and!; [by right|done|done].
Qed.

Lemma first_evictable_None m l p n :
  first_evictable m l = None → p ∈ l → m !! p = Some n →
  evictable_ n = false.
Proof.
  induction l as [|q l IH]; simpl; [by intros _ ?%not_elem_of_nil|].
  intros Hscan [->|Hp]%elem_of_cons Hn.
  - rewrite Hn in Hscan. by destruct (evictable_ n).
  - apply IH; [|done|done].
    destruct (m !! q) as [nq|]; [|done]. by destruct (evictable_ nq).
Qed.

(** Dropping an evictable node from the chain and from the map. *)
Lemma replacer_wf_drop r p n :
  wf r → frame_map_ r !! p = Some n → evictable_ n = true →
  wf {| replacer_size_ := replacer_size_ r; k_ := k_ r;
        list_ := List_Remove p n (list_ r);
        frame_map_ := delete p (frame_map_ r) |}.
Proof.
  intros Hwf Hlook He.
  pose proof (wf_nodup r Hwf) as Hnd. unfold chain in Hnd.
  apply NoDup_app in Hnd as (Hc & Hch & Hh).
  split; unfold chain; simpl.
  - apply NoDup_app. split_and!; [by apply NoDup_unlink| |by apply NoDup_unlink].
    intros q [? Hq]%elem_of_unlink [? Hq']%elem_of_unlink. by eapply Hch.
  - intros q. rewrite elem_of_app, !elem_of_unlink, lookup_delete.
    case_decide as Hq.
    + subst q. split; [naive_solver | by intros [? ?]].
    + rewrite <-(wf_linked r Hwf q). unfold chain. rewrite elem_of_app.
      naive_solver.
  - intros q nq. rewrite lookup_delete. case_decide; [done|].
    apply (wf_key r Hwf).
  - intros q nq. rewrite lookup_delete, elem_of_unlink.
    case_decide as Hq; [done|]. intros Hnq.
    rewrite <-(wf_segment r Hwf q nq Hnq). naive_solver.
  - rewrite He. pose proof (replacer_wf_size_range r Hwf).
    pose proof (wf_size r Hwf) as Hsize.
    unfold evictable_count in *. simpl.
    pose proof (count_evictable_delete _ _ _ Hlook) as Hcnt.
    unfold flag in Hcnt. rewrite He in Hcnt.
    rewrite to_size_t_small by lia. lia.
Qed.

Lemma replacer_wf_Remove r frame_id : wf r → wf (Remove frame_id r).2.
Proof.
  intros Hwf. unfold Remove.
  destruct (frame_map_ r !! frame_id) as [node|] eqn:Hlook; [|done].
  destruct (evictable_ node) eqn:He; simpl; [|done].
  by apply replacer_wf_drop.
Qed.

Lemma replacer_wf_Evict r : wf r → wf (Evict r).2.
Proof.
  intros Hwf. unfold Evict.
  destruct (first_evictable _ (history_list _)) as [[p n]|] eqn:Hh.
  - apply first_evictable_Some in Hh as (_ & Hn & He). simpl.
    unfold evict_node. destruct (wf_key r Hwf _ _ Hn) as [-> _].
    by apply replacer_wf_drop.
  - destruct (first_evictable _ (cache_list _)) as [[p n]|] eqn:Hc; [|done].
    apply first_evictable_Some in Hc as (_ & Hn & He). simpl.
    unfold evict_node. destruct (wf_key r Hwf _ _ Hn) as [-> _].
    by apply replacer_wf_drop.
Qed.

Lemma replacer_reachable_wf r : reachable r → wf r.
Proof.
  induction 1;
    auto using replacer_wf_new, replacer_wf_RecordAccess, replacer_wf_SetEvictable, replacer_wf_Evict, replacer_wf_Remove.
Qed.


(** C2, at an input where the claim fails: on a replacer made for 7 frames,
    [RecordAccess(100)] does not fail with an invalid-frame error.  It
    returns normally and the state changes: frame 100 is now tracked, at the
    tail of the history list.  (The same holds for every frame id and every
    state: [RecordAccess] has no failing path.) *)
Theorem RecordAccess_out_of_range_is_tracked :
  (∀ frame_id r, (RecordAccess frame_id r).1 = Returned) ∧
  (RecordAccess 100 (LRUKReplacer_new 7 2)).1 = Returned ∧
  frame_map_ (RecordAccess 100 (LRUKReplacer_new 7 2)).2 !! 100
    = Some (Node_new 100) ∧
  history_list (list_ (RecordAccess 100 (LRUKReplacer_new 7 2)).2) = [100] ∧
  frame_map_ (LRUKReplacer_new 7 2) !! 100 = None.
Proof.
  split_and!.
  - intros frame_id r. unfold RecordAccess.
    by destruct (frame_map_ r !! frame_id).
  - reflexivity.
  - vm_compute. reflexivity.
  - vm_compute. reflexivity.
  - vm_compute. reflexivity.
Qed.

(** C3: in every reachable state of the replacer in which some evictable
    frame has a reference count below [k], [Evict] returns a frame, and the
    frame it returns is an evictable frame whose reference count is below
    [k]. *)
Theorem Evict_prefers_history r :
  reachable r →
  (∃ f n, frame_map_ r !! f = Some n ∧ evictable_ n = true ∧
          count_ n < k_ r) →
  ∃ f' n', (Evict r).1 = Some f' ∧ frame_map_ r !! f' = Some n' ∧
           evictable_ n' = true ∧ count_ n' < k_ r.
Proof.
  intros Hwf%replacer_reachable_wf (f & n & Hn & He & Hcount).
  assert (f ∈ history_list (list_ r)) as Hf
    by by apply (wf_segment r Hwf f n Hn).
  unfold Evict.
  destruct (first_evictable _ (history_list _)) as [[p' n']|] eqn:Hscan.
  - apply first_evictable_Some in Hscan as (Hp' & Hn' & He').
    destruct (wf_key r Hwf _ _ Hn') as [Hid _].
    exists p', n'. simpl. rewrite Hid. split_and!; try done.
    by apply (wf_segment r Hwf p' n' Hn').
  - pose proof (first_evictable_None _ _ _ _ Hscan Hf Hn). congruence.
Qed.

(** C4: in every reachable state of the replacer [Size()] is the number of
    tracked frames whose evictable flag is set, and this is so again after
    each of [RecordAccess], [SetEvictable], [Evict] and [Remove]. *)
Theorem Size_counts_evictable r :
  reachable r →
  Size r = Z.of_nat (evictable_count r) ∧
  (∀ f, is_frame_id_t f →
     Size (RecordAccess f r).2 = Z.of_nat (evictable_count (RecordAccess f r).2)) ∧
  (∀ f b,
     Size (SetEvictable f b r).2 = Z.of_nat (evictable_count (SetEvictable f b r).2)) ∧
  Size (Evict r).2 = Z.of_nat (evictable_count (Evict r).2) ∧
  (∀ f, Size (Remove f r).2 = Z.of_nat (evictable_count (Remove f r).2)).
Proof.
  intros Hwf%replacer_reachable_wf. unfold Size, List_Size. split_and!.
  - apply (wf_size r Hwf).
  - intros f Hf. by apply wf_size, replacer_wf_RecordAccess.
  - intros f b. by apply wf_size, replacer_wf_SetEvictable.
  - by apply wf_size, replacer_wf_Evict.
  - intros f. by apply wf_size, replacer_wf_Remove.
Qed.

(** C8: in every state of the replacer, [Remove(frame_id)] of a tracked
    evictable frame returns normally with the frame's node gone from the map
    and from both lists, every other node being kept: the map is the old one
    without [frame_id], each list is the old one with [frame_id] unlinked,
    [size_] is decremented once and [k_] is as before; of a tracked frame
    that is not evictable it throws and leaves the state as it was; of an
    unknown frame it returns normally and leaves the state as it was. *)
Theorem Remove_cases r frame_id :
  (∀ n, frame_map_ r !! frame_id = Some n → evictable_ n = true →
     (Remove frame_id r).1 = Returned ∧
     frame_map_ (Remove frame_id r).2 !! frame_id = None ∧
     (frame_id ∉ cache_list (list_ (Remove frame_id r).2)) ∧
     (frame_id ∉ history_list (list_ (Remove frame_id r).2)) ∧
     (∀ g, g ≠ frame_id →
        frame_map_ (Remove frame_id r).2 !! g = frame_map_ r !! g) ∧
     frame_map_ (Remove frame_id r).2 = delete frame_id (frame_map_ r) ∧
     cache_list (list_ (Remove frame_id r).2)
       = unlink frame_id (cache_list (list_ r)) ∧
     history_list (list_ (Remove frame_id r).2)
       = unlink frame_id (history_list (list_ r)) ∧
     (∀ g, g ≠ frame_id →
        (g ∈ cache_list (list_ (Remove frame_id r).2)
           ↔ g ∈ cache_list (list_ r)) ∧
        (g ∈ history_list (list_ (Remove frame_id r).2)
           ↔ g ∈ history_list (list_ r))) ∧
     size_ (list_ (Remove frame_id r).2) = to_size_t (size_ (list_ r) - 1) ∧
     k_ (Remove frame_id r).2 = k_ r) ∧
  (∀ n, frame_map_ r !! frame_id = Some n → evictable_ n = false →
     Remove frame_id r = (Thrown std_exception, r)) ∧
  (frame_map_ r !! frame_id = None → Remove frame_id r = (Returned, r)).
Proof.
  unfold Remove. split_and!.
  - intros n -> He. unfold List_Remove. rewrite He. simpl.
    split_and!;
      first [ done
            | apply lookup_delete_eq
            | (rewrite elem_of_unlink; naive_solver)
            | (intros g Hg; by apply lookup_delete_ne)
            | (intros g Hg; rewrite !elem_of_unlink; naive_solver) ].
  - by intros n -> ->.
  - by intros ->.
Qed.


(** C6: the scenario with [k = 2].  After [RecordAccess] of 1, 2, 3 and 1
    again, frame 1 is in the cache list and the history list is [2; 3];
    after marking 1, 2, 3 evictable [Size()] is 3; four calls of [Evict]
    then give 2, 3, 1 and no frame, with [Size()] 2, 1, 0 after the first
    three. *)
Theorem scenario_k2 num_frames :
  let r0 := LRUKReplacer_new num_frames 2 in
  let r1 := (RecordAccess 1 r0).2 in
  let r2 := (RecordAccess 2 r1).2 in
  let r3 := (RecordAccess 3 r2).2 in
  let r4 := (RecordAccess 1 r3).2 in
  let r5 := (SetEvictable 1 true r4).2 in
  let r6 := (SetEvictable 2 true r5).2 in
  let r7 := (SetEvictable 3 true r6).2 in
  let e1 := Evict r7 in
  let e2 := Evict e1.2 in
  let e3 := Evict e2.2 in
  let e4 := Evict e3.2 in
  history_list (list_ r3) = [1; 2; 3] ∧
  cache_list (list_ r4) = [1] ∧ history_list (list_ r4) = [2; 3] ∧
  (SetEvictable 1 true r4).1 = Returned ∧
  (SetEvictable 2 true r5).1 = Returned ∧
  (SetEvictable 3 true r6).1 = Returned ∧
  Size r7 = 3 ∧
  e1.1 = Some 2 ∧ Size e1.2 = 2 ∧
  e2.1 = Some 3 ∧ Size e2.2 = 1 ∧
  e3.1 = Some 1 ∧ Size e3.2 = 0 ∧
  e4.1 = None.
Proof. by vm_compute. Qed.

Lemma tracker_example_reachable : reachable tracker_example.
Proof.
  unfold tracker_example.
  apply reach_SetEvictable, reach_RecordAccess; [apply reach_new|].
  unfold is_frame_id_t. lia.
Qed.

Lemma tracker_pinned_reachable : reachable tracker_pinned.
Proof.
  unfold tracker_pinned. apply reach_RecordAccess; [apply reach_new|].
  unfold is_frame_id_t. lia.
Qed.

Lemma tracker_two_reachable : reachable tracker_two.
Proof.
  unfold tracker_two.
  repeat first [apply reach_SetEvictable | apply reach_RecordAccess
               | apply reach_new | (unfold is_frame_id_t; lia)].
Qed.

(** The theorem of C3 at [tracker_two], where [k = 3]: frame 1 is evictable
    with three accesses, in the cache list, frame 2 is evictable with one
    access, in the history list, and [Evict] returns frame 2. *)
Lemma Evict_prefers_history_witness :
  reachable tracker_two ∧
  frame_map_ tracker_two !! 1
    = Some {| frame_id_ := 1; count_ := 3; evictable_ := true |} ∧
  cache_list (list_ tracker_two) = [1] ∧
  history_list (list_ tracker_two) = [2] ∧
  (∃ f n, frame_map_ tracker_two !! f = Some n ∧ evictable_ n = true ∧
          count_ n < k_ tracker_two) ∧
  (Evict tracker_two).1 = Some 2 ∧
  ∃ f' n', (Evict tracker_two).1 = Some f' ∧
           frame_map_ tracker_two !! f' = Some n' ∧
           evictable_ n' = true ∧ count_ n' < k_ tracker_two.
Proof.
  assert (frame_map_ tracker_two !! 1
          = Some {| frame_id_ := 1; count_ := 3; evictable_ := true |})
    as Hcached by (vm_compute; reflexivity).
  assert (cache_list (list_ tracker_two) = [1]) as Hcache
    by (vm_compute; reflexivity).
  assert (history_list (list_ tracker_two) = [2]) as Hhistory
    by (vm_compute; reflexivity).
  assert (frame_map_ tracker_two !! 2
          = Some {| frame_id_ := 2; count_ := 1; evictable_ := true |})
    as Hyoung by (vm_compute; reflexivity).
  assert (count_ {| frame_id_ := 2; count_ := 1; evictable_ := true |}
          < k_ tracker_two) as Hcount by (vm_compute; reflexivity).
  assert ((Evict tracker_two).1 = Some 2) as Hev by (vm_compute; reflexivity).
  assert (∃ f n, frame_map_ tracker_two !! f = Some n ∧
                 evictable_ n = true ∧ count_ n < k_ tracker_two) as Hex.
  { exists 2, {| frame_id_ := 2; count_ := 1; evictable_ := true |}.
    split; [exact Hyoung|]. split; [reflexivity|exact Hcount]. }
  split; [exact tracker_two_reachable|]. split; [exact Hcached|].
  split; [exact Hcache|]. split; [exact Hhistory|]. split; [exact Hex|].
  split; [exact Hev|].
  exact (Evict_prefers_history tracker_two tracker_two_reachable Hex).
Defined.

(** The theorem of C4 at [tracker_example]. *)
Lemma Size_counts_evictable_witness :
  reachable tracker_example ∧
  Size tracker_example = Z.of_nat (evictable_count tracker_example).
Proof.
  split; [apply tracker_example_reachable|].
  exact (proj1 (Size_counts_evictable tracker_example
                  tracker_example_reachable)).
Defined.

(** The theorem of C8 at an evictable frame of [tracker_two], which tracks
    a second frame, and at a pinned and an unknown frame. *)
Lemma Remove_cases_witness :
  (frame_map_ tracker_two !! 2
     = Some {| frame_id_ := 2; count_ := 1; evictable_ := true |} ∧
   frame_map_ (Remove 2 tracker_two).2 !! 2 = None ∧
   frame_map_ (Remove 2 tracker_two).2 !! 1 = frame_map_ tracker_two !! 1 ∧
   cache_list (list_ (Remove 2 tracker_two).2)
     = unlink 2 (cache_list (list_ tracker_two)) ∧
   history_list (list_ (Remove 2 tracker_two).2)
     = unlink 2 (history_list (list_ tracker_two)) ∧
   (1 ∈ cache_list (list_ (Remove 2 tracker_two).2)
      ↔ 1 ∈ cache_list (list_ tracker_two)) ∧
   size_ (list_ (Remove 2 tracker_two).2)
     = to_size_t (size_ (list_ tracker_two) - 1)) ∧
  (frame_map_ tracker_pinned !! 1 = Some (Node_new 1) ∧
   Remove 1 tracker_pinned = (Thrown std_exception, tracker_pinned)) ∧
  (frame_map_ tracker_example !! 5 = None ∧
   Remove 5 tracker_example = (Returned, tracker_example)).
Proof.
  assert (frame_map_ tracker_two !! 2
            = Some {| frame_id_ := 2; count_ := 1; evictable_ := true |})
    as Hevictable by (vm_compute; reflexivity).
  assert (frame_map_ tracker_pinned !! 1 = Some (Node_new 1)) as Hpinned
    by (vm_compute; reflexivity).
  assert (frame_map_ tracker_example !! 5 = None) as Hunknown
    by (vm_compute; reflexivity).
  assert (1 ≠ 2) as Hne by lia.
  destruct (proj1 (Remove_cases tracker_two 2) _ Hevictable eq_refl)
    as (_ & Hgone & _ & _ & Hkept & _ & Hcache & Hhistory & Hothers & Hsize
        & _).
  split; [|split].
  - split; [exact Hevictable|]. split; [exact Hgone|].
    split; [exact (Hkept 1 Hne)|]. split; [exact Hcache|].
    split; [exact Hhistory|]. split; [exact (proj1 (Hothers 1 Hne))|].
    exact Hsize.
  - split; [exact Hpinned|].
    exact (proj1 (proj2 (Remove_cases tracker_pinned 1)) _ Hpinned eq_refl).
  - split; [exact Hunknown|].
    exact (proj2 (proj2 (Remove_cases tracker_example 5)) Hunknown).
Defined.

End ReplacerFacts.

(** * Facts about machine arithmetic *)

Lemma to_int_small z : - 2 ^ 31 <= z < 2 ^ 31 → to_int z = z.
Proof. intros. unfold to_int. rewrite Z.mod_small; lia. Qed.

Lemma pow2_le_30 n : 0 <= n <= 30 → 1 <= 2 ^ n <= 2 ^ 30.
Proof.
  intros Hn. split.
  - pose proof (Z.pow_pos_nonneg 2 n). lia.
  - apply Z.pow_le_mono_r; lia.
Qed.

(** The mask of [IndexOf] while the shift stays within [int]. *)
Lemma index_mask n :
  0 <= n <= 30 →
  to_size_t (to_int (to_int (Z.shiftl 1 n) - 1)) = Z.ones n.
Proof.
  intros Hn. pose proof (pow2_le_30 n Hn).
  rewrite Z.shiftl_1_l, Z.ones_equiv.
  rewrite (to_int_small (2 ^ n)) by lia.
  rewrite to_int_small by lia.
  unfold to_size_t. rewrite Z.mod_small; lia.
Qed.

(** The bit tested by [SplitBucket] while the shift stays within [int]. *)
Lemma split_bit n :
  0 <= n <= 30 → to_size_t (to_int (Z.shiftl 1 n)) = 2 ^ n.
Proof.
  intros Hn. pose proof (pow2_le_30 n Hn).
  rewrite Z.shiftl_1_l, to_int_small by lia.
  unfold to_size_t. rewrite Z.mod_small; lia.
Qed.

Lemma land_pow2_eq_0 x n :
  0 <= n → (Z.land x (2 ^ n) =? 0) = negb (Z.testbit x n).
Proof.
  intros Hn. destruct (Z.testbit x n) eqn:Hbit; simpl.
  - apply Z.eqb_neq. intros Hz.
    assert (Z.testbit (Z.land x (2 ^ n)) n = true) as Hb.
    { rewrite Z.land_spec, Hbit, Z.pow2_bits_true; done. }
    rewrite Hz, Z.bits_0 in Hb. done.
  - apply Z.eqb_eq. apply Z.bits_inj'. intros m Hm.
    rewrite Z.land_spec, Z.bits_0.
    destruct (decide (n = m)) as [<-|Hne].
    + by rewrite Hbit.
    + rewrite Z.pow2_bits_false by done. apply andb_false_r.
Qed.

Lemma shiftr_land_1_eq_0 x n :
  0 <= n → (Z.land (Z.shiftr x n) 1 =? 0) = negb (Z.testbit x n).
Proof.
  intros Hn. change 1 with (Z.ones 1). rewrite Z.land_ones by lia.
  rewrite <-Z.bit0_mod, Z.shiftr_spec by lia.
  rewrite Z.add_0_l. by destruct (Z.testbit x n).
Qed.

Lemma mod_pow2_succ x n :
  0 <= n →
  x mod 2 ^ (n + 1) = x mod 2 ^ n + (if Z.testbit x n then 2 ^ n else 0).
Proof.
  intros Hn. pose proof (Z.pow_pos_nonneg 2 n).
  rewrite Z.pow_add_r, Z.pow_1_r by lia.
  rewrite Z.rem_mul_r by lia.
  rewrite <-Z.testbit_spec' by done.
  destruct (Z.testbit x n); simpl; lia.
Qed.

Lemma mod_pow2_le x y m n :
  0 <= n <= m → x mod 2 ^ m = y mod 2 ^ m → x mod 2 ^ n = y mod 2 ^ n.
Proof.
  intros Hn Hxy. pose proof (Z.pow_pos_nonneg 2 n).
  pose proof (Z.pow_pos_nonneg 2 m).
  assert ((2 ^ n | 2 ^ m)) as Hdiv.
  { exists (2 ^ (m - n)). rewrite <-Z.pow_add_r by lia. f_equal. lia. }
  rewrite <-(Z.mod_mod_divide x _ _ Hdiv), <-(Z.mod_mod_divide y _ _ Hdiv).
  by rewrite Hxy.
Qed.

Lemma mod_pow2_mod x m n :
  0 <= n <= m → (x mod 2 ^ m) mod 2 ^ n = x mod 2 ^ n.
Proof.
  intros Hn. apply (mod_pow2_le _ _ m); [done|].
  apply Z.mod_mod. pose proof (Z.pow_pos_nonneg 2 m). lia.
Qed.

Lemma testbit_mod_pow2 x m n :
  0 <= n < m → Z.testbit (x mod 2 ^ m) n = Z.testbit x n.
Proof. intros. apply Z.mod_pow2_bits_low. lia. Qed.

(** * Facts about the extendible hash table *)

Section TableFacts.

Import Table.

Context {K V : Type} `{EqDecision K}.
Variable hash : K → Z.

Implicit Types (items : list (K * V)) (b : @Bucket K V)
  (t : @ExtendibleHashTable K V) (key k : K) (value v : V).

(** ** Entries of one bucket *)

Lemma find_item_None key items :
  find_item key items = None ↔ key ∉ items.*1.
Proof.
  induction items as [|[k v] items IH]; simpl.
  - split; [intros _; apply not_elem_of_nil | done].
  - rewrite not_elem_of_cons. case_decide; naive_solver.
Qed.

Lemma find_item_Some_elem key v items :
  find_item key items = Some v → key ∈ items.*1.
Proof.
  intros Hf. destruct (decide (key ∈ items.*1)) as [|Hn]; [done|].
  apply find_item_None in Hn. congruence.
Qed.

Lemma assign_item_None key value items :
  assign_item key value items = None ↔ key ∉ items.*1.
Proof.
  induction items as [|[k v] items IH]; simpl.
  - split; [intros _; apply not_elem_of_nil | done].
  - rewrite not_elem_of_cons. case_decide; [naive_solver|].
    destruct (assign_item key value items); naive_solver.
Qed.

Lemma assign_item_Some key value items items' :
  assign_item key value items = Some items' →
  items'.*1 = items.*1 ∧
  find_item key items' = Some value ∧
  (∀ k, k ≠ key → find_item k items' = find_item k items).
Proof.
  revert items'. induction items as [|[k v] items IH]; simpl; [done|].
  intros items'. case_decide as Hk.
  - intros [= <-]. subst k. simpl. split_and!; [done| |].
    + by rewrite decide_True.
    + intros k Hne. by rewrite !decide_False.
  - destruct (assign_item key value items) as [rest|]; [|done].
    intros [= <-]. destruct (IH rest eq_refl) as (Hkeys & Hfind & Hother).
    simpl. split_and!.
    + f_equal. exact Hkeys.
    + by rewrite decide_False.
    + intros k' Hne. case_decide; [done|]. by apply Hother.
Qed.

Lemma find_item_snoc_eq key value items :
  key ∉ items.*1 → find_item key (items ++ [(key, value)]) = Some value.
Proof.
  induction items as [|[k v] items IH]; simpl.
  - intros _. by rewrite decide_True.
  - rewrite not_elem_of_cons. intros [Hne Hn]. rewrite decide_False by done.
    by apply IH.
Qed.

Lemma find_item_snoc_ne k key value items :
  k ≠ key → find_item k (items ++ [(key, value)]) = find_item k items.
Proof.
  intros Hne. induction items as [|[k' v] items IH]; simpl.
  - by rewrite decide_False.
  - case_decide; [done|]. apply IH.
Qed.

Lemma erase_item_None key items :
  erase_item key items = None ↔ key ∉ items.*1.
Proof.
  induction items as [|[k v] items IH]; simpl.
  - split; [intros _; apply not_elem_of_nil | done].
  - rewrite not_elem_of_cons. case_decide; [naive_solver|].
    destruct (erase_item key items); naive_solver.
Qed.

Lemma erase_item_Some key items items' :
  erase_item key items = Some items' →
  items' ⊆ items ∧
  (length items' ≤ length items)%nat ∧
  (NoDup items.*1 → NoDup items'.*1 ∧ find_item key items' = None) ∧
  (∀ k, k ≠ key → find_item k items' = find_item k items).
Proof.
  revert items'. induction items as [|[k v] items IH]; simpl; [done|].
  intros items'. case_decide as Hk.
  - intros [= <-]. subst k. split_and!.
    + set_solver.
    + lia.
    + intros [Hn Hnd]%NoDup_cons. split; [done|]. by apply find_item_None.
    + intros k Hne. by rewrite decide_False.
  - destruct (erase_item key items) as [rest|]; [|done].
    intros [= <-]. destruct (IH rest eq_refl) as (Hsub & Hlen & Hnd & Hother).
    split_and!.
    + set_solver.
    + simpl. lia.
    + intros [Hn Hnd']%NoDup_cons. destruct (Hnd Hnd') as [? ?].
      simpl. rewrite decide_False by done. split; [|done].
      apply NoDup_cons. split; [|done].
      intros Hin. apply Hn.
      apply list_elem_of_fmap in Hin as ([k' v'] & -> & Hin).
      apply list_elem_of_fmap. exists (k', v'). split; [done|]. by apply Hsub.
    + intros k' Hne. simpl. case_decide; [done|]. by apply Hother.
Qed.

(** Entries picked by a test on the key. *)
Lemma find_item_filter (P : K → Prop) `{∀ k, Decision (P k)} key items :
  find_item key (filter (λ kv, P kv.1) items) =
  if decide (P key) then find_item key items else None.
Proof.
  induction items as [|[k v] items IH]; simpl.
  - by destruct (decide (P key)).
  - destruct (decide (P k)) as [Hk|Hk].
    + rewrite filter_cons_True by done. simpl.
      destruct (decide (k = key)) as [->|Hne].
      * by rewrite decide_True.
      * apply IH.
    + rewrite filter_cons_False by done. rewrite IH.
      destruct (decide (k = key)) as [->|Hne]; [|done].
      by repeat case_decide.
Qed.

Lemma filter_keys_subseteq (P : K * V → Prop) `{∀ kv, Decision (P kv)} items :
  (filter P items).*1 ⊆ items.*1.
Proof.
  intros k ([k' v] & -> & [_ Hin]%list_elem_of_filter)%list_elem_of_fmap.
  apply list_elem_of_fmap. by exists (k', v).
Qed.

Lemma NoDup_filter_keys (P : K * V → Prop) `{∀ kv, Decision (P kv)} items :
  NoDup items.*1 → NoDup (filter P items).*1.
Proof.
  induction items as [|[k v] items IH]; simpl; [done|].
  intros [Hn Hnd]%NoDup_cons.
  destruct (decide (P (k, v))).
  - rewrite filter_cons_True by done. simpl. apply NoDup_cons. split; [|auto].
    intros Hin. by apply Hn, (filter_keys_subseteq P).
  - rewrite filter_cons_False by done. auto.
Qed.


(** ** Routing *)

Lemma IndexOf_mod t key :
  0 <= global_depth_ t <= 30 →
  IndexOf hash t key = hash key mod 2 ^ global_depth_ t.
Proof.
  intros Hd. unfold IndexOf. rewrite index_mask by done.
  apply Z.land_ones. lia.
Qed.

Lemma IndexOf_range t key :
  wf hash t → 0 <= IndexOf hash t key < Z.of_nat (length (dir_ t)).
Proof.
  intros Hwf. rewrite IndexOf_mod by apply Hwf.
  rewrite (wf_length _ _ Hwf). apply Z.mod_pos_bound.
  apply Z.pow_pos_nonneg; [lia | apply Hwf].
Qed.

Lemma bucket_at_Some t index a b :
  bucket_at t index = Some (a, b) ↔
  0 <= index ∧ dir_ t !! Z.to_nat index = Some (Some a) ∧
  buckets t !! a = Some b.
Proof.
  unfold bucket_at. destruct (index <? 0) eqn:Hi.
  - apply Z.ltb_lt in Hi. split; [done | lia].
  - apply Z.ltb_ge in Hi.
    destruct (dir_ t !! Z.to_nat index) as [[a'|]|]; [|naive_solver..].
    destruct (buckets t !! a') as [b'|] eqn:Hb; naive_solver.
Qed.

Lemma bucket_at_slot t (i : nat) a b :
  bucket_at t (Z.of_nat i) = Some (a, b) ↔
  dir_ t !! i = Some (Some a) ∧ buckets t !! a = Some b.
Proof. rewrite bucket_at_Some, Nat2Z.id. intuition lia. Qed.

Lemma wf_bucket_at t index :
  wf hash t → 0 <= index < Z.of_nat (length (dir_ t)) →
  ∃ a b, bucket_at t index = Some (a, b).
Proof.
  intros Hwf Hi.
  destruct (lookup_lt_is_Some_2 (dir_ t) (Z.to_nat index)) as [slot Hslot];
    [lia|].
  destruct (wf_slot _ _ Hwf _ _ Hslot) as (a & b & -> & Hb).
  exists a, b. apply bucket_at_Some. split_and!; [lia|done..].
Qed.

Lemma wf_bucket_of t key :
  wf hash t → ∃ a b, bucket_at t (IndexOf hash t key) = Some (a, b).
Proof. intros Hwf. by apply wf_bucket_at, IndexOf_range. Qed.

Lemma Find_path_bucket t key a b :
  wf hash t → bucket_at t (IndexOf hash t key) = Some (a, b) →
  Find_path hash t key = InBucket a b.
Proof.
  intros Hwf Hb. unfold Find_path.
  pose proof (IndexOf_range t key Hwf).
  destruct (_ <=? _) eqn:Hle; [apply Z.leb_le in Hle; lia|].
  by rewrite Hb.
Qed.

Lemma Remove_path_bucket t key a b :
  wf hash t → bucket_at t (IndexOf hash t key) = Some (a, b) →
  Remove_path hash t key = InBucket a b.
Proof.
  intros Hwf Hb. unfold Remove_path.
  pose proof (IndexOf_range t key Hwf).
  destruct (_ <? _) eqn:Hle; [apply Z.ltb_lt in Hle; lia|].
  by rewrite Hb.
Qed.

Lemma Find_bucket t key a b :
  wf hash t → bucket_at t (IndexOf hash t key) = Some (a, b) →
  Find hash t key = find_item key (list_ b).
Proof.
  intros Hwf Hb. unfold Find. by rewrite (Find_path_bucket t key a b).
Qed.

(** ** Doubling the directory *)

Lemma expand_fold (d : list (option nat)) (j m : nat) :
  (j + m)%nat = length d →
  foldl (λ d' i, <[(i + length d)%nat := default None (d' !! i)]> d')
        (d ++ take j d ++ replicate m None) (seq j m)
  = d ++ d.
Proof.
  revert j. induction m as [|m IH]; intros j Hjm; simpl.
  - rewrite take_ge by lia. by rewrite app_nil_r.
  - destruct (lookup_lt_is_Some_2 d j) as [x Hx]; [lia|].
    rewrite lookup_app_l by lia. rewrite Hx. simpl.
    rewrite insert_app_r_alt by lia.
    rewrite insert_app_r_alt by (rewrite length_take; lia).
    replace (j + length d - length d - length (take j d))%nat with 0%nat
      by (rewrite length_take; lia).
    simpl.
    replace (take j d ++ x :: replicate m None)
      with (take (S j) d ++ replicate m None)
      by (by rewrite (take_S_r d j x Hx), <-app_assoc).
    apply IH. lia.
Qed.

Lemma ExpandTable_dir t : dir_ (ExpandTable t) = dir_ t ++ dir_ t.
Proof.
  unfold ExpandTable. simpl.
  apply (expand_fold (dir_ t) 0 (length (dir_ t))). lia.
Qed.


(** ** Writing to one bucket *)

Lemma Bucket_Insert_false key value b b' :
  Bucket_Insert key value b = (false, b') →
  b' = b ∧ (key ∉ (list_ b).*1) ∧ Z.of_nat (length (list_ b)) = size_ b.
Proof.
  unfold Bucket_Insert, IsFull.
  destruct (assign_item key value (list_ b)) as [items'|] eqn:Ha; [done|].
  apply assign_item_None in Ha.
  destruct (_ =? _) eqn:Hfull; [|done].
  apply Z.eqb_eq in Hfull. by intros [= <-].
Qed.

Lemma Bucket_Insert_true key value b b' :
  Bucket_Insert key value b = (true, b') →
  size_ b' = size_ b ∧ depth_ b' = depth_ b ∧
  find_item key (list_ b') = Some value ∧
  (∀ k, k ≠ key → find_item k (list_ b') = find_item k (list_ b)) ∧
  (∀ k, k ∈ (list_ b').*1 ↔ k = key ∨ k ∈ (list_ b).*1) ∧
  (NoDup (list_ b).*1 → NoDup (list_ b').*1) ∧
  (Z.of_nat (length (list_ b)) <= size_ b →
   Z.of_nat (length (list_ b')) <= size_ b).
Proof.
  unfold Bucket_Insert, IsFull.
  destruct (assign_item key value (list_ b)) as [items'|] eqn:Ha.
  - intros [= <-]. simpl.
    destruct (assign_item_Some _ _ _ _ Ha) as (Hkeys & Hfind & Hother).
    split_and!; [done..| | |].
    + intros k. rewrite Hkeys. split; [by right|]. intros [->|?]; [|done].
      rewrite <-Hkeys. by eapply find_item_Some_elem.
    + by rewrite Hkeys.
    + by rewrite <-(length_fmap fst items'), Hkeys, length_fmap.
  - apply assign_item_None in Ha.
    destruct (_ =? _) eqn:Hfull; [done|].
    apply Z.eqb_neq in Hfull. intros [= <-]. simpl.
    split_and!; [done|done| | | | |].
    + by apply find_item_snoc_eq.
    + intros k Hne. by apply find_item_snoc_ne.
    + intros k. rewrite fmap_app, elem_of_app. simpl.
      rewrite list_elem_of_singleton. naive_solver.
    + intros Hnd. rewrite fmap_app. apply NoDup_app. split_and!; [done| |].
      * intros k Hk ->%list_elem_of_singleton. done.
      * apply NoDup_singleton.
    + rewrite length_app. simpl. lia.
Qed.

Lemma Bucket_Remove_spec key b :
  let b' := (Bucket_Remove key b).2 in
  size_ b' = size_ b ∧ depth_ b' = depth_ b ∧
  (list_ b').*1 ⊆ (list_ b).*1 ∧
  (length (list_ b') ≤ length (list_ b))%nat ∧
  (NoDup (list_ b).*1 →
   NoDup (list_ b').*1 ∧ find_item key (list_ b') = None) ∧
  (∀ k, k ≠ key → find_item k (list_ b') = find_item k (list_ b)).
Proof.
  unfold Bucket_Remove.
  destruct (erase_item key (list_ b)) as [items'|] eqn:He; simpl.
  - destruct (erase_item_Some _ _ _ He) as (Hsub & Hlen & Hnd & Hother).
    split_and!; [done|done| |done..].
    intros k ([k' v] & -> & Hin)%list_elem_of_fmap.
    apply list_elem_of_fmap. exists (k', v). split; [done|]. by apply Hsub.
  - apply erase_item_None in He. split_and!; [done..| |done].
    intros Hnd. split; [done|]. by apply find_item_None.
Qed.

Lemma bucket_at_put_bucket t a b' index :
  bucket_at (put_bucket a b' t) index =
  match bucket_at t index with
  | Some (a0, b0) => Some (a0, if decide (a0 = a) then b' else b0)
  | None => None
  end.
Proof.
  unfold bucket_at. simpl. destruct (index <? 0); [done|].
  destruct (dir_ t !! Z.to_nat index) as [[a0|]|]; [|done..].
  destruct (decide (a0 = a)) as [->|Hne].
  - destruct (buckets t !! a) as [b0|] eqn:Hb.
    + rewrite decide_True by done.
      rewrite list_lookup_insert_eq; [done|]. by eapply lookup_lt_Some.
    + rewrite list_insert_ge; [by rewrite Hb|]. by apply lookup_ge_None.
  - rewrite list_lookup_insert_ne by done.
    destruct (buckets t !! a0); [|done]. by rewrite decide_False.
Qed.

(** Replacing a bucket by one of the same depth and capacity whose keys
    are routed to it. *)
Lemma wf_put_bucket t a b b' :
  wf hash t → buckets t !! a = Some b →
  size_ b' = size_ b → depth_ b' = depth_ b →
  Z.of_nat (length (list_ b')) <= size_ b →
  NoDup (list_ b').*1 →
  (∀ i k, dir_ t !! i = Some (Some a) → k ∈ (list_ b').*1 →
          hash k mod 2 ^ depth_ b = Z.of_nat i mod 2 ^ depth_ b) →
  wf hash (put_bucket a b' t).
Proof.
  intros Hwf Hb Hsize Hdepth Hlen Hnd Hroute.
  assert (a < length (buckets t))%nat as Ha by by eapply lookup_lt_Some.
  destruct (wf_bucket _ _ Hwf _ _ Hb) as (Hd & Hs & _ & _).
  assert (∀ c bc, <[a := b']> (buckets t) !! c = Some bc →
            (c = a ∧ bc = b') ∨ (c ≠ a ∧ buckets t !! c = Some bc)) as Hcases.
  { intros c bc. destruct (decide (c = a)) as [->|Hne].
    - rewrite list_lookup_insert_eq by done. naive_solver.
    - rewrite list_lookup_insert_ne by done. naive_solver. }
  split; simpl; try apply Hwf.
  - intros i slot Hslot.
    destruct (wf_slot _ _ Hwf _ _ Hslot) as (c & bc & -> & Hc).
    destruct (decide (c = a)) as [->|Hne].
    + exists a, b'. by rewrite list_lookup_insert_eq.
    + exists c, bc. by rewrite list_lookup_insert_ne.
  - intros c bc [[-> ->]|[Hne Hc]]%Hcases.
    + split_and!; [lia..|done].
    + by apply (wf_bucket _ _ Hwf c).
  - intros i c bc k Hi [[-> ->]|[Hne Hc]]%Hcases Hk.
    + rewrite Hdepth. by apply Hroute.
    + by apply (wf_route _ _ Hwf i c).
  - intros i j c bc Hi Hj [[-> ->]|[Hne Hc]]%Hcases.
    + rewrite Hdepth. by apply (wf_share _ _ Hwf i j a).
    + by apply (wf_share _ _ Hwf i j c).
Qed.

Lemma Find_put_bucket t a b b' key :
  wf hash t → wf hash (put_bucket a b' t) → buckets t !! a = Some b →
  Find hash (put_bucket a b' t) key =
  match bucket_at t (IndexOf hash t key) with
  | Some (a0, b0) => find_item key (list_ (if decide (a0 = a) then b' else b0))
  | None => None
  end.
Proof.
  intros Hwf Hwf' Hb.
  destruct (wf_bucket_of t key Hwf) as (a0 & b0 & Hat). rewrite Hat.
  apply (Find_bucket _ _ a0); [done|].
  change (IndexOf hash (put_bucket a b' t) key) with (IndexOf hash t key).
  by rewrite bucket_at_put_bucket, Hat.
Qed.


Lemma route_of_target t key a b i :
  wf hash t → bucket_at t (IndexOf hash t key) = Some (a, b) →
  dir_ t !! i = Some (Some a) →
  hash key mod 2 ^ depth_ b = Z.of_nat i mod 2 ^ depth_ b.
Proof.
  intros Hwf (Hidx & Hslot & Hb)%bucket_at_Some Hi.
  destruct (wf_bucket _ _ Hwf _ _ Hb) as (Hd & _).
  rewrite (wf_share _ _ Hwf i _ a b Hi Hslot Hb).
  rewrite Z2Nat.id by done.
  rewrite IndexOf_mod by apply Hwf.
  symmetry. apply mod_pow2_mod. lia.
Qed.

Lemma wf_insert_done t key value a b b' :
  wf hash t → bucket_at t (IndexOf hash t key) = Some (a, b) →
  Bucket_Insert key value b = (true, b') →
  wf hash (put_bucket a b' t) ∧
  (∀ k, Find hash (put_bucket a b' t) k =
        if decide (k = key) then Some value else Find hash t k) ∧
  (∀ k, stored (put_bucket a b' t) k → k = key ∨ stored t k).
Proof.
  intros Hwf Hat Hins.
  pose proof Hat as (Hidx & Hslot & Hb)%bucket_at_Some.
  destruct (Bucket_Insert_true _ _ _ _ Hins)
    as (Hsize & Hdepth & Hfind & Hother & Hkeys & Hnd & Hlen).
  destruct (wf_bucket _ _ Hwf _ _ Hb) as (Hd & Hs & Hl & Hn).
  assert (wf hash (put_bucket a b' t)) as Hwf'.
  { apply (wf_put_bucket t a b b'); auto; [lia|].
    intros i k Hi [->|Hk]%Hkeys.
    - by apply (route_of_target t key a b i).
    - by apply (wf_route _ _ Hwf i a b). }
  split_and!; [done| |].
  - intros k. rewrite (Find_put_bucket t a b b') by done.
    destruct (decide (k = key)) as [->|Hne].
    + rewrite Hat. by rewrite decide_True.
    + destruct (wf_bucket_of t k Hwf) as (a0 & b0 & Hat0).
      rewrite Hat0, (Find_bucket t k a0 b0) by done.
      destruct (decide (a0 = a)) as [->|]; [|done].
      apply bucket_at_Some in Hat0 as (_ & _ & Hb0).
      assert (b0 = b) as -> by congruence. by apply Hother.
  - intros k (c & bc & Hc & Hk). simpl in Hc.
    destruct (decide (c = a)) as [->|Hne].
    + rewrite list_lookup_insert_eq in Hc by by eapply lookup_lt_Some.
      injection Hc as <-. apply Hkeys in Hk as [->|Hk]; [by left|].
      right. by exists a, b.
    + rewrite list_lookup_insert_ne in Hc by done. right. by exists c, bc.
Qed.

Lemma table_wf_Remove t key :
  wf hash t →
  wf hash (Remove hash t key).2 ∧
  (∀ k, Find hash (Remove hash t key).2 k =
        if decide (k = key) then None else Find hash t k) ∧
  (∀ k, stored (Remove hash t key).2 k → stored t k).
Proof.
  intros Hwf.
  destruct (wf_bucket_of t key Hwf) as (a & b & Hat).
  pose proof Hat as (Hidx & Hslot & Hb)%bucket_at_Some.
  unfold Remove. rewrite (Remove_path_bucket t key a b) by done.
  destruct (Bucket_Remove key b) as [found b'] eqn:Hrem. simpl.
  pose proof (Bucket_Remove_spec key b) as Hspec. rewrite Hrem in Hspec.
  simpl in Hspec.
  destruct Hspec as (Hsize & Hdepth & Hsub & Hlen & Hnd & Hother).
  destruct (wf_bucket _ _ Hwf _ _ Hb) as (Hd & Hs & Hl & Hn).
  destruct (Hnd Hn) as [Hnd' Hgone].
  assert (wf hash (put_bucket a b' t)) as Hwf'.
  { apply (wf_put_bucket t a b b'); auto; [lia|].
    intros i k Hi Hk%Hsub. by apply (wf_route _ _ Hwf i a b). }
  split_and!; [done| |].
  - intros k. rewrite (Find_put_bucket t a b b') by done.
    destruct (decide (k = key)) as [->|Hne].
    + rewrite Hat. by rewrite decide_True.
    + destruct (wf_bucket_of t k Hwf) as (a0 & b0 & Hat0).
      rewrite Hat0, (Find_bucket t k a0 b0) by done.
      destruct (decide (a0 = a)) as [->|]; [|done].
      apply bucket_at_Some in Hat0 as (_ & _ & Hb0).
      assert (b0 = b) as -> by congruence. by apply Hother.
  - intros k (c & bc & Hc & Hk). simpl in Hc.
    destruct (decide (c = a)) as [->|Hne].
    + rewrite list_lookup_insert_eq in Hc by by eapply lookup_lt_Some.
      injection Hc as <-. exists a, b. split; [done|]. by apply Hsub.
    + rewrite list_lookup_insert_ne in Hc by done. by exists c, bc.
Qed.

(** ** Doubling keeps the routing *)

Lemma lookup_double {A} (d : list A) (i : nat) :
  (i < 2 * length d)%nat →
  (d ++ d) !! i = d !! (i `mod` length d)%nat.
Proof.
  intros Hi. destruct (decide (i < length d)%nat) as [Hlt|Hge].
  - rewrite lookup_app_l by done. by rewrite Nat.mod_small.
  - rewrite lookup_app_r by lia. f_equal.
    rewrite <-(Nat.mod_small (i - length d) (length d)) by lia.
    rewrite <-(Nat.Div0.mod_add (i - length d) 1 (length d)).
    f_equal. lia.
Qed.

Lemma wf_ExpandTable t :
  wf hash t → global_depth_ t < 30 →
  wf hash (ExpandTable t) ∧
  global_depth_ (ExpandTable t) = global_depth_ t + 1 ∧
  buckets (ExpandTable t) = buckets t ∧
  (∀ key, bucket_at (ExpandTable t) (IndexOf hash (ExpandTable t) key)
          = bucket_at t (IndexOf hash t key)).
Proof.
  intros Hwf Hlt.
  pose proof (wf_depth _ _ Hwf) as Hd.
  pose proof (wf_length _ _ Hwf) as Hlen.
  assert (0 < 2 ^ global_depth_ t) as Hpos by (apply Z.pow_pos_nonneg; lia).
  assert (global_depth_ (ExpandTable t) = global_depth_ t + 1) as Hgd.
  { simpl. apply to_int_small. lia. }
  assert (2 ^ (global_depth_ t + 1) = 2 * 2 ^ global_depth_ t) as Hpow.
  { rewrite Z.pow_add_r by lia. lia. }
  assert (∀ i slot, dir_ (ExpandTable t) !! i = Some slot →
            dir_ t !! (i `mod` length (dir_ t))%nat = Some slot ∧
            (i < 2 * length (dir_ t))%nat) as Hslot.
  { intros i slot. rewrite ExpandTable_dir. intros Hi.
    pose proof (lookup_lt_Some _ _ _ Hi) as Hlt'. rewrite length_app in Hlt'.
    rewrite lookup_double in Hi by lia. split; [done | lia]. }
  assert (∀ i d, 0 <= d <= global_depth_ t →
            Z.of_nat (i `mod` length (dir_ t)) mod 2 ^ d = Z.of_nat i mod 2 ^ d)
    as Hmod.
  { intros i d Hd'. rewrite Nat2Z.inj_mod, Hlen. by apply mod_pow2_mod. }
  assert (wf hash (ExpandTable t)) as Hwf'.
  { split.
    - lia.
    - apply Hwf.
    - rewrite Hgd, Hpow, ExpandTable_dir, length_app. lia.
    - intros i slot [Hi _]%Hslot. by apply (wf_slot _ _ Hwf _ _ Hi).
    - intros a b Hb. destruct (wf_bucket _ _ Hwf a b Hb) as (? & ? & ? & ?).
      rewrite Hgd. change (bucket_size_ (ExpandTable t)) with (bucket_size_ t).
      split_and!; [lia..|done].
    - intros i a b key [Hi _]%Hslot Hb Hk.
      destruct (wf_bucket _ _ Hwf a b Hb) as (? & _).
      rewrite (wf_route _ _ Hwf _ a b key Hi Hb Hk). by apply Hmod.
    - intros i j a b [Hi _]%Hslot [Hj _]%Hslot Hb.
      destruct (wf_bucket _ _ Hwf a b Hb) as (? & _).
      rewrite <-(Hmod i (depth_ b)), <-(Hmod j (depth_ b)) by done.
      by apply (wf_share _ _ Hwf _ _ a b). }
  split_and!; [done..|].
  intros key. pose proof (IndexOf_range _ key Hwf') as Hr.
  rewrite ExpandTable_dir, length_app in Hr.
  unfold bucket_at at 1.
  destruct (_ <? 0) eqn:Hneg; [apply Z.ltb_lt in Hneg; lia|].
  rewrite ExpandTable_dir, lookup_double by lia.
  replace (Z.to_nat (IndexOf hash (ExpandTable t) key) `mod` length (dir_ t))%nat
    with (Z.to_nat (IndexOf hash t key)).
  { unfold bucket_at. pose proof (IndexOf_range _ key Hwf).
    by rewrite (proj2 (Z.ltb_ge (IndexOf hash t key) 0)) by lia. }
  pose proof (IndexOf_range _ key Hwf).
  apply Nat2Z.inj. rewrite Nat2Z.inj_mod, Hlen, !Z2Nat.id by lia.
  rewrite !IndexOf_mod by (rewrite ?Hgd; lia).
  rewrite Hgd. symmetry. apply mod_pow2_mod. lia.
Qed.


(** ** Splitting a bucket *)

Lemma with_items_same b : with_items (list_ b) b = b.
Proof. by destruct b. Qed.

Lemma split_items_spec t bit (P : K → bool) items b :
  (∀ k, k ∈ items.*1 →
        (Z.land (IndexOf hash t k) bit =? 0) = negb (P k)) →
  NoDup (list_ b ++ items).*1 →
  Z.of_nat (length (list_ b) + length items) <= size_ b →
  split_items hash t bit items b =
    (filter (λ kv, P kv.1 = false) items,
     with_items (list_ b ++ filter (λ kv, P kv.1 = true) items) b).
Proof.
  revert b. induction items as [|[k v] items IH]; intros b Htest Hnd Hlen.
  - simpl. by rewrite app_nil_r, with_items_same.
  - simpl. rewrite Htest by (rewrite fmap_cons; left).
    assert (∀ k', k' ∈ items.*1 →
              (Z.land (IndexOf hash t k') bit =? 0) = negb (P k')) as Htest'.
    { intros k' Hk'. apply Htest. rewrite fmap_cons. by right. }
    rewrite fmap_app, fmap_cons in Hnd. simpl in Hnd.
    apply NoDup_app in Hnd as (Hnb & Hdisj & [Hk Hitems]%NoDup_cons).
    simpl in Hlen.
    destruct (P k) eqn:HP; simpl.
    + assert (Bucket_Insert k v b
              = (true, with_items (list_ b ++ [(k, v)]) b)) as ->.
      { unfold Bucket_Insert, IsFull.
        assert (assign_item k v (list_ b) = None) as ->.
        { apply assign_item_None. intros Hin. by apply (Hdisj k Hin); left. }
        destruct (_ =? _) eqn:Hfull; [|done].
        apply Z.eqb_eq in Hfull. lia. }
      cbn [snd]. rewrite IH; cbn [list_ with_items size_].
      * rewrite filter_cons_False by (simpl; congruence).
        rewrite filter_cons_True by done.
        by rewrite <-app_assoc.
      * done.
      * rewrite <-app_assoc, fmap_app. simpl.
        apply NoDup_app. split_and!; [done|done|by apply NoDup_cons].
      * rewrite length_app. simpl. lia.
    + rewrite IH.
      * rewrite filter_cons_True by done.
        by rewrite filter_cons_False by (simpl; congruence).
      * done.
      * rewrite fmap_app. apply NoDup_app. split_and!; [done| |done].
        intros k' Hk' Hin. apply (Hdisj k' Hk'). by right.
      * lia.
Qed.

Lemma repoint_testbit a a' d (i : nat) slot :
  0 <= d →
  repoint a a' (d + 1) i slot =
  if decide (slot = Some a)
  then if Z.testbit (Z.of_nat i) d then Some a' else slot
  else slot.
Proof.
  intros Hd. unfold repoint. replace (d + 1 - 1) with d by lia.
  rewrite shiftr_land_1_eq_0 by done.
  by destruct (Z.testbit (Z.of_nat i) d).
Qed.

(** The table a split leaves behind, in terms of bit [depth_ b0] of the
    hash values. *)
Lemma SplitBucket_eq t a b0 :
  wf hash t → buckets t !! a = Some b0 → depth_ b0 < global_depth_ t →
  SplitBucket hash a t =
  {| global_depth_ := global_depth_ t;
     bucket_size_ := bucket_size_ t;
     num_buckets_ := to_int (num_buckets_ t + 1);
     dir_ := imap (repoint a (length (buckets t)) (depth_ b0 + 1)) (dir_ t);
     buckets :=
       <[a := {| size_ := size_ b0; depth_ := depth_ b0 + 1;
                 list_ := filter (λ kv, Z.testbit (hash kv.1) (depth_ b0) = false)
                            (list_ b0) |}]> (buckets t)
       ++ [{| size_ := bucket_size_ t; depth_ := depth_ b0 + 1;
              list_ := filter (λ kv, Z.testbit (hash kv.1) (depth_ b0) = true)
                         (list_ b0) |}] |}.
Proof.
  intros Hwf Hb Hlt.
  destruct (wf_bucket _ _ Hwf _ _ Hb) as (Hd & Hs & Hl & Hn).
  pose proof (wf_depth _ _ Hwf) as Hgd.
  unfold SplitBucket. rewrite Hb. unfold GetDepth, GetItems. simpl.
  rewrite (to_int_small (depth_ b0 + 1)) by lia.
  replace (depth_ b0 + 1 - 1) with (depth_ b0) by lia.
  rewrite split_bit by lia.
  rewrite (split_items_spec t _ (λ k, Z.testbit (hash k) (depth_ b0))).
  - unfold with_items, IncrementDepth, Bucket_new. simpl.
    by rewrite (to_int_small (depth_ b0 + 1)) by lia.
  - intros k _. rewrite land_pow2_eq_0 by lia.
    rewrite IndexOf_mod by done. by rewrite testbit_mod_pow2 by lia.
  - done.
  - simpl. lia.
Qed.


Lemma mod_pow2_step x y d :
  0 <= d → x mod 2 ^ d = y mod 2 ^ d → Z.testbit x d = Z.testbit y d →
  x mod 2 ^ (d + 1) = y mod 2 ^ (d + 1).
Proof.
  intros Hd Hmod Hbit. rewrite !mod_pow2_succ by done.
  by rewrite Hmod, Hbit.
Qed.

Lemma bucket_at_SplitBucket t a b0 index c bc :
  wf hash t → buckets t !! a = Some b0 → depth_ b0 < global_depth_ t →
  bucket_at t index = Some (c, bc) →
  ∃ c' bc', bucket_at (SplitBucket hash a t) index = Some (c', bc') ∧
    if decide (c = a)
    then depth_ bc' = depth_ b0 + 1 ∧
         list_ bc' = filter (λ kv, Z.testbit (hash kv.1) (depth_ b0)
                                   = Z.testbit index (depth_ b0)) (list_ b0)
    else c' = c ∧ bc' = bc.
Proof.
  intros Hwf Hb Hlt (Hidx & Hslot & Hc)%bucket_at_Some.
  destruct (wf_bucket _ _ Hwf _ _ Hb) as (Hd & _).
  assert (a < length (buckets t))%nat as Ha by by eapply lookup_lt_Some.
  rewrite (SplitBucket_eq t a b0) by done.
  unfold bucket_at. simpl.
  rewrite (proj2 (Z.ltb_ge index 0)) by done.
  rewrite list_lookup_imap, Hslot. simpl.
  rewrite repoint_testbit by lia. rewrite Z2Nat.id by done.
  destruct (decide (c = a)) as [->|Hne].
  - rewrite decide_True by done.
    destruct (Z.testbit index (depth_ b0)) eqn:Hbit.
    + rewrite lookup_app_r by (rewrite length_insert; lia).
      rewrite length_insert, Nat.sub_diag. simpl. eauto.
    + rewrite lookup_app_l by (rewrite length_insert; lia).
      rewrite list_lookup_insert_eq by done. eauto.
  - rewrite decide_False by congruence.
    assert (c < length (buckets t))%nat by by eapply lookup_lt_Some.
    rewrite lookup_app_l by (rewrite length_insert; lia).
    rewrite list_lookup_insert_ne by done. rewrite Hc. eauto.
Qed.

Lemma wf_SplitBucket t a b0 :
  wf hash t → buckets t !! a = Some b0 → depth_ b0 < global_depth_ t →
  wf hash (SplitBucket hash a t) ∧
  (∀ k, stored (SplitBucket hash a t) k → stored t k).
Proof.
  intros Hwf Hb Hlt.
  destruct (wf_bucket _ _ Hwf _ _ Hb) as (Hd & Hs & Hl & Hn).
  pose proof (wf_depth _ _ Hwf) as Hgd.
  assert (a < length (buckets t))%nat as Ha by by eapply lookup_lt_Some.
  rewrite (SplitBucket_eq t a b0) by done.
  set (d := depth_ b0) in *.
  remember (length (buckets t)) as a' eqn:Ha'.
  set (ba := {| size_ := size_ b0; depth_ := d + 1;
                list_ := filter (λ kv, Z.testbit (hash kv.1) d = false)
                           (list_ b0) |}).
  set (bn := {| size_ := bucket_size_ t; depth_ := d + 1;
                list_ := filter (λ kv, Z.testbit (hash kv.1) d = true)
                           (list_ b0) |}).
  assert (∀ c bc, (<[a := ba]> (buckets t) ++ [bn]) !! c = Some bc →
            (c = a ∧ bc = ba) ∨ (c = a' ∧ bc = bn) ∨
            (c ≠ a ∧ c ≠ a' ∧ buckets t !! c = Some bc)) as Hbk.
  { intros c bc Hc. destruct (decide (c < a')%nat) as [Hin|Hout].
    - rewrite lookup_app_l in Hc by (rewrite length_insert; lia).
      destruct (decide (c = a)) as [->|Hne].
      + rewrite list_lookup_insert_eq in Hc by lia. left. naive_solver.
      + rewrite list_lookup_insert_ne in Hc by done. right. right.
        split_and!; [done| lia |done].
    - rewrite lookup_app_r in Hc by (rewrite length_insert; lia).
      rewrite length_insert in Hc.
      destruct (c - length (buckets t))%nat as [|n] eqn:Hn'; simpl in Hc.
      + right. left. split; [lia | congruence].
      + rewrite lookup_nil in Hc. done. }
  assert (∀ i c,
    imap (repoint a a' (d + 1)) (dir_ t) !! i = Some (Some c) →
    (c = a' ∧ dir_ t !! i = Some (Some a) ∧ Z.testbit (Z.of_nat i) d = true) ∨
    (c ≠ a' ∧ dir_ t !! i = Some (Some c) ∧
       (c = a → Z.testbit (Z.of_nat i) d = false))) as Hdir.
  { intros i c. rewrite list_lookup_imap.
    destruct (dir_ t !! i) as [slot|] eqn:Hslot; simpl; [|done].
    destruct (wf_slot _ _ Hwf _ _ Hslot) as (c0 & bc0 & -> & Hc0).
    assert (c0 < a')%nat by (rewrite Ha'; by eapply lookup_lt_Some).
    rewrite repoint_testbit by lia.
    destruct (decide (Some c0 = Some a)) as [[= ->]|Hne].
    - destruct (Z.testbit (Z.of_nat i) d) eqn:Hbit.
      + intros [= <-]. by left.
      + intros [= <-]. right. split_and!; [lia|done..].
    - intros [= <-]. right. split_and!; [lia|done|congruence]. }
  assert (∀ k, k ∈ (list_ ba).*1 →
            k ∈ (list_ b0).*1 ∧ Z.testbit (hash k) d = false) as Hka.
  { intros k ([k' v] & -> & [Hbit Hin]%list_elem_of_filter)%list_elem_of_fmap.
    split; [|done]. apply list_elem_of_fmap. by exists (k', v). }
  assert (∀ k, k ∈ (list_ bn).*1 →
            k ∈ (list_ b0).*1 ∧ Z.testbit (hash k) d = true) as Hkn.
  { intros k ([k' v] & -> & [Hbit Hin]%list_elem_of_filter)%list_elem_of_fmap.
    split; [|done]. apply list_elem_of_fmap. by exists (k', v). }
  split; [split; simpl|].
  - done.
  - apply Hwf.
  - rewrite length_imap. apply Hwf.
  - intros i slot. rewrite list_lookup_imap.
    destruct (dir_ t !! i) as [slot0|] eqn:Hslot; simpl; [|done].
    destruct (wf_slot _ _ Hwf _ _ Hslot) as (c0 & bc0 & -> & Hc0).
    assert (c0 < a')%nat by (rewrite Ha'; by eapply lookup_lt_Some).
    rewrite repoint_testbit by lia. intros [= <-].
    destruct (decide (Some c0 = Some a)) as [[= ->]|Hne].
    + destruct (Z.testbit (Z.of_nat i) d).
      * exists a', bn. split; [done|].
        rewrite lookup_app_r by (rewrite length_insert; lia).
        by rewrite length_insert, Ha', Nat.sub_diag.
      * exists a, ba. split; [done|].
        rewrite lookup_app_l by (rewrite length_insert; lia).
        by rewrite list_lookup_insert_eq by lia.
    + exists c0, bc0. split; [done|].
      rewrite lookup_app_l by (rewrite length_insert; lia).
      rewrite list_lookup_insert_ne by congruence. done.
  - intros c bc [[-> ->]|[[Hca ->]|(? & ? & Hc)]]%Hbk.
    + simpl. split_and!; [lia..| |by apply NoDup_filter_keys].
      pose proof (length_filter (λ kv : K * V, Z.testbit (hash kv.1) d = false)
                    (list_ b0)). lia.
    + simpl. split_and!; [lia..| |by apply NoDup_filter_keys].
      pose proof (length_filter (λ kv : K * V, Z.testbit (hash kv.1) d = true)
                    (list_ b0)). lia.
    + by apply (wf_bucket _ _ Hwf c).
  - intros i c bc k Hi Hc Hk.
    apply Hdir in Hi as [(Hca & Hi & Hbit)|(Hne & Hi & Hbit)];
      apply Hbk in Hc as [[Hcb Hbc]|[[Hcb Hbc]|(? & ? & Hc)]];
      try lia; subst.
    + apply Hkn in Hk as [Hk Hkbit]. simpl.
      apply mod_pow2_step; [lia| |congruence].
      by apply (wf_route _ _ Hwf i a b0).
    + apply Hka in Hk as [Hk Hkbit]. simpl.
      apply mod_pow2_step; [lia| |rewrite Hbit; done].
      by apply (wf_route _ _ Hwf i a b0).
    + by apply (wf_route _ _ Hwf i c bc).
  - intros i j c bc Hi Hj Hc.
    apply Hdir in Hi as [(Hca & Hi & Hbi)|(Hne & Hi & Hbi)];
      apply Hdir in Hj as [(Hcj & Hj & Hbj)|(Hnej & Hj & Hbj)]; try lia;
      apply Hbk in Hc as [[Hcb Hbc]|[[Hcb Hbc]|(? & ? & Hc)]];
      try lia; subst.
    + simpl. apply mod_pow2_step; [lia| |congruence].
      by apply (wf_share _ _ Hwf i j a b0).
    + simpl. apply mod_pow2_step; [lia| |rewrite Hbi, Hbj; done].
      by apply (wf_share _ _ Hwf i j a b0).
    + by apply (wf_share _ _ Hwf i j c bc).
  - intros k (c & bc & Hc & Hk). simpl in Hc.
    apply Hbk in Hc as [[-> ->]|[[Hca ->]|(? & ? & Hc)]].
    + exists a, b0. split; [done|]. by apply Hka.
    + exists a, b0. split; [done|]. by apply Hkn.
    + by exists c, bc.
Qed.


Lemma SplitBucket_global_depth t a :
  global_depth_ (SplitBucket hash a t) = global_depth_ t.
Proof.
  unfold SplitBucket. destruct (buckets t !! a); [|done].
  by destruct (split_items _ _ _ _ _).
Qed.

Lemma SplitBucket_bucket_size t a :
  bucket_size_ (SplitBucket hash a t) = bucket_size_ t.
Proof.
  unfold SplitBucket. destruct (buckets t !! a); [|done].
  by destruct (split_items _ _ _ _ _).
Qed.

Lemma SplitBucket_dir_length t a :
  length (dir_ (SplitBucket hash a t)) = length (dir_ t).
Proof.
  unfold SplitBucket. destruct (buckets t !! a); [|done].
  destruct (split_items _ _ _ _ _). simpl. apply length_imap.
Qed.

Lemma SplitBucket_IndexOf t a key :
  IndexOf hash (SplitBucket hash a t) key = IndexOf hash t key.
Proof. unfold IndexOf. by rewrite SplitBucket_global_depth. Qed.

Lemma Find_SplitBucket t a b0 key :
  wf hash t → buckets t !! a = Some b0 → depth_ b0 < global_depth_ t →
  Find hash (SplitBucket hash a t) key = Find hash t key.
Proof.
  intros Hwf Hb Hlt.
  destruct (wf_SplitBucket t a b0 Hwf Hb Hlt) as [Hwf' _].
  destruct (wf_bucket _ _ Hwf _ _ Hb) as (Hd & _).
  destruct (wf_bucket_of t key Hwf) as (c & bc & Hat).
  destruct (bucket_at_SplitBucket t a b0 _ c bc Hwf Hb Hlt Hat)
    as (c' & bc' & Hat' & Hspec).
  rewrite (Find_bucket _ key c' bc' Hwf')
    by by rewrite SplitBucket_IndexOf.
  rewrite (Find_bucket t key c bc) by done.
  destruct (decide (c = a)) as [->|Hne].
  - destruct Hspec as [_ ->].
    apply bucket_at_Some in Hat as (_ & _ & Hc).
    assert (bc = b0) as -> by congruence.
    pose proof (find_item_filter
                  (λ k, Z.testbit (hash k) (depth_ b0)
                        = Z.testbit (IndexOf hash t key) (depth_ b0))
                  key (list_ b0)) as Hfilter.
    cbv beta in Hfilter. rewrite Hfilter.
    rewrite decide_True; [done|].
    rewrite IndexOf_mod by apply Hwf. by rewrite testbit_mod_pow2 by lia.
  - by destruct Hspec as [_ ->].
Qed.

(** ** The loop of [Insert] *)

Lemma Insert_loop_unfold fuel key value t index :
  Insert_loop hash fuel key value t index =
  match bucket_at t index with
  | None => None
  | Some (a, b) =>
      let '(ok, b') := Bucket_Insert key value b in
      if ok then Some (put_bucket a b' t)
      else
        match fuel with
        | O => None
        | S fuel' =>
            let '(t1, index1) :=
              if GetDepth b =? global_depth_ t
              then (ExpandTable t, IndexOf hash (ExpandTable t) key)
              else (t, index) in
            match bucket_at t1 index1 with
            | None => None
            | Some (a1, _) =>
                Insert_loop hash fuel' key value (SplitBucket hash a1 t1) index1
            end
        end
  end.
Proof. by destruct fuel. Qed.

Lemma Insert_loop_dir_length fuel key value t index t' :
  Insert_loop hash fuel key value t index = Some t' →
  (length (dir_ t) ≤ length (dir_ t'))%nat.
Proof.
  revert t index. induction fuel as [|fuel IH]; intros t index;
    rewrite Insert_loop_unfold;
    (destruct (bucket_at t index) as [[a b]|]; [|done]);
    (destruct (Bucket_Insert key value b) as [[] b']);
    try done; try (by intros [= <-]).
  destruct (GetDepth b =? global_depth_ t).
  - destruct (bucket_at _ _) as [[a1 b1]|]; [|done].
    intros Hloop%IH. rewrite SplitBucket_dir_length in Hloop.
    rewrite ExpandTable_dir, length_app in Hloop. lia.
  - destruct (bucket_at _ _) as [[a1 b1]|]; [|done].
    intros Hloop%IH. by rewrite SplitBucket_dir_length in Hloop.
Qed.

(** One round of the loop: the table before the split, and what is known
    of it. *)
Lemma Insert_round t key a b :
  wf hash t → bucket_at t (IndexOf hash t key) = Some (a, b) →
  (GetDepth b = global_depth_ t → global_depth_ t < 30) →
  let '(t1, index1) :=
    if GetDepth b =? global_depth_ t
    then (ExpandTable t, IndexOf hash (ExpandTable t) key)
    else (t, IndexOf hash t key) in
  wf hash t1 ∧ index1 = IndexOf hash t1 key ∧
  bucket_at t1 index1 = Some (a, b) ∧
  depth_ b < global_depth_ t1 ∧
  global_depth_ t1 <= Z.max (global_depth_ t) (depth_ b + 1) ∧
  buckets t1 = buckets t ∧ bucket_size_ t1 = bucket_size_ t ∧
  (∀ k, Find hash t1 k = Find hash t k).
Proof.
  intros Hwf Hat Hroom.
  pose proof Hat as (_ & _ & Hb)%bucket_at_Some.
  destruct (wf_bucket _ _ Hwf _ _ Hb) as (Hd & _).
  unfold GetDepth in *.
  destruct (depth_ b =? global_depth_ t) eqn:Heq.
  - apply Z.eqb_eq in Heq.
    destruct (wf_ExpandTable t Hwf (Hroom Heq)) as (Hwf1 & Hgd & Hbk & Hsame).
    split_and!; [done|done|by rewrite Hsame|lia|lia|done|done|].
    intros k. destruct (wf_bucket_of t k Hwf) as (c & bc & Hc).
    rewrite (Find_bucket t k c bc) by done.
    apply (Find_bucket _ k c); [done|]. by rewrite Hsame.
  - apply Z.eqb_neq in Heq. split_and!; try done; lia.
Qed.

Lemma Insert_loop_spec fuel key value t t' :
  wf hash t →
  Insert_loop hash fuel key value t (IndexOf hash t key) = Some t' →
  Z.of_nat (length (dir_ t')) <= 2 ^ 30 →
  wf hash t' ∧
  (∀ k, Find hash t' k =
        if decide (k = key) then Some value else Find hash t k) ∧
  (∀ k, stored t' k → k = key ∨ stored t k).
Proof.
  revert t. induction fuel as [|fuel IH]; intros t Hwf;
    rewrite Insert_loop_unfold;
    destruct (wf_bucket_of t key Hwf) as (a & b & Hat); rewrite Hat;
    (destruct (Bucket_Insert key value b) as [[] b'] eqn:Hins);
    try done;
    try (intros [= <-] _; by apply (wf_insert_done t key value a b b')).
  intros Hloop Hbound.
  assert (GetDepth b = global_depth_ t → global_depth_ t < 30) as Hroom.
  { intros Heq. apply Z.eqb_eq in Heq. rewrite Heq in Hloop.
    cbv iota beta in Hloop. revert Hloop.
    destruct (bucket_at (ExpandTable t) _) as [[a1 b1]|]; [|done].
    intros Hloop%Insert_loop_dir_length.
    rewrite SplitBucket_dir_length, ExpandTable_dir, length_app in Hloop.
    pose proof (wf_length _ _ Hwf) as Hlen.
    pose proof (wf_depth _ _ Hwf) as Hgd.
    destruct (decide (global_depth_ t < 30)) as [|Hge]; [done|].
    assert (global_depth_ t = 30) as H30 by lia.
    rewrite H30 in Hlen. lia. }
  pose proof (Insert_round t key a b Hwf Hat Hroom) as Hround.
  revert Hround Hloop.
  destruct (if GetDepth b =? global_depth_ t
            then (ExpandTable t, IndexOf hash (ExpandTable t) key)
            else (t, IndexOf hash t key)) as [t1 index1].
  intros (Hwf1 & -> & Hat1 & Hlt & _ & Hbk & _ & Hfind1) Hloop.
  rewrite Hat1 in Hloop.
  pose proof Hat1 as (_ & _ & Hb1)%bucket_at_Some.
  destruct (wf_SplitBucket t1 a b Hwf1 Hb1 Hlt) as [Hwf2 Hstored2].
  rewrite <-(SplitBucket_IndexOf t1 a key) in Hloop.
  destruct (IH _ Hwf2 Hloop Hbound) as (Hwf' & Hfind' & Hstored').
  split_and!; [done| |].
  - intros k. rewrite Hfind'. case_decide; [done|].
    by rewrite (Find_SplitBucket t1 a b), Hfind1.
  - intros k [->|Hk%Hstored2]%Hstored'; [by left|right].
    unfold stored in *. by rewrite <-Hbk.
Qed.


Lemma Insert_spec fuel key value t t' :
  wf hash t → Insert hash fuel key value t = Some t' →
  Z.of_nat (length (dir_ t')) <= 2 ^ 30 →
  wf hash t' ∧
  (∀ k, Find hash t' k =
        if decide (k = key) then Some value else Find hash t k) ∧
  (∀ k, stored t' k → k = key ∨ stored t k).
Proof. apply Insert_loop_spec. Qed.

Lemma Insert_dir_length fuel key value t t' :
  Insert hash fuel key value t = Some t' →
  (length (dir_ t) ≤ length (dir_ t'))%nat.
Proof. apply Insert_loop_dir_length. Qed.

Lemma Remove_dir t key : dir_ (Remove hash t key).2 = dir_ t.
Proof.
  unfold Remove. destruct (Remove_path hash t key); [done..|].
  by destruct (Bucket_Remove key b).
Qed.

(** ** Reachable tables *)

Lemma table_wf_new bucket_size :
  0 <= bucket_size →
  wf hash (ExtendibleHashTable_new bucket_size : @ExtendibleHashTable K V).
Proof.
  intros Hbs. split; simpl; try done.
  - intros [|i] slot; simpl; [|done]. intros [= <-].
    exists 0%nat, (Bucket_new bucket_size 0). done.
  - intros [|a] b; simpl; [|done]. intros [= <-]. simpl.
    split_and!; [done..|lia|apply NoDup_nil_2].
  - intros i [|a] b key _; simpl; [|done]. intros [= <-]. simpl.
    by intros ?%not_elem_of_nil.
  - intros [|i] [|j] a b; simpl; done.
Qed.

Lemma Find_new bucket_size key :
  0 <= bucket_size →
  Find hash (ExtendibleHashTable_new bucket_size : @ExtendibleHashTable K V) key
  = None.
Proof.
  intros Hbs. pose proof (table_wf_new bucket_size Hbs) as Hwf.
  destruct (wf_bucket_of _ key Hwf) as (a & b & Hat).
  rewrite (Find_bucket _ key a b) by done.
  apply bucket_at_Some in Hat as (_ & _ & Hb).
  destruct a as [|a]; simpl in Hb; [|done]. by injection Hb as <-.
Qed.

Lemma table_reachable_wf bucket_size t :
  reachable hash bucket_size t →
  Z.of_nat (length (dir_ t)) <= 2 ^ 30 → wf hash t.
Proof.
  induction 1 as [Hbs|t fuel key value t' _ IH Hins|t key _ IH]; intros Hlen.
  - by apply table_wf_new.
  - pose proof (Insert_dir_length _ _ _ _ _ Hins).
    apply (Insert_spec fuel key value t t'); [apply IH; lia|done..].
  - rewrite Remove_dir in Hlen. by apply table_wf_Remove, IH.
Qed.

Lemma run_dir_length fuel ops t t' :
  run hash fuel ops t = Some t' → (length (dir_ t) ≤ length (dir_ t'))%nat.
Proof.
  revert t. induction ops as [|[key value|key] ops IH]; intros t; simpl.
  - by intros [= <-].
  - destruct (Insert hash fuel key value t) as [t1|] eqn:Hins; [|done].
    intros Hrun%IH. apply Insert_dir_length in Hins. lia.
  - intros Hrun%IH. by rewrite Remove_dir in Hrun.
Qed.

Lemma run_spec fuel ops t t' (m : K → option V) :
  wf hash t → (∀ k, Find hash t k = m k) →
  run hash fuel ops t = Some t' →
  Z.of_nat (length (dir_ t')) <= 2 ^ 30 →
  ∀ k, Find hash t' k = last_inserted ops k (m k).
Proof.
  revert t m. induction ops as [|[key value|key] ops IH];
    intros t m Hwf Hm; simpl.
  - by intros [= <-].
  - destruct (Insert hash fuel key value t) as [t1|] eqn:Hins; [|done].
    intros Hrun Hlen.
    pose proof (run_dir_length _ _ _ _ Hrun).
    destruct (Insert_spec fuel key value t t1 Hwf Hins) as (Hwf1 & Hf1 & _);
      [lia|].
    apply (IH t1 (λ k', if decide (key = k') then Some value else m k'));
      [done| |done..].
    intros k'. rewrite Hf1, Hm. by repeat case_decide.
  - intros Hrun Hlen.
    destruct (table_wf_Remove t key Hwf) as (Hwf1 & Hf1 & _).
    apply (IH (Remove hash t key).2
              (λ k', if decide (key = k') then None else m k'));
      [done| |done..].
    intros k'. rewrite Hf1, Hm. by repeat case_decide.
Qed.

Lemma Insert_loop_bucket_size fuel key value t index t' :
  Insert_loop hash fuel key value t index = Some t' →
  bucket_size_ t' = bucket_size_ t.
Proof.
  revert t index. induction fuel as [|fuel IH]; intros t index;
    rewrite Insert_loop_unfold;
    (destruct (bucket_at t index) as [[a b]|]; [|done]);
    (destruct (Bucket_Insert key value b) as [[] b']);
    try done; try (by intros [= <-]).
  destruct (GetDepth b =? global_depth_ t);
    (destruct (bucket_at _ _) as [[a1 b1]|]; [|done]);
    intros ->%IH; by rewrite SplitBucket_bucket_size.
Qed.

Lemma reachable_bucket_size bucket_size t :
  reachable hash bucket_size t → bucket_size_ t = bucket_size.
Proof.
  induction 1 as [Hbs|t fuel key value t' _ IH Hins|t key _ IH].
  - done.
  - rewrite <-IH. by apply Insert_loop_bucket_size in Hins.
  - rewrite <-IH. unfold Remove.
    destruct (Remove_path hash t key); [done..|].
    by destruct (Bucket_Remove key b).
Qed.

(** ** Termination of the loop of [Insert] *)

Lemma full_bucket_depth (W : Z) key t a b :
  wf hash t → 1 <= bucket_size_ t → 0 <= W →
  bucket_at t (IndexOf hash t key) = Some (a, b) →
  (∀ k, stored t k → k ≠ key →
        hash k mod 2 ^ W ≠ hash key mod 2 ^ W) →
  key ∉ (list_ b).*1 → Z.of_nat (length (list_ b)) = size_ b →
  depth_ b < W.
Proof.
  intros Hwf Hbs HW Hat Hsep Hkey Hfull.
  pose proof Hat as (_ & Hslot & Hb)%bucket_at_Some.
  destruct (wf_bucket _ _ Hwf _ _ Hb) as (Hd & Hs & _ & _).
  destruct (decide (depth_ b < W)) as [|Hge]; [done|exfalso].
  destruct (list_ b) as [|[k v] items] eqn:Hitems; [simpl in Hfull; lia|].
  assert (k ∈ (list_ b).*1) as Hk by (rewrite Hitems, fmap_cons; left).
  apply (Hsep k).
  - by exists a, b.
  - intros ->. apply Hkey. rewrite fmap_cons. left.
  - apply (mod_pow2_le _ _ (depth_ b)); [lia|].
    rewrite (wf_route _ _ Hwf _ a b k Hslot Hb Hk).
    symmetry. by apply (route_of_target t key a b).
Qed.

Lemma Insert_loop_terminates (W : Z) key value (n : nat) t a b :
  wf hash t → 1 <= bucket_size_ t → W <= 30 → global_depth_ t <= W →
  bucket_at t (IndexOf hash t key) = Some (a, b) →
  (∀ k, stored t k → k ≠ key →
        hash k mod 2 ^ W ≠ hash key mod 2 ^ W) →
  W - depth_ b <= Z.of_nat n →
  ∃ t', Insert_loop hash n key value t (IndexOf hash t key) = Some t' ∧
        Z.of_nat (length (dir_ t')) <= 2 ^ W.
Proof.
  revert t a b. induction n as [|n IH];
    intros t a b Hwf Hbs HW Hgd Hat Hsep Hn;
    rewrite Insert_loop_unfold, Hat;
    pose proof (wf_length _ _ Hwf) as Hlen;
    pose proof (wf_depth _ _ Hwf) as Hd0;
    (assert (Z.of_nat (length (dir_ t)) <= 2 ^ W) as Hdir
       by (rewrite Hlen; apply Z.pow_le_mono_r; lia));
    (destruct (Bucket_Insert key value b) as [[] b'] eqn:Hins;
       [by eexists | ]);
    apply Bucket_Insert_false in Hins as (-> & Hkey & Hfull);
    pose proof (full_bucket_depth W key t a b Hwf Hbs ltac:(lia)
                  Hat Hsep Hkey Hfull) as Hlt;
    [lia|].
  pose proof Hat as (_ & Hslot & Hb)%bucket_at_Some.
  destruct (wf_bucket _ _ Hwf _ _ Hb) as (Hd & Hs & _ & _).
  assert (GetDepth b = global_depth_ t → global_depth_ t < 30) as Hroom
    by (unfold GetDepth; lia).
  pose proof (Insert_round t key a b Hwf Hat Hroom) as Hround.
  revert Hround.
  destruct (if GetDepth b =? global_depth_ t
            then (ExpandTable t, IndexOf hash (ExpandTable t) key)
            else (t, IndexOf hash t key)) as [t1 index1].
  intros (Hwf1 & -> & Hat1 & Hlt1 & Hgd1 & Hbk & Hbs1 & _).
  rewrite Hat1.
  pose proof Hat1 as (_ & _ & Hb1)%bucket_at_Some.
  destruct (wf_SplitBucket t1 a b Hwf1 Hb1 Hlt1) as [Hwf2 Hstored2].
  destruct (bucket_at_SplitBucket t1 a b _ a b Hwf1 Hb1 Hlt1 Hat1)
    as (a2 & b2 & Hat2 & Hspec).
  rewrite decide_True in Hspec by done. destruct Hspec as [Hdepth2 _].
  rewrite <-(SplitBucket_IndexOf t1 a key) in Hat2 |- *.
  apply (IH _ a2 b2); try done.
  - rewrite SplitBucket_bucket_size. lia.
  - rewrite SplitBucket_global_depth. lia.
  - intros k Hk%Hstored2. apply Hsep. unfold stored in *. by rewrite <-Hbk.
  - lia.
Qed.

(** The bucket [key] is routed to after one round of the loop: it holds the
    entries of the old one whose hash has the same bit [depth_] as [key]. *)
Lemma target_after_round t key a b :
  wf hash t → bucket_at t (IndexOf hash t key) = Some (a, b) →
  depth_ b < global_depth_ t →
  wf hash (SplitBucket hash a t) ∧
  ∃ a2 b2,
    bucket_at (SplitBucket hash a t) (IndexOf hash t key) = Some (a2, b2) ∧
    depth_ b2 = depth_ b + 1 ∧ size_ b2 = size_ b ∧
    list_ b2 = filter (λ kv, Z.testbit (hash kv.1) (depth_ b)
                             = Z.testbit (hash key) (depth_ b)) (list_ b).
Proof.
  intros Hwf Hat Hlt.
  pose proof Hat as (_ & _ & Hb)%bucket_at_Some.
  destruct (wf_bucket _ _ Hwf _ _ Hb) as (Hd & Hs & _ & _).
  destruct (wf_SplitBucket t a b Hwf Hb Hlt) as [Hwf2 _].
  split; [done|].
  destruct (bucket_at_SplitBucket t a b _ a b Hwf Hb Hlt Hat)
    as (a2 & b2 & Hat2 & Hspec).
  rewrite decide_True in Hspec by done. destruct Hspec as [Hdepth2 Hlist2].
  exists a2, b2.
  pose proof Hat2 as (_ & _ & Hb2)%bucket_at_Some.
  destruct (wf_bucket _ _ Hwf2 _ _ Hb2) as (_ & Hs2 & _ & _).
  rewrite SplitBucket_bucket_size in Hs2.
  split_and!; [done|done|congruence|].
  rewrite Hlist2. apply list_filter_iff. intros [k v]. simpl.
  rewrite (IndexOf_mod t key) by apply Hwf.
  rewrite testbit_mod_pow2 by lia. done.
Qed.

(** The loop of [Insert] ends when the target bucket has room, or holds
    [key], or holds a key that differs from [key] in the low [W] hash
    bits. *)
Lemma Insert_loop_completes (W : Z) key value (n : nat) t a b :
  wf hash t → 0 <= W <= 30 → global_depth_ t <= W →
  bucket_at t (IndexOf hash t key) = Some (a, b) →
  IsFull b = false ∨ key ∈ (list_ b).*1 ∨
    (∃ k, k ∈ (list_ b).*1 ∧ hash k mod 2 ^ W ≠ hash key mod 2 ^ W) →
  W - depth_ b <= Z.of_nat n →
  ∃ t', Insert_loop hash n key value t (IndexOf hash t key) = Some t' ∧
        Z.of_nat (length (dir_ t')) <= 2 ^ W.
Proof.
  revert t a b. induction n as [|n IH];
    intros t a b Hwf HW Hgd Hat Hroom Hn;
    rewrite Insert_loop_unfold, Hat;
    pose proof (wf_length _ _ Hwf) as Hlen;
    pose proof (wf_depth _ _ Hwf) as Hd0;
    pose proof Hat as (_ & Hslot & Hb)%bucket_at_Some;
    destruct (wf_bucket _ _ Hwf _ _ Hb) as (Hd & Hs & _ & _);
    (assert (Z.of_nat (length (dir_ t)) <= 2 ^ W) as Hdir
       by (rewrite Hlen; apply Z.pow_le_mono_r; lia));
    (destruct (Bucket_Insert key value b) as [[] b'] eqn:Hins;
       [by eexists | ]);
    apply Bucket_Insert_false in Hins as (-> & Hkey & Hfull);
    (destruct Hroom as [Hnot|[Hin|(k & Hk & Hdiff)]];
       [unfold IsFull in Hnot; apply Z.eqb_neq in Hnot; lia | done | ]);
    (assert (depth_ b < W) as Hlt
       by (destruct (decide (depth_ b < W)) as [|Hge]; [done|exfalso];
           apply Hdiff, (mod_pow2_le _ _ (depth_ b)); [lia|];
           rewrite (wf_route _ _ Hwf _ a b k Hslot Hb Hk);
           symmetry; by apply (route_of_target t key a b)));
    [lia|].
  assert (GetDepth b = global_depth_ t → global_depth_ t < 30) as Hroom
    by (unfold GetDepth; lia).
  pose proof (Insert_round t key a b Hwf Hat Hroom) as Hround.
  revert Hround.
  destruct (if GetDepth b =? global_depth_ t
            then (ExpandTable t, IndexOf hash (ExpandTable t) key)
            else (t, IndexOf hash t key)) as [t1 index1].
  intros (Hwf1 & -> & Hat1 & Hlt1 & Hgd1 & Hbk & Hbs1 & _).
  rewrite Hat1.
  destruct (target_after_round t1 key a b Hwf1 Hat1 Hlt1)
    as (Hwf2 & a2 & b2 & Hat2 & Hdepth2 & Hsize2 & Hlist2).
  rewrite <-(SplitBucket_IndexOf t1 a key) in Hat2 |- *.
  apply (IH _ a2 b2); try done.
  - rewrite SplitBucket_global_depth. lia.
  - apply list_elem_of_fmap in Hk as ([k0 v] & -> & Hkv). simpl in *.
    destruct (decide (Z.testbit (hash k0) (depth_ b)
                      = Z.testbit (hash key) (depth_ b))) as [Hbit|Hbit].
    + right; right. exists k0. split; [|done].
      apply list_elem_of_fmap. exists (k0, v). split; [done|].
      rewrite Hlist2. by apply list_elem_of_filter.
    + left. unfold IsFull. apply Z.eqb_neq. rewrite Hlist2, Hsize2.
      pose proof (length_filter_lt
                    (λ kv : K * V, Z.testbit (hash kv.1) (depth_ b)
                                   = Z.testbit (hash key) (depth_ b))
                    (list_ b) (k0, v) Hkv Hbit).
      lia.
  - lia.
Qed.

(** The loop of [Insert] is not done after [n] rounds when the target bucket
    is full of keys that agree with [key] on the low [depth_ + n] hash
    bits. *)
Lemma Insert_loop_stays_full key value (n : nat) t a b :
  wf hash t → bucket_at t (IndexOf hash t key) = Some (a, b) →
  IsFull b = true → key ∉ (list_ b).*1 →
  (∀ k, k ∈ (list_ b).*1 →
        hash k mod 2 ^ (depth_ b + Z.of_nat n)
        = hash key mod 2 ^ (depth_ b + Z.of_nat n)) →
  depth_ b + Z.of_nat n <= 30 →
  Insert_loop hash n key value t (IndexOf hash t key) = None.
Proof.
  revert t a b. induction n as [|n IH];
    intros t a b Hwf Hat Hfull Hkey Hsame Hn;
    rewrite Insert_loop_unfold, Hat;
    (assert (Bucket_Insert key value b = (false, b)) as ->
       by (unfold Bucket_Insert;
           pose proof (proj2 (assign_item_None key value (list_ b)) Hkey)
             as Hnone;
           by rewrite Hnone, Hfull));
    [done|].
  pose proof Hat as (_ & Hslot & Hb)%bucket_at_Some.
  destruct (wf_bucket _ _ Hwf _ _ Hb) as (Hd & Hs & _ & _).
  assert (GetDepth b = global_depth_ t → global_depth_ t < 30) as Hroom
    by (unfold GetDepth; lia).
  pose proof (Insert_round t key a b Hwf Hat Hroom) as Hround.
  revert Hround.
  destruct (if GetDepth b =? global_depth_ t
            then (ExpandTable t, IndexOf hash (ExpandTable t) key)
            else (t, IndexOf hash t key)) as [t1 index1].
  intros (Hwf1 & -> & Hat1 & Hlt1 & Hgd1 & Hbk & Hbs1 & _).
  rewrite Hat1.
  destruct (target_after_round t1 key a b Hwf1 Hat1 Hlt1)
    as (Hwf2 & a2 & b2 & Hat2 & Hdepth2 & Hsize2 & Hlist2).
  rewrite <-(SplitBucket_IndexOf t1 a key) in Hat2 |- *.
  assert (∀ k, k ∈ (list_ b).*1 →
            Z.testbit (hash k) (depth_ b) = Z.testbit (hash key) (depth_ b))
    as Hbit.
  { intros k Hk.
    rewrite <-(testbit_mod_pow2 (hash k) (depth_ b + Z.of_nat (S n)) (depth_ b)),
      <-(testbit_mod_pow2 (hash key) (depth_ b + Z.of_nat (S n)) (depth_ b))
      by lia.
    by rewrite (Hsame k Hk). }
  assert (list_ b2 = list_ b) as Hall.
  { rewrite Hlist2. clear -Hbit. induction (list_ b) as [|[k v] l IHl]; [done|].
    rewrite filter_cons_True.
    - f_equal. apply IHl. intros k' Hk'. apply Hbit. rewrite fmap_cons. by right.
    - simpl. apply Hbit. rewrite fmap_cons. by left. }
  apply (IH _ a2 b2); try done.
  - unfold IsFull in *. by rewrite Hall, Hsize2.
  - by rewrite Hall.
  - rewrite Hall, Hdepth2. intros k Hk.
    replace (depth_ b + 1 + Z.of_nat n) with (depth_ b + Z.of_nat (S n)) by lia.
    by apply Hsame.
  - lia.
Qed.


(** Runs whose inserted keys differ pairwise in their low [W] hash bits
    complete, every [Insert] within [W] rounds of its loop. *)
Lemma run_completes (W : Z) ops (seen : list K) t :
  run_inv hash W seen t →
  (∀ k k', k ∈ seen ++ inserted_keys ops → k' ∈ seen ++ inserted_keys ops →
           k ≠ k' → hash k mod 2 ^ W ≠ hash k' mod 2 ^ W) →
  ∃ t', run hash (Z.to_nat W) ops t = Some t' ∧
        Z.of_nat (length (dir_ t')) <= 2 ^ W.
Proof.
  revert seen t. induction ops as [|[key value|key] ops IH];
    intros seen t (Hwf & Hbs & HW & Hlen & Hseen) Hsep; simpl.
  - by exists t.
  - assert (2 ^ W <= 2 ^ 30) as Hpow by (apply Z.pow_le_mono_r; lia).
    assert (global_depth_ t <= W) as Hgd.
    { pose proof (wf_depth _ _ Hwf). rewrite (wf_length _ _ Hwf) in Hlen.
      apply (Z.pow_le_mono_r_iff 2); lia. }
    destruct (wf_bucket_of t key Hwf) as (a & b & Hat).
    pose proof Hat as (_ & _ & Hb)%bucket_at_Some.
    destruct (wf_bucket _ _ Hwf _ _ Hb) as (Hd & _).
    destruct (Insert_loop_terminates W key value (Z.to_nat W) t a b)
      as (t1 & Hins & Hlen1); try done; try lia.
    { intros k Hk Hne. apply Hsep; [|set_solver|done].
      apply elem_of_app. left. by apply Hseen. }
    unfold Insert. rewrite Hins.
    destruct (Insert_loop_spec _ _ _ _ _ Hwf Hins) as (Hwf1 & _ & Hstored1);
      [lia|].
    apply (IH (seen ++ [key])).
    + split_and!; try done; try lia.
      * by rewrite (Insert_loop_bucket_size _ _ _ _ _ _ Hins).
      * intros k [->|Hk]%Hstored1; [set_solver|].
        apply elem_of_app. left. by apply Hseen.
    + intros k k'. rewrite <-app_assoc. apply Hsep.
  - destruct (table_wf_Remove t key Hwf) as (Hwf1 & _ & Hstored1).
    apply (IH seen); [|done].
    split_and!; try done; try lia.
    + unfold Remove. destruct (Remove_path hash t key); [done..|].
      by destruct (Bucket_Remove key b).
    + by rewrite Remove_dir.
    + intros k Hk%Hstored1. by apply Hseen.
Qed.

Lemma run_new_total bucket_size (W : Z) ops :
  1 <= bucket_size → 0 <= W <= 30 →
  (∀ k k', k ∈ inserted_keys ops → k' ∈ inserted_keys ops →
           k ≠ k' → hash k mod 2 ^ W ≠ hash k' mod 2 ^ W) →
  ∃ t, run hash (Z.to_nat W) ops (ExtendibleHashTable_new bucket_size) = Some t ∧
       Z.of_nat (length (dir_ t)) <= 2 ^ W ∧
       ∀ key, Find hash t key = last_inserted ops key None.
Proof.
  intros Hbs HW Hsep.
  assert (2 ^ W <= 2 ^ 30) as Hpow by (apply Z.pow_le_mono_r; lia).
  assert (1 <= 2 ^ W) as Hone by (pose proof (Z.pow_pos_nonneg 2 W); lia).
  pose proof (table_wf_new bucket_size ltac:(lia)) as Hwf.
  destruct (run_completes W ops [] (ExtendibleHashTable_new bucket_size))
    as (t & Hrun & Hlen).
  { split_and!; try done; try lia.
    intros k (a & b & Hb & Hk).
    destruct a as [|a]; simpl in Hb; [|done]. injection Hb as <-.
    by apply not_elem_of_nil in Hk. }
  { done. }
  exists t. split_and!; [done..|].
  apply (run_spec (Z.to_nat W) ops _ t (λ _, None) Hwf); [|done|lia].
  intros k. apply Find_new. lia.
Qed.

(** C1: after any sequence of [Insert] and [Remove] calls on a new table
    that ran to completion (however many splits and doublings they took),
    [Find(key)] returns the value most recently inserted for [key] and not
    removed since, and nothing for a key with no such value.  Stated for
    directories of at most 2^30 slots, the sizes up to which the [int]
    expression [1 << global_depth_] is defined. *)
Theorem Find_returns_last_inserted bucket_size fuel ops t :
  0 <= bucket_size →
  run hash fuel ops (ExtendibleHashTable_new bucket_size) = Some t →
  Z.of_nat (length (dir_ t)) <= 2 ^ 30 →
  ∀ key, Find hash t key = last_inserted ops key None.
Proof.
  intros Hbs Hrun Hlen.
  apply (run_spec fuel ops (ExtendibleHashTable_new bucket_size) t
           (λ _, None)); [by apply table_wf_new| |done|done].
  intros k. by apply Find_new.
Qed.

(** C5, as amended: on a reachable table whose directory has at most
    [2^W] slots, [W <= 30], if the bucket that [key] is routed to has room,
    or holds [key], or holds at least one key whose low [W] hash bits differ
    from those of [key], the loop of [Insert(key, value)] ends after at most
    [W] rounds; [Find(key)] then returns [value] and the directory still has
    at most [2^W] slots. *)
Theorem Insert_terminates_within_hash_bits bucket_size (W : Z) key value t :
  reachable hash bucket_size t → 0 <= W <= 30 →
  Z.of_nat (length (dir_ t)) <= 2 ^ W →
  (∀ a b, bucket_at t (IndexOf hash t key) = Some (a, b) →
     IsFull b = false ∨ key ∈ (list_ b).*1 ∨
     ∃ k, k ∈ (list_ b).*1 ∧ hash k mod 2 ^ W ≠ hash key mod 2 ^ W) →
  ∃ t', Insert hash (Z.to_nat W) key value t = Some t' ∧
        Find hash t' key = Some value ∧
        Z.of_nat (length (dir_ t')) <= 2 ^ W.
Proof.
  intros Hreach HW Hlen Hroom.
  assert (2 ^ W <= 2 ^ 30) as Hpow by (apply Z.pow_le_mono_r; lia).
  assert (wf hash t) as Hwf by (apply (table_reachable_wf bucket_size); [done|lia]).
  assert (global_depth_ t <= W) as Hgd.
  { pose proof (wf_depth _ _ Hwf). rewrite (wf_length _ _ Hwf) in Hlen.
    apply (Z.pow_le_mono_r_iff 2); lia. }
  destruct (wf_bucket_of t key Hwf) as (a & b & Hat).
  pose proof Hat as (_ & _ & Hb)%bucket_at_Some.
  destruct (wf_bucket _ _ Hwf _ _ Hb) as (Hd & _).
  destruct (Insert_loop_completes W key value (Z.to_nat W) t a b Hwf HW Hgd
              Hat (Hroom a b Hat) ltac:(lia)) as (t' & Hins & Hlen').
  exists t'. split_and!; [done| |done].
  destruct (Insert_spec (Z.to_nat W) key value t t' Hwf Hins) as (_ & Hfind & _);
    [lia|].
  by rewrite Hfind, decide_True.
Qed.

(** C9: when [key] is already in the bucket that [IndexOf] routes it to,
    [Insert(key, value)] returns without running the body of its loop, also
    when that bucket is full: the global depth, the bucket count and the
    directory are as before, every bucket keeps its depth and its keys in
    their order, buckets other than the target are untouched, the other
    keys of the target keep their values, and [key] now has [value]. *)
Theorem Insert_existing_key fuel key value t a b :
  bucket_at t (IndexOf hash t key) = Some (a, b) →
  key ∈ (list_ b).*1 →
  ∃ t' b',
    Insert hash fuel key value t = Some t' ∧
    GetGlobalDepth t' = GetGlobalDepth t ∧
    GetNumBuckets t' = GetNumBuckets t ∧
    dir_ t' = dir_ t ∧
    buckets t' = <[a := b']> (buckets t) ∧
    size_ b' = size_ b ∧ depth_ b' = depth_ b ∧
    (list_ b').*1 = (list_ b).*1 ∧
    find_item key (list_ b') = Some value ∧
    (∀ k, k ≠ key → find_item k (list_ b') = find_item k (list_ b)) ∧
    (∀ i, GetLocalDepth t' i = GetLocalDepth t i).
Proof.
  intros Hat Hkey.
  destruct (assign_item key value (list_ b)) as [items'|] eqn:Ha.
  2: { by apply assign_item_None in Ha. }
  destruct (assign_item_Some _ _ _ _ Ha) as (Hkeys & Hfind & Hother).
  exists (put_bucket a (with_items items' b) t), (with_items items' b).
  split_and!; try done.
  - unfold Insert. rewrite Insert_loop_unfold, Hat.
    unfold Bucket_Insert. by rewrite Ha.
  - intros i. unfold GetLocalDepth. rewrite bucket_at_put_bucket.
    destruct (bucket_at t i) as [[a0 b0]|] eqn:Hi; [|done].
    destruct (decide (a0 = a)) as [->|]; [|done].
    apply bucket_at_Some in Hi as (_ & _ & Hb0).
    apply bucket_at_Some in Hat as (_ & _ & Hb).
    by assert (b0 = b) as -> by congruence.
Qed.

(** C10: in every reachable table (of at most 2^30 slots) and for every
    key, [IndexOf(key)] is below the number of slots, which is
    [2^global_depth_], the slot holds a bucket, and neither [Find] nor
    [Remove] takes one of its guard branches. *)
Theorem guards_never_taken bucket_size t key :
  reachable hash bucket_size t →
  Z.of_nat (length (dir_ t)) <= 2 ^ 30 →
  0 <= IndexOf hash t key < Z.of_nat (length (dir_ t)) ∧
  Z.of_nat (length (dir_ t)) = 2 ^ global_depth_ t ∧
  ∃ a b, dir_ t !! Z.to_nat (IndexOf hash t key) = Some (Some a) ∧
         buckets t !! a = Some b ∧
         Find_path hash t key = InBucket a b ∧
         Remove_path hash t key = InBucket a b.
Proof.
  intros Hreach Hlen.
  pose proof (table_reachable_wf _ _ Hreach Hlen) as Hwf.
  split_and!; [apply (IndexOf_range t key Hwf)..|apply Hwf|].
  destruct (wf_bucket_of t key Hwf) as (a & b & Hat).
  exists a, b. pose proof Hat as (_ & ? & ?)%bucket_at_Some.
  split_and!; [done|done| |].
  - by apply Find_path_bucket.
  - by apply Remove_path_bucket.
Qed.

Lemma run_reachable bucket_size fuel ops t t' :
  reachable hash bucket_size t → run hash fuel ops t = Some t' →
  reachable hash bucket_size t'.
Proof.
  revert t. induction ops as [|[key value|key] ops IH]; intros t Hreach; simpl.
  - by intros [= <-].
  - destruct (Insert hash fuel key value t) as [t1|] eqn:Hins; [|done].
    apply IH. by eapply reach_Insert.
  - apply IH. by apply reach_Remove.
Qed.

End TableFacts.

(** * The table on [int] keys *)

Section IntTable.

Import Table.

(** C7: from a new table of bucket capacity 2 with the identity hash,
    [Insert(0,"a")], [Insert(1,"b")] fill the only bucket at global depth
    0; [Insert(2,"c")] then runs the loop body once and ends in a table
    with [GetGlobalDepth() = 1] and [GetNumBuckets() = 2] in which slot 0
    holds the keys 0 and 2, slot 1 the key 1, and [Find] returns "a", "b",
    "c" for 0, 1, 2. *)
Theorem scenario_directory :
  run hash_int 0 (take 2 scenario_ops) (ExtendibleHashTable_new 2)
    = Some (full_table 0 1) ∧
  Insert hash_int 0 2 "c" (full_table 0 1) = None ∧
  run hash_int 1 scenario_ops (ExtendibleHashTable_new 2)
    = Some scenario_table ∧
  GetGlobalDepth scenario_table = 1 ∧
  GetNumBuckets scenario_table = 2 ∧
  (∃ b, bucket_at scenario_table 0 = Some (0%nat, b) ∧ (list_ b).*1 = [0; 2]) ∧
  (∃ b, bucket_at scenario_table 1 = Some (1%nat, b) ∧ (list_ b).*1 = [1]) ∧
  GetLocalDepth scenario_table 0 = Some 1 ∧
  GetLocalDepth scenario_table 1 = Some 1 ∧
  Find hash_int scenario_table 0 = Some "a" ∧
  Find hash_int scenario_table 1 = Some "b" ∧
  Find hash_int scenario_table 2 = Some "c".
Proof.
  split_and!; try by vm_compute.
  - eexists. split; by vm_compute.
  - eexists. split; by vm_compute.
Qed.

Lemma IndexOf_depth_0 (t : @ExtendibleHashTable Z string) key :
  global_depth_ t = 0 → IndexOf hash_int t key = 0.
Proof. intros Hgd. unfold IndexOf. rewrite Hgd. apply Z.land_0_r. Qed.

Lemma full_table_reachable first second :
  first ≠ second → reachable hash_int 2 (full_table first second).
Proof.
  intros Hne.
  apply (reach_Insert hash_int 2
           (put_bucket 0 {| size_ := 2; depth_ := 0; list_ := [(first, "a")] |}
              (ExtendibleHashTable_new 2)) 0 second "b").
  - apply (reach_Insert hash_int 2 (ExtendibleHashTable_new 2) 0 first "a").
    + by apply reach_new.
    + unfold Insert. by rewrite IndexOf_depth_0.
  - unfold Insert. rewrite IndexOf_depth_0 by done.
    unfold full_table. simpl. unfold Bucket_Insert. simpl.
    by rewrite decide_False.
Qed.

Lemma scenario_table_reachable : reachable hash_int 2 scenario_table.
Proof.
  apply (run_reachable hash_int 2 1 scenario_ops (ExtendibleHashTable_new 2)).
  - apply reach_new. lia.
  - vm_compute. reflexivity.
Qed.

Lemma deep_table_reachable : reachable hash_int 2 deep_table.
Proof.
  apply (run_reachable hash_int 2 3 deep_ops (ExtendibleHashTable_new 2)).
  - apply reach_new. lia.
  - vm_compute. reflexivity.
Qed.

Lemma deep_table_length : Z.of_nat (length (dir_ deep_table)) <= 2 ^ 30.
Proof. vm_compute. discriminate. Qed.

Lemma scenario_table_length :
  Z.of_nat (length (dir_ scenario_table)) <= 2 ^ 29.
Proof. vm_compute. discriminate. Qed.

(** C5, where the claim fails: the table holds the two keys 0 and 1024 in
    one full bucket, so that [Insert(2048, "c")] has three keys to tell
    apart, [colliding_keys], and [log2_up 3 = 2].  The loop is not done
    after 2 rounds, nor after 10: it takes 11, one for each low hash bit on
    which the three keys agree.  With the keys 0 and 4 in place of 0 and
    1024, [Insert(8, "c")] has three keys as well and takes 3 rounds.  The
    number of rounds follows the hash bits, not the number of keys.  Nor
    does every call end: with the keys 0 and [2^30] in the full bucket,
    [Insert(-2^31, "c")] has again three keys to tell apart, which agree on
    their low 30 hash bits, and the loop is not done after 30 rounds, when
    the directory has [2^30] slots and the next doubling would evaluate
    [1 << 31] in [int]. *)
Lemma split_rounds_exceed_log2_of_keys :
  reachable hash_int 2 (full_table 0 1024) ∧
  colliding_keys hash_int (full_table 0 1024) 2048 = [2048; 0; 1024] ∧
  Z.log2_up (Z.of_nat (length [2048; 0; 1024])) = 2 ∧
  Insert hash_int 2 2048 "c" (full_table 0 1024) = None ∧
  Insert hash_int (5 * 2) 2048 "c" (full_table 0 1024) = None ∧
  GetGlobalDepth <$> Insert hash_int 11 2048 "c" (full_table 0 1024)
    = Some 11 ∧
  colliding_keys hash_int (full_table 0 4) 8 = [8; 0; 4] ∧
  Insert hash_int 2 8 "c" (full_table 0 4) = None ∧
  GetGlobalDepth <$> Insert hash_int 3 8 "c" (full_table 0 4) = Some 3 ∧
  reachable hash_int 2 (full_table 0 (2 ^ 30)) ∧
  colliding_keys hash_int (full_table 0 (2 ^ 30)) (- 2 ^ 31)
    = [- 2 ^ 31; 0; 2 ^ 30] ∧
  Insert hash_int 30 (- 2 ^ 31) "c" (full_table 0 (2 ^ 30)) = None.
Proof.
  assert (reachable hash_int 2 (full_table 0 (2 ^ 30))) as Hreach.
  { apply full_table_reachable. intros Heq. vm_compute in Heq.
    discriminate Heq. }
  split_and!.
  - by apply full_table_reachable.
  - vm_compute. reflexivity.
  - reflexivity.
  - vm_compute. reflexivity.
  - vm_compute. reflexivity.
  - vm_compute. reflexivity.
  - vm_compute. reflexivity.
  - vm_compute. reflexivity.
  - vm_compute. reflexivity.
  - exact Hreach.
  - vm_compute. reflexivity.
  - unfold Insert.
    apply (Insert_loop_stays_full hash_int (- 2 ^ 31) "c" 30
             (full_table 0 (2 ^ 30)) 0%nat
             {| size_ := 2; depth_ := 0;
                list_ := [(0, "a"); (2 ^ 30, "b")] |}).
    + apply (table_reachable_wf hash_int 2); [exact Hreach|].
      vm_compute. discriminate.
    + vm_compute. reflexivity.
    + vm_compute. reflexivity.
    + intros Hin. cbn in Hin.
      repeat (apply elem_of_cons in Hin as [Heq|Hin];
              [vm_compute in Heq; discriminate Heq|]).
      by apply elem_of_nil in Hin.
    + intros k Hk. cbn in Hk.
      repeat (apply elem_of_cons in Hk as [->|Hk]; [vm_compute; reflexivity|]).
      by apply elem_of_nil in Hk.
    + vm_compute. discriminate.
Qed.

(** The theorem of C1 at the directory scenario and key 2. *)
Lemma Find_returns_last_inserted_witness :
  0 <= 2 ∧
  run hash_int 1 scenario_ops (ExtendibleHashTable_new 2)
    = Some scenario_table ∧
  Z.of_nat (length (dir_ scenario_table)) <= 2 ^ 30 ∧
  Find hash_int scenario_table 2 = last_inserted scenario_ops 2 None.
Proof.
  assert (run hash_int 1 scenario_ops (ExtendibleHashTable_new 2)
            = Some scenario_table) as Hrun by by vm_compute.
  assert (Z.of_nat (length (dir_ scenario_table)) <= 2 ^ 30) as Hlen
    by by vm_compute.
  split_and!; [lia | exact Hrun | exact Hlen |].
  exact (Find_returns_last_inserted hash_int 2 1 scenario_ops scenario_table
           ltac:(lia) Hrun Hlen 2).
Defined.

(** The full bucket of [full_table (2 ^ 30) 5] holds the key 5, which
    differs from the key 0 in the lowest hash bit; the key [2^30] does not
    differ from it in the low 30 bits. *)
Lemma full_table_room :
  ∀ a b,
    bucket_at (full_table (2 ^ 30) 5)
      (IndexOf hash_int (full_table (2 ^ 30) 5) 0) = Some (a, b) →
    IsFull b = false ∨ 0 ∈ (list_ b).*1 ∨
    ∃ k, k ∈ (list_ b).*1 ∧ hash_int k mod 2 ^ 1 ≠ hash_int 0 mod 2 ^ 1.
Proof.
  intros a b Hat. vm_compute in Hat. injection Hat as <- <-.
  right; right. exists 5. split.
  - cbn. apply elem_of_cons. right. apply elem_of_cons. by left.
  - vm_compute. discriminate.
Qed.

(** The theorem of C5 at a full bucket holding the keys [2^30] and 5, the
    key 0 and [W = 1]: one round tells 0 from 5, while [2^30] stays with
    0. *)
Lemma Insert_terminates_within_hash_bits_witness :
  reachable hash_int 2 (full_table (2 ^ 30) 5) ∧ 0 <= 1 <= 30 ∧
  Z.of_nat (length (dir_ (full_table (2 ^ 30) 5))) <= 2 ^ 1 ∧
  hash_int (2 ^ 30) mod 2 ^ 1 = hash_int 0 mod 2 ^ 1 ∧
  Insert hash_int 0 0 "c" (full_table (2 ^ 30) 5) = None ∧
  ∃ t', Insert hash_int (Z.to_nat 1) 0 "c" (full_table (2 ^ 30) 5) = Some t' ∧
        Find hash_int t' 0 = Some "c" ∧
        Z.of_nat (length (dir_ t')) <= 2 ^ 1.
Proof.
  assert (reachable hash_int 2 (full_table (2 ^ 30) 5)) as Hreach.
  { apply full_table_reachable. intros Heq. vm_compute in Heq.
    discriminate Heq. }
  assert (0 <= 1 <= 30) as HW by lia.
  assert (Z.of_nat (length (dir_ (full_table (2 ^ 30) 5))) <= 2 ^ 1) as Hlen
    by (vm_compute; discriminate).
  assert (hash_int (2 ^ 30) mod 2 ^ 1 = hash_int 0 mod 2 ^ 1) as Hsame
    by (vm_compute; reflexivity).
  assert (Insert hash_int 0 0 "c" (full_table (2 ^ 30) 5) = None) as Hfull
    by (vm_compute; reflexivity).
  split; [exact Hreach|]. split; [exact HW|]. split; [exact Hlen|].
  split; [exact Hsame|]. split; [exact Hfull|].
  exact (Insert_terminates_within_hash_bits hash_int 2 1 0 "c"
           (full_table (2 ^ 30) 5) Hreach HW Hlen full_table_room).
Defined.

(** The theorem of C9 at a full bucket holding the keys 0 and 1. *)
Lemma Insert_existing_key_witness :
  bucket_at (full_table 0 1) (IndexOf hash_int (full_table 0 1) 1)
    = Some (0%nat, {| size_ := 2; depth_ := 0; list_ := [(0, "a"); (1, "b")] |}) ∧
  1 ∈ [0; 1] ∧
  ∃ t', Insert hash_int 0 1 "z" (full_table 0 1) = Some t' ∧
        GetGlobalDepth t' = 0 ∧ GetNumBuckets t' = 1.
Proof.
  assert (bucket_at (full_table 0 1) (IndexOf hash_int (full_table 0 1) 1)
    = Some (0%nat, {| size_ := 2; depth_ := 0;
                      list_ := [(0, "a"); (1, "b")] |})) as Hat
    by by vm_compute.
  assert (1 ∈ [0; 1]) as Hin by (right; left).
  split_and!; [exact Hat | exact Hin |].
  destruct (Insert_existing_key hash_int 0%nat 1 "z" (full_table 0 1) _ _
              Hat Hin) as (t' & b' & Hins & Hgd & Hnb & _).
  exists t'. split_and!; [exact Hins | exact Hgd | exact Hnb].
Defined.

(** The theorem of C10 at [deep_table], whose directory has 8 slots, and
    key 12, which is routed to slot 4. *)
Lemma guards_never_taken_witness :
  reachable hash_int 2 deep_table ∧
  Z.of_nat (length (dir_ deep_table)) <= 2 ^ 30 ∧
  IndexOf hash_int deep_table 12 = 4 ∧
  0 <= IndexOf hash_int deep_table 12 < Z.of_nat (length (dir_ deep_table)) ∧
  Z.of_nat (length (dir_ deep_table)) = 2 ^ global_depth_ deep_table ∧
  ∃ a b, dir_ deep_table !! Z.to_nat (IndexOf hash_int deep_table 12)
           = Some (Some a) ∧
         buckets deep_table !! a = Some b ∧
         Find_path hash_int deep_table 12 = InBucket a b ∧
         Remove_path hash_int deep_table 12 = InBucket a b.
Proof.
  assert (IndexOf hash_int deep_table 12 = 4) as Hindex
    by (vm_compute; reflexivity).
  split; [exact deep_table_reachable|]. split; [exact deep_table_length|].
  split; [exact Hindex|].
  exact (guards_never_taken hash_int 2 deep_table 12 deep_table_reachable
           deep_table_length).
Defined.

End IntTable.

(** * More about the replacer *)

Section ReplacerMore.

Import Replacer.

Lemma replacer_eta r :
  {| replacer_size_ := replacer_size_ r; k_ := k_ r; list_ := list_ r;
     frame_map_ := frame_map_ r |} = r.
Proof. by destruct r. Qed.

Lemma node_eta n :
  {| frame_id_ := frame_id_ n; count_ := count_ n;
     evictable_ := evictable_ n |} = n.
Proof. by destruct n. Qed.

(** [SetEvictable] in terms of [with_flag]: the lists are kept, the size
    moves by the change of the flag. *)
Lemma SetEvictable_tracked_eq r f b n :
  frame_map_ r !! f = Some n →
  (SetEvictable f b r).1 = Returned ∧
  frame_map_ (SetEvictable f b r).2 = <[f := with_flag b n]> (frame_map_ r) ∧
  cache_list (list_ (SetEvictable f b r).2) = cache_list (list_ r) ∧
  history_list (list_ (SetEvictable f b r).2) = history_list (list_ r).
Proof.
  intros Hn. unfold SetEvictable, with_flag. rewrite Hn.
  destruct (evictable_ n) eqn:He, b; simpl; rewrite ?He; simpl;
    unfold DecrementSize; try (destruct (0 <? size_ (list_ r)));
    split_and!; try done; f_equal; rewrite <-He; by rewrite node_eta.
Qed.

(** X1: [SetEvictable(frame_id, set_evictable)] on a tracked frame returns
    normally and changes nothing but that frame's [evictable_] flag and
    [size_]: every other node and the order of both lists are as before, and
    [Size()] moves by the difference of the old and the new flag. *)
Theorem SetEvictable_moves_only_the_flag r f b n :
  reachable r → frame_map_ r !! f = Some n →
  (SetEvictable f b r).1 = Returned ∧
  frame_map_ (SetEvictable f b r).2 !! f = Some (with_flag b n) ∧
  (∀ g, g ≠ f →
     frame_map_ (SetEvictable f b r).2 !! g = frame_map_ r !! g) ∧
  cache_list (list_ (SetEvictable f b r).2) = cache_list (list_ r) ∧
  history_list (list_ (SetEvictable f b r).2) = history_list (list_ r) ∧
  Size (SetEvictable f b r).2
    = Size r - Z.of_nat (flag n) + Z.of_nat (flag (with_flag b n)).
Proof.
  intros Hwf%replacer_reachable_wf Hn.
  destruct (SetEvictable_tracked_eq r f b n Hn) as (Hret & Hmap & Hc & Hh).
  pose proof (replacer_wf_SetEvictable r f b Hwf) as Hwf'.
  split_and!; try done.
  - rewrite Hmap. apply lookup_insert_eq.
  - intros g Hg. rewrite Hmap. by apply lookup_insert_ne.
  - unfold Size, List_Size. rewrite (wf_size _ Hwf'), (wf_size _ Hwf).
    unfold evictable_count. rewrite Hmap.
    pose proof (count_evictable_insert _ _ _ (with_flag b n) Hn). lia.
Qed.

(** X2: [SetEvictable] on a frame that is not tracked throws
    [std::runtime_error] and leaves the replacer as it was; setting the flag
    a tracked frame already has changes nothing; and a second identical call
    changes nothing either. *)
Theorem SetEvictable_unknown_or_unchanged r f :
  (frame_map_ r !! f = None →
     ∀ b, ∃ what, SetEvictable f b r = (Thrown (runtime_error what), r)) ∧
  (∀ n, frame_map_ r !! f = Some n →
     SetEvictable f (evictable_ n) r = (Returned, r)) ∧
  (∀ n b, frame_map_ r !! f = Some n →
     SetEvictable f b (SetEvictable f b r).2
       = (Returned, (SetEvictable f b r).2)).
Proof.
  assert (∀ r n, frame_map_ r !! f = Some n →
            SetEvictable f (evictable_ n) r = (Returned, r)) as Hsame.
  { clear r. intros r n Hn. unfold SetEvictable. rewrite Hn.
    destruct (evictable_ n) eqn:He; simpl; rewrite ?He; simpl;
      rewrite insert_id by done; by rewrite replacer_eta. }
  split_and!.
  - intros Hn b. unfold SetEvictable. rewrite Hn. by eexists.
  - apply Hsame.
  - intros n b Hn.
    destruct (SetEvictable_tracked_eq r f b n Hn) as (_ & Hmap & _).
    assert (frame_map_ (SetEvictable f b r).2 !! f = Some (with_flag b n))
      as Hn' by (rewrite Hmap; apply lookup_insert_eq).
    exact (Hsame _ _ Hn').
Qed.


(** ** What [Evict] finds *)

Lemma first_evictable_split m l p n :
  first_evictable m l = Some (p, n) →
  ∃ before after, l = before ++ p :: after ∧
    ∀ g ng, g ∈ before → m !! g = Some ng → evictable_ ng = false.
Proof.
  induction l as [|q l IH]; simpl; [done|].
  destruct (m !! q) as [nq|] eqn:Hq.
  - destruct (evictable_ nq) eqn:He.
    + intros [= <- <-]. exists [], l. split; [done|].
      by intros g ng ?%not_elem_of_nil.
    + intros (before & after & -> & Hall)%IH.
      exists (q :: before), after. split; [done|].
      intros g ng [->|Hg]%elem_of_cons Hng; [congruence | by eapply Hall].
  - intros (before & after & -> & Hall)%IH.
    exists (q :: before), after. split; [done|].
    intros g ng [->|Hg]%elem_of_cons Hng; [congruence | by eapply Hall].
Qed.

Lemma first_evictable_None_iff m l :
  first_evictable m l = None ↔
  ∀ g ng, g ∈ l → m !! g = Some ng → evictable_ ng = false.
Proof.
  split.
  - intros Hnone g ng Hg Hng. by eapply first_evictable_None.
  - intros Hall. destruct (first_evictable m l) as [[p n]|] eqn:Hscan; [|done].
    apply first_evictable_Some in Hscan as (Hp & Hn & He).
    rewrite (Hall p n Hp Hn) in He. done.
Qed.

Lemma count_evictable_0 m :
  count_evictable m = 0%nat ↔ ∀ g ng, m !! g = Some ng → evictable_ ng = false.
Proof.
  unfold count_evictable. rewrite map_size_empty_iff, map_empty_filter.
  unfold map_Forall. split.
  - intros Hall g ng Hng. specialize (Hall g ng Hng). simpl in Hall.
    by destruct (evictable_ ng).
  - intros Hall g ng Hng. simpl. rewrite (Hall g ng Hng). done.
Qed.

(** What a successful [Evict] is, on a well-formed replacer. *)
Lemma Evict_Some_eq r f :
  wf r → (Evict r).1 = Some f →
  ∃ n, frame_map_ r !! f = Some n ∧ evictable_ n = true ∧ f ∈ evict_order r ∧
       (Evict r).2 = {| replacer_size_ := replacer_size_ r; k_ := k_ r;
                        list_ := List_Remove f n (list_ r);
                        frame_map_ := delete f (frame_map_ r) |}.
Proof.
  intros Hwf. unfold Evict, evict_order.
  destruct (first_evictable _ (history_list _)) as [[p n]|] eqn:Hh.
  - apply first_evictable_Some in Hh as (Hp & Hn & He).
    destruct (wf_key r Hwf _ _ Hn) as [Hid _]. simpl. rewrite Hid.
    intros [= <-]. exists n. split_and!; [done|done|set_solver|].
    unfold evict_node. by rewrite Hid.
  - destruct (first_evictable _ (cache_list _)) as [[p n]|] eqn:Hc; [|done].
    apply first_evictable_Some in Hc as (Hp & Hn & He).
    destruct (wf_key r Hwf _ _ Hn) as [Hid _]. simpl. rewrite Hid.
    intros [= <-]. exists n. split_and!; [done|done|set_solver|].
    unfold evict_node. by rewrite Hid.
Qed.

(** X3: In a reachable replacer [Evict] finds no frame exactly when
    [Size()] is 0, and then it leaves the replacer as it was. *)
Theorem Evict_none_iff_Size_0 r :
  reachable r →
  ((Evict r).1 = None ↔ Size r = 0) ∧
  ((Evict r).1 = None → (Evict r).2 = r).
Proof.
  intros Hwf%replacer_reachable_wf.
  assert ((Evict r).1 = None ↔
          first_evictable (frame_map_ r) (history_list (list_ r)) = None ∧
          first_evictable (frame_map_ r) (cache_list (list_ r)) = None) as Hev.
  { unfold Evict.
    destruct (first_evictable _ (history_list _)) as [[p n]|];
      [naive_solver|].
    destruct (first_evictable _ (cache_list _)) as [[p n]|]; naive_solver. }
  split.
  - rewrite Hev, !first_evictable_None_iff.
    unfold Size, List_Size. rewrite (wf_size r Hwf).
    assert (Z.of_nat (evictable_count r) = 0 ↔ evictable_count r = 0%nat)
      as -> by lia.
    unfold evictable_count. rewrite count_evictable_0. split.
    + intros [Hh Hc] g ng Hng.
      assert (g ∈ chain r) as Hg by (apply (wf_linked r Hwf); eauto).
      apply elem_of_app in Hg as [Hg|Hg]; eauto.
    + intros Hall. split; intros g ng _ Hng; by eapply Hall.
  - unfold Evict.
    destruct (first_evictable _ (history_list _)) as [[p n]|]; [done|].
    by destruct (first_evictable _ (cache_list _)) as [[p n]|].
Qed.

(** X4: When [Evict] returns a frame in a reachable replacer, that frame
    was tracked and evictable; afterwards it is erased from [frame_map_] and
    unlinked from both lists, nothing else is touched, and [Size()] is one
    less. *)
Theorem Evict_removes_the_victim r f :
  reachable r → (Evict r).1 = Some f →
  ∃ n, frame_map_ r !! f = Some n ∧ evictable_ n = true ∧
       frame_map_ (Evict r).2 = delete f (frame_map_ r) ∧
       cache_list (list_ (Evict r).2) = unlink f (cache_list (list_ r)) ∧
       history_list (list_ (Evict r).2) = unlink f (history_list (list_ r)) ∧
       (f ∉ chain (Evict r).2) ∧
       Size (Evict r).2 = Size r - 1.
Proof.
  intros Hwf%replacer_reachable_wf Hf.
  destruct (Evict_Some_eq r f Hwf Hf) as (n & Hn & He & _ & Heq).
  pose proof (replacer_wf_Evict r Hwf) as Hwf'.
  exists n. rewrite Heq in *. simpl. split_and!; try done.
  - unfold chain. simpl. rewrite elem_of_app, !elem_of_unlink. naive_solver.
  - unfold Size, List_Size. rewrite (wf_size _ Hwf'), (wf_size r Hwf).
    unfold evictable_count. simpl.
    pose proof (count_evictable_delete _ _ _ Hn) as Hc.
    unfold flag in Hc. rewrite He in Hc. lia.
Qed.



(** ** What [RecordAccess] does *)

Lemma RecordAccess_eq r f :
  wf r →
  (RecordAccess f r).2 =
  {| replacer_size_ := replacer_size_ r; k_ := k_ r;
     list_ := insert_by_count (k_ r) f (accessed f r)
                (List_Remove f (accessed f r) (list_ r));
     frame_map_ := <[f := accessed f r]> (frame_map_ r) |}.
Proof.
  intros Hwf. unfold RecordAccess, accessed.
  destruct (frame_map_ r !! f) as [n|] eqn:Hn; simpl; [done|].
  f_equal.
  assert (f ∉ chain r) as Hfresh
    by (rewrite (wf_linked r Hwf), Hn; by intros [? ?]).
  unfold chain in Hfresh. apply not_elem_of_app in Hfresh as [? ?].
  unfold List_Remove. simpl. rewrite !unlink_absent by done.
  by destruct (list_ r).
Qed.

(** X6: [RecordAccess(frame_id)] in a reachable replacer sets the node of
    the frame to [accessed] (a new node with count 1, or the old one with one
    more access), moves the frame to the tail of the cache list when the new
    count reaches [k_] and to the tail of the history list otherwise, and
    leaves [Size()] as it was. *)
Theorem RecordAccess_moves_to_the_tail r f :
  reachable r → is_frame_id_t f →
  frame_map_ (RecordAccess f r).2 = <[f := accessed f r]> (frame_map_ r) ∧
  (if k_ r <=? count_ (accessed f r)
   then cache_list (list_ (RecordAccess f r).2)
          = unlink f (cache_list (list_ r)) ++ [f] ∧
        history_list (list_ (RecordAccess f r).2)
          = unlink f (history_list (list_ r))
   else cache_list (list_ (RecordAccess f r).2)
          = unlink f (cache_list (list_ r)) ∧
        history_list (list_ (RecordAccess f r).2)
          = unlink f (history_list (list_ r)) ++ [f]) ∧
  Size (RecordAccess f r).2 = Size r.
Proof.
  intros Hwf%replacer_reachable_wf Hf.
  pose proof (replacer_wf_size_range r Hwf) as Hrange.
  rewrite (RecordAccess_eq r f Hwf). simpl. split_and!; [done| |].
  - unfold insert_by_count. by destruct (k_ r <=? count_ (accessed f r)).
  - unfold Size, List_Size. simpl. apply relink_size. lia.
Qed.

Lemma last_of_split {A} (l before after front : list A) (x : A) :
  NoDup l → l = before ++ x :: after → l = front ++ [x] → after = [].
Proof.
  intros Hnd Hsplit Hlast.
  destruct after as [|y after] using rev_ind; [done|]. exfalso.
  clear IHafter. rewrite Hsplit in Hlast.
  rewrite app_comm_cons, app_assoc in Hlast.
  apply app_inj_tail in Hlast as [_ ->].
  rewrite Hsplit in Hnd. apply NoDup_app in Hnd as (_ & _ & Hnd).
  apply NoDup_cons in Hnd as [Hx _]. apply Hx. set_solver.
Qed.

(** X7: let [f] be the frame that [RecordAccess] has just touched, in a
    reachable replacer, and [g] another tracked frame that is evictable.  If
    [Evict] then returns [f], [f] has fewer than [k_] accesses and [g] has at
    least [k_]: the most recently accessed frame is evicted ahead of another
    evictable frame only when it is in the history list and the other frame
    is in the cache list. *)
Theorem most_recent_is_evicted_last r f g ng :
  reachable r → is_frame_id_t f →
  (Evict (RecordAccess f r).2).1 = Some f →
  g ≠ f → frame_map_ (RecordAccess f r).2 !! g = Some ng →
  evictable_ ng = true →
  count_ (accessed f r) < k_ r ∧ k_ r <= count_ ng.
Proof.
  intros Hwf%replacer_reachable_wf Hf Hev Hgf Hg He.
  pose proof (replacer_wf_RecordAccess r f Hwf Hf) as Hwf'.
  pose proof (RecordAccess_eq r f Hwf) as Heq.
  set (r' := (RecordAccess f r).2) in *.
  assert (frame_map_ r' !! f = Some (accessed f r)) as Hnf
    by (rewrite Heq; simpl; apply lookup_insert_eq).
  assert (k_ r' = k_ r) as Hk by by rewrite Heq.
  pose proof (wf_nodup r' Hwf') as Hnd. unfold chain in Hnd.
  apply NoDup_app in Hnd as (Hndc & _ & Hndh).
  assert (g ∈ chain r') as Hgin by (apply (wf_linked r' Hwf'); eauto).
  unfold Evict in Hev.
  destruct (first_evictable _ (history_list _)) as [[p n]|] eqn:Hh.
  - pose proof Hh as (Hp & Hn & _)%first_evictable_Some.
    destruct (wf_key r' Hwf' _ _ Hn) as [Hid _].
    simpl in Hev. rewrite Hid in Hev. injection Hev as ->.
    assert (n = accessed f r) as -> by congruence.
    assert (count_ (accessed f r) < k_ r) as Hlt
      by (rewrite <-Hk; by apply (wf_segment r' Hwf' f)).
    split; [done|].
    apply first_evictable_split in Hh as (before & after & Hsplit & Hall).
    assert (∃ front, history_list (list_ r') = front ++ [f]) as [front Hlast].
    { rewrite Heq. simpl. unfold insert_by_count.
      destruct (k_ r <=? count_ (accessed f r)) eqn:Hle;
        [apply Z.leb_le in Hle; lia|]. simpl. by eexists. }
    pose proof (last_of_split _ _ _ _ _ Hndh Hsplit Hlast) as ->.
    destruct (decide (count_ ng < k_ r)) as [Hlow|]; [exfalso|lia].
    rewrite <-Hk in Hlow. apply (wf_segment r' Hwf' g ng Hg) in Hlow.
    rewrite Hsplit in Hlow.
    apply elem_of_app in Hlow as [Hlow|Hlow%list_elem_of_singleton]; [|done].
    rewrite (Hall g ng Hlow Hg) in He. done.
  - destruct (first_evictable _ (cache_list _)) as [[p n]|] eqn:Hc; [|done].
    pose proof Hc as (Hp & Hn & _)%first_evictable_Some.
    destruct (wf_key r' Hwf' _ _ Hn) as [Hid _].
    simpl in Hev. rewrite Hid in Hev. injection Hev as ->.
    exfalso.
    apply first_evictable_split in Hc as (before & after & Hsplit & Hall).
    assert (f ∉ history_list (list_ r')) as Hfh.
    { intros Hin. pose proof (wf_nodup r' Hwf') as Hnd'. unfold chain in Hnd'.
      apply NoDup_app in Hnd' as (_ & Hdisj & _). by apply (Hdisj f). }
    assert (∃ front, cache_list (list_ r') = front ++ [f]) as [front Hlast].
    { revert Hfh. rewrite Heq. simpl. unfold insert_by_count.
      destruct (k_ r <=? count_ (accessed f r)); simpl; [by eexists|].
      intros Hfh. exfalso. apply Hfh. set_solver. }
    pose proof (last_of_split _ _ _ _ _ Hndc Hsplit Hlast) as ->.
    unfold chain in Hgin. apply elem_of_app in Hgin as [Hgin|Hgin].
    + rewrite Hsplit in Hgin.
      apply elem_of_app in Hgin as [Hgin|Hgin%list_elem_of_singleton];
        [|done].
      rewrite (Hall g ng Hgin Hg) in He. done.
    + rewrite (first_evictable_None _ _ _ _ Hh Hgin Hg) in He. done.
Qed.

(** X8: In a reachable replacer the two lists together hold every tracked
    frame exactly once, a node is filed under its own frame id, and it is in
    the history list exactly when its count is below [k_] and in the cache
    list exactly when it is at least [k_]. *)
Theorem every_frame_is_in_its_segment r :
  reachable r →
  NoDup (cache_list (list_ r) ++ history_list (list_ r)) ∧
  (∀ f, is_Some (frame_map_ r !! f) ↔
        f ∈ cache_list (list_ r) ∨ f ∈ history_list (list_ r)) ∧
  (∀ f n, frame_map_ r !! f = Some n →
     frame_id_ n = f ∧
     (f ∈ history_list (list_ r) ↔ count_ n < k_ r) ∧
     (f ∈ cache_list (list_ r) ↔ k_ r <= count_ n)).
Proof.
  intros Hwf%replacer_reachable_wf.
  pose proof (wf_nodup r Hwf) as Hnd. unfold chain in Hnd.
  split_and!; [done| |].
  - intros f. rewrite <-(wf_linked r Hwf f). unfold chain.
    by rewrite elem_of_app.
  - intros f n Hn. destruct (wf_key r Hwf f n Hn) as [Hid _].
    pose proof (wf_segment r Hwf f n Hn) as Hseg.
    assert (f ∈ chain r) as Hin by (apply (wf_linked r Hwf); eauto).
    unfold chain in Hin. apply elem_of_app in Hin.
    apply NoDup_app in Hnd as (_ & Hdisj & _).
    split_and!; [done|done|]. split.
    + intros Hc. destruct (decide (count_ n < k_ r)) as [Hlt|]; [|lia].
      apply Hseg in Hlt. by destruct (Hdisj f Hc).
    + intros Hge. destruct Hin as [|Hh]; [done|]. apply Hseg in Hh. lia.
Qed.

(** X9: A frame that was removed, by [Remove] or by [Evict], starts again
    from nothing: the next [RecordAccess] gives it a new node with count 1
    that is not evictable. *)
Theorem eviction_forgets_the_history r f :
  reachable r →
  (∀ n, frame_map_ r !! f = Some n → evictable_ n = true →
     frame_map_ (RecordAccess f (Remove f r).2).2 !! f = Some (Node_new f)) ∧
  ((Evict r).1 = Some f →
     frame_map_ (RecordAccess f (Evict r).2).2 !! f = Some (Node_new f)).
Proof.
  intros Hwf%replacer_reachable_wf.
  assert (∀ r0, frame_map_ r0 !! f = None →
            frame_map_ (RecordAccess f r0).2 !! f = Some (Node_new f))
    as Hfresh.
  { intros r0 Hnone. unfold RecordAccess. rewrite Hnone. simpl.
    apply lookup_insert_eq. }
  split.
  - intros n Hn He. apply Hfresh. unfold Remove. rewrite Hn, He. simpl.
    apply lookup_delete_eq.
  - intros Hev. apply Hfresh.
    destruct (Evict_Some_eq r f Hwf Hev) as (n & _ & _ & _ & ->). simpl.
    apply lookup_delete_eq.
Qed.

(** X10: [Remove(frame_id)] of a tracked evictable frame in a reachable
    replacer lowers [Size()] by one, unlinks the frame from both lists and
    keeps every other node. *)
Theorem Remove_takes_one_off_Size r f n :
  reachable r → frame_map_ r !! f = Some n → evictable_ n = true →
  Size (Remove f r).2 = Size r - 1 ∧
  cache_list (list_ (Remove f r).2) = unlink f (cache_list (list_ r)) ∧
  history_list (list_ (Remove f r).2) = unlink f (history_list (list_ r)) ∧
  (∀ g, g ≠ f → frame_map_ (Remove f r).2 !! g = frame_map_ r !! g).
Proof.
  intros Hwf%replacer_reachable_wf Hn He.
  pose proof (replacer_wf_Remove r f Hwf) as Hwf'.
  unfold Size, List_Size. rewrite (wf_size _ Hwf'), (wf_size r Hwf).
  unfold evictable_count. revert Hwf'. unfold Remove. rewrite Hn, He. simpl.
  intros _. split_and!; try done.
  - pose proof (count_evictable_delete _ _ _ Hn) as Hc.
    unfold flag in Hc. rewrite He in Hc. lia.
  - intros g Hg. by apply lookup_delete_ne.
Qed.


Lemma replacer_Size_nonneg r : wf r → 0 <= Size r.
Proof. intros Hwf. unfold Size, List_Size. rewrite (wf_size r Hwf). lia. Qed.

(** X11: Calling [Evict] up to [n] times in a row on a reachable replacer
    returns [min n Size()] frames: it succeeds exactly [Size()] times and
    then finds no frame. *)
Theorem Evict_succeeds_Size_times r (n : nat) :
  reachable r →
  Z.of_nat (length (evict_up_to n r)) = Z.min (Z.of_nat n) (Size r).
Proof.
  intros Hreach. revert r Hreach. induction n as [|n IH]; intros r Hreach.
  - pose proof (replacer_Size_nonneg r (replacer_reachable_wf r Hreach)).
    simpl. lia.
  - pose proof (replacer_reachable_wf r Hreach) as Hwf.
    pose proof (replacer_Size_nonneg r Hwf) as Hpos.
    pose proof (replacer_wf_Evict r Hwf) as Hwf'.
    assert (reachable (Evict r).2) as Hreach' by by apply reach_Evict.
    cbn [evict_up_to]. destruct (Evict r) as [[f|] r'] eqn:Hev.
    + assert ((Evict r).1 = Some f) as Hf by by rewrite Hev.
      destruct (Evict_Some_eq r f Hwf Hf) as (nf & Hnf & He & _ & Heq).
      rewrite Hev in Heq. simpl in Heq, Hreach', Hwf'.
      specialize (IH _ Hreach').
      assert (Size r' = Size r - 1) as Hsize.
      { unfold Size, List_Size.
        rewrite (wf_size _ Hwf'), (wf_size r Hwf).
        unfold evictable_count. rewrite Heq. simpl.
        pose proof (count_evictable_delete _ _ _ Hnf) as Hc.
        unfold flag in Hc. rewrite He in Hc. lia. }
      assert (1 <= Size r) as Hone.
      { unfold Size, List_Size. rewrite (wf_size r Hwf).
        unfold evictable_count.
        pose proof (count_evictable_delete _ _ _ Hnf) as Hc.
        unfold flag in Hc. rewrite He in Hc. lia. }
      simpl length. lia.
    + assert (Size r = 0) as Hz; [|simpl; lia].
      assert ((Evict r).1 = None) as Hnone by by rewrite Hev.
      revert Hnone. unfold Evict.
      destruct (first_evictable _ (history_list _)) as [[p np]|] eqn:Hh;
        [done|].
      destruct (first_evictable _ (cache_list _)) as [[p np]|] eqn:Hc;
        [done|]. intros _.
      unfold Size, List_Size. rewrite (wf_size r Hwf).
      assert (evictable_count r = 0%nat) as ->; [|done].
      apply count_evictable_0. intros g ng Hng.
      assert (g ∈ chain r) as Hg by (apply (wf_linked r Hwf); eauto).
      apply elem_of_app in Hg as [Hg|Hg].
      * exact (first_evictable_None _ _ _ _ Hc Hg Hng).
      * exact (first_evictable_None _ _ _ _ Hh Hg Hng).
Qed.

(** X12: In a reachable replacer [Size()] lies between 0 and the number of
    tracked frames, and it is at least 1 whenever some tracked frame is
    evictable: the decrements of [size_] in [List::Remove] and
    [List::DecrementSize] never start from 0. *)
Theorem Size_never_underflows r :
  reachable r →
  0 <= Size r <= Z.of_nat (size (frame_map_ r)) ∧
  (∀ f n, frame_map_ r !! f = Some n → evictable_ n = true → 1 <= Size r).
Proof.
  intros Hwf%replacer_reachable_wf.
  unfold Size, List_Size. rewrite (wf_size r Hwf). unfold evictable_count.
  split.
  - split; [lia|]. apply inj_le. unfold count_evictable.
    apply map_subseteq_size, map_filter_subseteq.
  - intros f n Hn He. pose proof (count_evictable_delete _ _ _ Hn) as Hc.
    unfold flag in Hc. rewrite He in Hc. lia.
Qed.

(** The theorem of X1 at [tracker_pinned]: marking frame 1 evictable. *)
Lemma SetEvictable_moves_only_the_flag_witness :
  reachable tracker_pinned ∧
  frame_map_ tracker_pinned !! 1 = Some (Node_new 1) ∧
  frame_map_ (SetEvictable 1 true tracker_pinned).2 !! 1
    = Some (with_flag true (Node_new 1)) ∧
  Size (SetEvictable 1 true tracker_pinned).2
    = Size tracker_pinned - Z.of_nat (flag (Node_new 1))
      + Z.of_nat (flag (with_flag true (Node_new 1))).
Proof.
  assert (frame_map_ tracker_pinned !! 1 = Some (Node_new 1)) as Hn
    by (vm_compute; reflexivity).
  pose proof (SetEvictable_moves_only_the_flag tracker_pinned 1 true
                (Node_new 1) tracker_pinned_reachable Hn) as H.
  split; [exact tracker_pinned_reachable|]. split; [exact Hn|].
  split; [exact (proj1 (proj2 H))|].
  exact (proj2 (proj2 (proj2 (proj2 (proj2 H))))).
Defined.

(** The theorem of X2 at [tracker_pinned]: frame 5 is unknown, frame 1 is
    tracked and not evictable. *)
Lemma SetEvictable_unknown_or_unchanged_witness :
  (frame_map_ tracker_pinned !! 5 = None ∧
   ∃ what, SetEvictable 5 true tracker_pinned
           = (Thrown (runtime_error what), tracker_pinned)) ∧
  (frame_map_ tracker_pinned !! 1 = Some (Node_new 1) ∧
   SetEvictable 1 (evictable_ (Node_new 1)) tracker_pinned
     = (Returned, tracker_pinned)) ∧
  SetEvictable 1 true (SetEvictable 1 true tracker_pinned).2
    = (Returned, (SetEvictable 1 true tracker_pinned).2).
Proof.
  assert (frame_map_ tracker_pinned !! 5 = None) as H5
    by (vm_compute; reflexivity).
  assert (frame_map_ tracker_pinned !! 1 = Some (Node_new 1)) as H1
    by (vm_compute; reflexivity).
  split; [|split].
  - split; [exact H5|].
    exact (proj1 (SetEvictable_unknown_or_unchanged tracker_pinned 5) H5 true).
  - split; [exact H1|].
    exact (proj1 (proj2 (SetEvictable_unknown_or_unchanged tracker_pinned 1))
             (Node_new 1) H1).
  - exact (proj2 (proj2 (SetEvictable_unknown_or_unchanged tracker_pinned 1))
             (Node_new 1) true H1).
Defined.

(** The theorem of X3 at [tracker_pinned], where nothing is evictable. *)
Lemma Evict_none_iff_Size_0_witness :
  reachable tracker_pinned ∧ Size tracker_pinned = 0 ∧
  (Evict tracker_pinned).1 = None ∧ (Evict tracker_pinned).2 = tracker_pinned.
Proof.
  assert (Size tracker_pinned = 0) as Hsize by (vm_compute; reflexivity).
  pose proof (Evict_none_iff_Size_0 tracker_pinned tracker_pinned_reachable)
    as [Hiff Hsame].
  split; [exact tracker_pinned_reachable|]. split; [exact Hsize|].
  split; [exact (proj2 Hiff Hsize)|exact (Hsame (proj2 Hiff Hsize))].
Defined.

(** The theorem of X4 at [tracker_example], where frame 1 is evicted. *)
Lemma Evict_removes_the_victim_witness :
  reachable tracker_example ∧ (Evict tracker_example).1 = Some 1 ∧
  frame_map_ (Evict tracker_example).2 = delete 1 (frame_map_ tracker_example) ∧
  (1 ∉ chain (Evict tracker_example).2) ∧
  Size (Evict tracker_example).2 = Size tracker_example - 1.
Proof.
  assert ((Evict tracker_example).1 = Some 1) as Hev
    by (vm_compute; reflexivity).
  destruct (Evict_removes_the_victim tracker_example 1
              tracker_example_reachable Hev)
    as (n & _ & _ & Hmap & _ & _ & Hout & Hsize).
  split; [exact tracker_example_reachable|]. split; [exact Hev|].
  split; [exact Hmap|]. split; [exact Hout|exact Hsize].
Defined.


(** The theorem of X6 at [tracker_two]: a second access to frame 2, with
    [k = 3]. *)
Lemma RecordAccess_moves_to_the_tail_witness :
  reachable tracker_two ∧ is_frame_id_t 2 ∧
  frame_map_ (RecordAccess 2 tracker_two).2
    = <[2 := accessed 2 tracker_two]> (frame_map_ tracker_two) ∧
  Size (RecordAccess 2 tracker_two).2 = Size tracker_two.
Proof.
  assert (is_frame_id_t 2) as Hid by (unfold is_frame_id_t; lia).
  pose proof (RecordAccess_moves_to_the_tail tracker_two 2
                tracker_two_reachable Hid) as (Hmap & _ & Hsize).
  split; [exact tracker_two_reachable|]. split; [exact Hid|].
  split; [exact Hmap|exact Hsize].
Defined.

(** The theorem of X7 at [tracker_two]: frame 2 is accessed and then evicted
    although frame 1 is evictable. *)
Lemma most_recent_is_evicted_last_witness :
  reachable tracker_two ∧ is_frame_id_t 2 ∧
  (Evict (RecordAccess 2 tracker_two).2).1 = Some 2 ∧ 1 ≠ 2 ∧
  frame_map_ (RecordAccess 2 tracker_two).2 !! 1
    = Some {| frame_id_ := 1; count_ := 3; evictable_ := true |} ∧
  count_ (accessed 2 tracker_two) < k_ tracker_two ∧ k_ tracker_two <= 3.
Proof.
  assert (is_frame_id_t 2) as Hid by (unfold is_frame_id_t; lia).
  assert ((Evict (RecordAccess 2 tracker_two).2).1 = Some 2) as Hev
    by (vm_compute; reflexivity).
  assert (1 ≠ 2) as Hne by lia.
  assert (frame_map_ (RecordAccess 2 tracker_two).2 !! 1
          = Some {| frame_id_ := 1; count_ := 3; evictable_ := true |}) as Hg
    by (vm_compute; reflexivity).
  split; [exact tracker_two_reachable|]. split; [exact Hid|].
  split; [exact Hev|]. split; [exact Hne|]. split; [exact Hg|].
  exact (most_recent_is_evicted_last tracker_two 2 1 _
           tracker_two_reachable Hid Hev Hne Hg eq_refl).
Defined.

(** The theorem of X8 at [tracker_two]. *)
Lemma every_frame_is_in_its_segment_witness :
  reachable tracker_two ∧
  NoDup (cache_list (list_ tracker_two) ++ history_list (list_ tracker_two)).
Proof.
  split; [exact tracker_two_reachable|].
  exact (proj1 (every_frame_is_in_its_segment tracker_two
                  tracker_two_reachable)).
Defined.

(** The theorem of X9 at [tracker_two]: frame 1, with three accesses, is
    removed and accessed again; frame 2 is evicted and accessed again. *)
Lemma eviction_forgets_the_history_witness :
  reachable tracker_two ∧
  frame_map_ tracker_two !! 1
    = Some {| frame_id_ := 1; count_ := 3; evictable_ := true |} ∧
  frame_map_ (RecordAccess 1 (Remove 1 tracker_two).2).2 !! 1
    = Some (Node_new 1) ∧
  (Evict tracker_two).1 = Some 2 ∧
  frame_map_ (RecordAccess 2 (Evict tracker_two).2).2 !! 2
    = Some (Node_new 2).
Proof.
  assert (frame_map_ tracker_two !! 1
          = Some {| frame_id_ := 1; count_ := 3; evictable_ := true |}) as H1
    by (vm_compute; reflexivity).
  assert ((Evict tracker_two).1 = Some 2) as Hev by (vm_compute; reflexivity).
  split; [exact tracker_two_reachable|]. split; [exact H1|].
  split;
    [exact (proj1 (eviction_forgets_the_history tracker_two 1
                     tracker_two_reachable) _ H1 eq_refl)|].
  split; [exact Hev|].
  exact (proj2 (eviction_forgets_the_history tracker_two 2
                  tracker_two_reachable) Hev).
Defined.

(** The theorem of X10 at [tracker_two]: frame 1 is removed. *)
Lemma Remove_takes_one_off_Size_witness :
  reachable tracker_two ∧
  frame_map_ tracker_two !! 1
    = Some {| frame_id_ := 1; count_ := 3; evictable_ := true |} ∧
  Size (Remove 1 tracker_two).2 = Size tracker_two - 1 ∧
  frame_map_ (Remove 1 tracker_two).2 !! 2 = frame_map_ tracker_two !! 2.
Proof.
  assert (frame_map_ tracker_two !! 1
          = Some {| frame_id_ := 1; count_ := 3; evictable_ := true |}) as H1
    by (vm_compute; reflexivity).
  pose proof (Remove_takes_one_off_Size tracker_two 1 _
                tracker_two_reachable H1 eq_refl) as (Hsize & _ & _ & Hrest).
  split; [exact tracker_two_reachable|]. split; [exact H1|].
  split; [exact Hsize|]. apply Hrest. lia.
Defined.

(** The theorem of X11 at [tracker_two], where two frames are evictable and
    [Evict] is called five times. *)
Lemma Evict_succeeds_Size_times_witness :
  reachable tracker_two ∧
  Z.of_nat (length (evict_up_to 5 tracker_two))
    = Z.min (Z.of_nat 5) (Size tracker_two).
Proof.
  split; [exact tracker_two_reachable|].
  exact (Evict_succeeds_Size_times tracker_two 5 tracker_two_reachable).
Defined.

(** The theorem of X12 at [tracker_two], where frame 2 is evictable. *)
Lemma Size_never_underflows_witness :
  reachable tracker_two ∧
  frame_map_ tracker_two !! 2
    = Some {| frame_id_ := 2; count_ := 1; evictable_ := true |} ∧
  1 <= Size tracker_two ∧
  Size tracker_two <= Z.of_nat (size (frame_map_ tracker_two)).
Proof.
  assert (frame_map_ tracker_two !! 2
          = Some {| frame_id_ := 2; count_ := 1; evictable_ := true |}) as H2
    by (vm_compute; reflexivity).
  destruct (Size_never_underflows tracker_two tracker_two_reachable)
    as [[_ Hle] Hone].
  split; [exact tracker_two_reachable|]. split; [exact H2|].
  split; [exact (Hone 2 _ H2 eq_refl)|exact Hle].
Defined.

End ReplacerMore.

(** * More about machine arithmetic *)

Lemma mod_pow2_succ_inv x y d :
  0 <= d → x mod 2 ^ (d + 1) = y mod 2 ^ (d + 1) →
  x mod 2 ^ d = y mod 2 ^ d ∧ Z.testbit x d = Z.testbit y d.
Proof.
  intros Hd Hxy. split.
  - apply (mod_pow2_le _ _ (d + 1)); [lia|done].
  - rewrite <-(testbit_mod_pow2 x (d + 1) d), <-(testbit_mod_pow2 y (d + 1) d)
      by lia.
    by rewrite Hxy.
Qed.

Lemma low_half_bit x d : 0 <= d → Z.testbit (x mod 2 ^ d) d = false.
Proof. intros Hd. apply Z.mod_pow2_bits_high. lia. Qed.

Lemma high_half_bit x d :
  0 <= d →
  (x mod 2 ^ d + 2 ^ d) mod 2 ^ d = x mod 2 ^ d ∧
  Z.testbit (x mod 2 ^ d + 2 ^ d) d = true.
Proof.
  intros Hd. pose proof (Z.pow_pos_nonneg 2 d ltac:(lia) Hd) as Hpos.
  pose proof (Z.mod_pos_bound x (2 ^ d) Hpos) as Hx.
  assert ((x mod 2 ^ d + 2 ^ d) mod 2 ^ d = x mod 2 ^ d) as Hlow.
  { rewrite <-(Z.mul_1_l (2 ^ d)) at 2. rewrite Z.mod_add by lia.
    apply Z.mod_mod. lia. }
  split; [done|].
  pose proof (mod_pow2_succ (x mod 2 ^ d + 2 ^ d) d Hd) as Hsucc.
  rewrite Hlow in Hsucc.
  rewrite Z.mod_small in Hsucc
    by (rewrite Z.pow_add_r, Z.pow_1_r by lia; lia).
  destruct (Z.testbit _ d); [done | lia].
Qed.

(** * More about the buckets *)

Section BucketMore.

Import Table.

Context {K V : Type} `{EqDecision K}.

Implicit Types (b : @Bucket K V) (key : K) (value : V).

(** X13: [Bucket::Insert(key, value)] returns false exactly when the key
    is absent and the bucket is full, and then the bucket is unchanged; when
    it returns true [Bucket::Find(key)] gives [value], the other keys keep
    their values, and a bucket within its capacity stays within it. *)
Theorem Bucket_Insert_fails_iff_full key value b :
  ((Bucket_Insert key value b).1 = false ↔
     (key ∉ (list_ b).*1) ∧ IsFull b = true) ∧
  ((Bucket_Insert key value b).1 = false →
     (Bucket_Insert key value b).2 = b) ∧
  ((Bucket_Insert key value b).1 = true →
     Bucket_Find key (Bucket_Insert key value b).2 = Some value ∧
     (∀ k, k ≠ key →
        Bucket_Find k (Bucket_Insert key value b).2 = Bucket_Find k b) ∧
     (Z.of_nat (length (list_ b)) <= size_ b →
      Z.of_nat (length (list_ (Bucket_Insert key value b).2)) <= size_ b)).
Proof.
  destruct (Bucket_Insert key value b) as [[] b'] eqn:Hins; simpl.
  - destruct ((Bucket_Insert_true (λ _ : K, 0)) _ _ _ _ Hins)
      as (_ & _ & Hfind & Hother & _ & _ & Hlen).
    split_and!; [|done|done].
    split; [done|]. intros [Hkey Hfull]. revert Hins.
    unfold Bucket_Insert.
    apply (assign_item_None (λ _ : K, 0) key value) in Hkey.
    by rewrite Hkey, Hfull.
  - destruct ((Bucket_Insert_false (λ _ : K, 0)) _ _ _ _ Hins) as (-> & Hkey & Hfull).
    split_and!; [|done|done].
    split; [|done]. intros _. split; [done|].
    unfold IsFull. by apply Z.eqb_eq.
Qed.

Lemma Bucket_Remove_found_iff_present_aux key b :
  ((Bucket_Remove key b).1 = true ↔ key ∈ (list_ b).*1) ∧
  ((Bucket_Remove key b).1 = false → (Bucket_Remove key b).2 = b).
Proof.
  split; unfold Bucket_Remove;
    destruct (erase_item key (list_ b)) as [items'|] eqn:He; simpl;
    try done.
  - split; [intros _|done].
    destruct (decide (key ∈ (list_ b).*1)) as [|Hn]; [done|].
    apply (erase_item_None (λ _ : K, 0)) in Hn. congruence.
  - apply (erase_item_None (λ _ : K, 0)) in He. split; [done | by intros ?].
Qed.

(** X14: [Bucket::Remove(key)] returns true exactly when the key is in the
    bucket, and leaves the bucket unchanged when it returns false;
    afterwards the key is not found (keys being distinct), the other keys
    keep their values and the bucket has not grown. *)
Theorem Bucket_Remove_found_iff_present key b :
  ((Bucket_Remove key b).1 = true ↔ key ∈ (list_ b).*1) ∧
  ((Bucket_Remove key b).1 = false → (Bucket_Remove key b).2 = b) ∧
  (NoDup (list_ b).*1 → Bucket_Find key (Bucket_Remove key b).2 = None) ∧
  (∀ k, k ≠ key →
     Bucket_Find k (Bucket_Remove key b).2 = Bucket_Find k b) ∧
  (length (list_ (Bucket_Remove key b).2) ≤ length (list_ b))%nat.
Proof.
  pose proof ((Bucket_Remove_spec (λ _ : K, 0)) key b) as (_ & _ & _ & Hlen & Hnd & Hother).
  destruct (Bucket_Remove_found_iff_present_aux key b) as [Hiff Hsame].
  split_and!; [done|done|by intros (_ & ?)%Hnd|done|done].
Qed.

End BucketMore.

(** * More about the extendible hash table *)

Section TableMore.

Import Table.

Context {K V : Type} `{EqDecision K}.
Variable hash : K → Z.

Implicit Types (items : list (K * V)) (b : @Bucket K V)
  (t : @ExtendibleHashTable K V) (key k : K) (value v : V).

(** ** The tight invariant *)

Lemma buckets_le_dir t :
  tight t → (length (buckets t) ≤ length (dir_ t))%nat.
Proof.
  intros Ht.
  assert (seq 0 (length (buckets t)) ⊆+ default 0%nat <$> dir_ t) as Hsub.
  { apply NoDup_submseteq; [apply NoDup_seq|].
    intros a [_ Ha]%elem_of_seq.
    destruct (tight_used _ Ht a ltac:(lia)) as [i Hi].
    apply list_elem_of_fmap. exists (Some a). split; [done|].
    by eapply list_elem_of_lookup_2. }
  apply submseteq_length in Hsub.
  by rewrite length_seq, length_fmap in Hsub.
Qed.

Lemma tight_new bucket_size :
  tight (ExtendibleHashTable_new bucket_size : @ExtendibleHashTable K V).
Proof.
  split; simpl.
  - intros i [|j] a b; [|lia]. intros Hi. apply lookup_lt_Some in Hi as Hlt.
    simpl in Hlt. by replace i with 0%nat in * by lia.
  - intros [|a]; [|lia]. by exists 0%nat.
  - done.
Qed.

Lemma tight_put_bucket t a b b' :
  tight t → buckets t !! a = Some b → depth_ b' = depth_ b →
  tight (put_bucket a b' t).
Proof.
  intros Ht Hb Hdepth.
  assert (a < length (buckets t))%nat as Ha by by eapply lookup_lt_Some.
  split; simpl.
  - intros i j c bc Hi Hc Hj Hmod.
    destruct (decide (c = a)) as [->|Hne].
    + rewrite list_lookup_insert_eq in Hc by done. injection Hc as <-.
      rewrite Hdepth in Hmod. by apply (tight_fill _ Ht i j a b).
    + rewrite list_lookup_insert_ne in Hc by done.
      by apply (tight_fill _ Ht i j c bc).
  - intros c. rewrite length_insert. apply (tight_used _ Ht).
  - rewrite length_insert. apply (tight_count _ Ht).
Qed.

Lemma tight_ExpandTable t :
  wf hash t → tight t → global_depth_ t < 30 → tight (ExpandTable t).
Proof.
  intros Hwf Ht Hlt.
  pose proof (wf_depth _ _ Hwf) as Hd.
  pose proof (wf_length _ _ Hwf) as Hlen.
  assert (0 < 2 ^ global_depth_ t) as Hpos by (apply Z.pow_pos_nonneg; lia).
  assert (0 < length (dir_ t))%nat as Hnz by lia.
  split.
  - intros i j a b. rewrite ExpandTable_dir, length_app.
    intros Hi Hb Hj Hmod.
    pose proof (lookup_lt_Some _ _ _ Hi) as Hlti. rewrite length_app in Hlti.
    rewrite lookup_double in Hi |- * by lia.
    destruct (wf_bucket _ _ Hwf a b Hb) as (Hdb & _).
    apply (tight_fill _ Ht (i `mod` length (dir_ t))%nat _ a b); [done|done| |].
    + apply Nat.mod_upper_bound. lia.
    + rewrite !Nat2Z.inj_mod, Hlen. by rewrite !mod_pow2_mod by lia.
  - intros a Ha. destruct (tight_used _ Ht a Ha) as [i Hi]. exists i.
    rewrite ExpandTable_dir. rewrite lookup_app_l; [done|].
    by eapply lookup_lt_Some.
  - apply (tight_count _ Ht).
Qed.


(** The slots and the store after a split. *)
Lemma SplitBucket_dir_lookup t a b0 (i : nat) :
  wf hash t → buckets t !! a = Some b0 → depth_ b0 < global_depth_ t →
  dir_ (SplitBucket hash a t) !! i =
  (λ slot, if decide (slot = Some a)
           then if Z.testbit (Z.of_nat i) (depth_ b0)
                then Some (length (buckets t)) else slot
           else slot) <$> dir_ t !! i.
Proof.
  intros Hwf Hb Hlt. destruct (wf_bucket _ _ Hwf _ _ Hb) as (Hd & _).
  rewrite (SplitBucket_eq hash t a b0) by done. simpl.
  rewrite list_lookup_imap. destruct (dir_ t !! i) as [slot|]; [|done].
  simpl. by rewrite repoint_testbit by lia.
Qed.

Lemma SplitBucket_slot t a b0 (i : nat) c :
  wf hash t → buckets t !! a = Some b0 → depth_ b0 < global_depth_ t →
  dir_ (SplitBucket hash a t) !! i = Some (Some c) ↔
  (c = length (buckets t) ∧ dir_ t !! i = Some (Some a) ∧
   Z.testbit (Z.of_nat i) (depth_ b0) = true) ∨
  (c = a ∧ dir_ t !! i = Some (Some a) ∧
   Z.testbit (Z.of_nat i) (depth_ b0) = false) ∨
  (c ≠ a ∧ c ≠ length (buckets t) ∧ dir_ t !! i = Some (Some c)).
Proof.
  intros Hwf Hb Hlt.
  assert (a < length (buckets t))%nat as Ha by by eapply lookup_lt_Some.
  rewrite (SplitBucket_dir_lookup t a b0) by done.
  destruct (dir_ t !! i) as [slot|] eqn:Hslot; simpl; [|naive_solver].
  destruct (wf_slot _ _ Hwf _ _ Hslot) as (c0 & bc0 & -> & Hc0).
  assert (c0 < length (buckets t))%nat by by eapply lookup_lt_Some.
  destruct (decide (Some c0 = Some a)) as [[= ->]|Hne].
  - destruct (Z.testbit (Z.of_nat i) (depth_ b0)) eqn:Hbit; split.
    + intros [= <-]. by left.
    + intros [(-> & _)|[(-> & _ & Hb')|(? & ? & [= ?])]]; [done|lia|done].
    + intros [= <-]. right. by left.
    + intros [(_ & _ & Hb')|[(-> & _)|(? & ? & [= ?])]]; done.
  - split.
    + intros [= <-]. right. right. split_and!; [congruence|lia|done].
    + intros [(_ & [= ->] & _)|[(_ & [= ->] & _)|(_ & _ & [= ->])]]; done.
Qed.

Lemma SplitBucket_store t a b0 c bc :
  wf hash t → buckets t !! a = Some b0 → depth_ b0 < global_depth_ t →
  buckets (SplitBucket hash a t) !! c = Some bc →
  (depth_ bc = depth_ b0 + 1 ∧ (c = a ∨ c = length (buckets t))) ∨
  (c ≠ a ∧ c ≠ length (buckets t) ∧ buckets t !! c = Some bc).
Proof.
  intros Hwf Hb Hlt.
  assert (a < length (buckets t))%nat as Ha by by eapply lookup_lt_Some.
  rewrite (SplitBucket_eq hash t a b0) by done. simpl.
  destruct (decide (c < length (buckets t))%nat) as [Hin|Hout].
  - rewrite lookup_app_l by (rewrite length_insert; lia).
    destruct (decide (c = a)) as [->|Hne].
    + rewrite list_lookup_insert_eq by done. intros [= <-]. left. auto.
    + rewrite list_lookup_insert_ne by done. intros Hc. right.
      split_and!; [done|lia|done].
  - rewrite lookup_app_r by (rewrite length_insert; lia).
    rewrite length_insert.
    destruct (c - length (buckets t))%nat as [|n] eqn:Hn; simpl.
    + intros [= <-]. left. split; [done|]. right. lia.
    + by rewrite lookup_nil.
Qed.

Lemma SplitBucket_store_length t a b0 :
  wf hash t → buckets t !! a = Some b0 → depth_ b0 < global_depth_ t →
  length (buckets (SplitBucket hash a t)) = S (length (buckets t)).
Proof.
  intros Hwf Hb Hlt. rewrite (SplitBucket_eq hash t a b0) by done. simpl.
  rewrite length_app, length_insert. simpl. lia.
Qed.

Lemma tight_SplitBucket t a b0 :
  wf hash t → tight t → buckets t !! a = Some b0 →
  depth_ b0 < global_depth_ t →
  tight (SplitBucket hash a t).
Proof.
  intros Hwf Ht Hb Hlt.
  destruct (wf_bucket _ _ Hwf _ _ Hb) as (Hd & _).
  pose proof (wf_depth _ _ Hwf) as Hgd.
  pose proof (wf_length _ _ Hwf) as Hlen.
  assert (a < length (buckets t))%nat as Ha by by eapply lookup_lt_Some.
  split.
  - intros i j c bc Hi Hc. rewrite SplitBucket_dir_length. intros Hj Hmod.
    apply (SplitBucket_slot t a b0) in Hi; [|done..].
    apply (SplitBucket_slot t a b0); [done..|].
    apply (SplitBucket_store t a b0) in Hc; [|done..].
    destruct Hc as [[Hdepth Hc]|(Hca & Hcn & Hc)].
    + rewrite Hdepth in Hmod.
      apply mod_pow2_succ_inv in Hmod as [Hmod Hbit]; [|lia].
      destruct Hi as [(-> & Hi & Hbi)|[(-> & Hi & Hbi)|(? & ? & _)]];
        [| |lia].
      * left. split_and!; [done| |congruence].
        by apply (tight_fill _ Ht i j a b0).
      * right. left. split_and!; [done| |congruence].
        by apply (tight_fill _ Ht i j a b0).
    + destruct Hi as [(-> & _)|[(-> & _)|(_ & _ & Hi)]]; [done|done|].
      right. right. split_and!; [done|done|].
      by apply (tight_fill _ Ht i j c bc).
  - intros c. rewrite (SplitBucket_store_length t a b0) by done. intros Hc.
    assert (0 < 2 ^ depth_ b0) as Hpos by (apply Z.pow_pos_nonneg; lia).
    assert (2 ^ (depth_ b0 + 1) <= 2 ^ global_depth_ t) as Hpow
      by (apply Z.pow_le_mono_r; lia).
    rewrite Z.pow_add_r, Z.pow_1_r in Hpow by lia.
    destruct (tight_used _ Ht a Ha) as [i0 Hi0].
    pose proof (Z.mod_pos_bound (Z.of_nat i0) (2 ^ depth_ b0) Hpos) as Hrange.
    destruct (decide (c = length (buckets t))) as [->|Hcn];
      [|destruct (decide (c = a)) as [->|Hca]].
    + exists (Z.to_nat (Z.of_nat i0 mod 2 ^ depth_ b0 + 2 ^ depth_ b0)).
      apply (SplitBucket_slot t a b0); [done..|]. left.
      destruct (high_half_bit (Z.of_nat i0) (depth_ b0)) as [Hlow Hbit];
        [lia|].
      rewrite Z2Nat.id by lia. split_and!; [done| |done].
      apply (tight_fill _ Ht i0 _ a b0); [done|done|lia|].
      by rewrite Z2Nat.id by lia.
    + exists (Z.to_nat (Z.of_nat i0 mod 2 ^ depth_ b0)).
      apply (SplitBucket_slot t a b0); [done..|]. right. left.
      rewrite Z2Nat.id by lia. split_and!; [done| |by apply low_half_bit; lia].
      apply (tight_fill _ Ht i0 _ a b0); [done|done|lia|].
      rewrite Z2Nat.id by lia. apply Z.mod_mod. lia.
    + destruct (tight_used _ Ht c ltac:(lia)) as [i Hi]. exists i.
      apply (SplitBucket_slot t a b0); [done..|]. right. right. done.
  - rewrite (SplitBucket_store_length t a b0) by done.
    rewrite (SplitBucket_eq hash t a b0) by done. simpl.
    pose proof (buckets_le_dir t Ht).
    pose proof (pow2_le_30 (global_depth_ t) Hgd).
    rewrite (tight_count _ Ht). rewrite to_int_small; lia.
Qed.


Lemma Bucket_Insert_depth key value b :
  depth_ (Bucket_Insert key value b).2 = depth_ b.
Proof.
  unfold Bucket_Insert. destruct (assign_item _ _ _); [done|].
  by destruct (IsFull b).
Qed.

Lemma Bucket_Remove_depth key b : depth_ (Bucket_Remove key b).2 = depth_ b.
Proof. unfold Bucket_Remove. by destruct (erase_item _ _). Qed.

Lemma Insert_loop_tight fuel key value t t' :
  wf hash t → tight t →
  Insert_loop hash fuel key value t (IndexOf hash t key) = Some t' →
  Z.of_nat (length (dir_ t')) <= 2 ^ 30 →
  tight t'.
Proof.
  revert t. induction fuel as [|fuel IH]; intros t Hwf Ht;
    rewrite Insert_loop_unfold;
    destruct (wf_bucket_of hash t key Hwf) as (a & b & Hat); rewrite Hat;
    pose proof Hat as (_ & _ & Hb)%bucket_at_Some;
    pose proof (Bucket_Insert_depth key value b) as Hdepth;
    (destruct (Bucket_Insert key value b) as [[] b'] eqn:Hins);
    try done;
    try (intros [= <-] _; by apply (tight_put_bucket t a b b')).
  intros Hloop Hbound.
  assert (GetDepth b = global_depth_ t → global_depth_ t < 30) as Hroom.
  { intros Heq. apply Z.eqb_eq in Heq. rewrite Heq in Hloop.
    cbv iota beta in Hloop. revert Hloop.
    destruct (bucket_at (ExpandTable t) _) as [[a1 b1]|]; [|done].
    intros Hloop%Insert_loop_dir_length.
    rewrite SplitBucket_dir_length, ExpandTable_dir, length_app in Hloop.
    pose proof (wf_length _ _ Hwf) as Hlen.
    pose proof (wf_depth _ _ Hwf) as Hgd.
    destruct (decide (global_depth_ t < 30)) as [|Hge]; [done|].
    assert (global_depth_ t = 30) as H30 by lia.
    rewrite H30 in Hlen. lia. }
  assert (tight (if GetDepth b =? global_depth_ t
                 then (ExpandTable t, IndexOf hash (ExpandTable t) key)
                 else (t, IndexOf hash t key)).1) as Ht1.
  { destruct (GetDepth b =? global_depth_ t) eqn:Heq; [|done].
    apply Z.eqb_eq in Heq. simpl. apply tight_ExpandTable; auto. }
  pose proof (Insert_round hash t key a b Hwf Hat Hroom) as Hround.
  revert Hround Hloop Ht1.
  destruct (if GetDepth b =? global_depth_ t
            then (ExpandTable t, IndexOf hash (ExpandTable t) key)
            else (t, IndexOf hash t key)) as [t1 index1].
  intros (Hwf1 & -> & Hat1 & Hlt & _) Hloop Ht1. simpl in Ht1.
  rewrite Hat1 in Hloop.
  pose proof Hat1 as (_ & _ & Hb1)%bucket_at_Some.
  destruct (wf_SplitBucket hash t1 a b Hwf1 Hb1 Hlt) as [Hwf2 _].
  rewrite <-(SplitBucket_IndexOf hash t1 a key) in Hloop.
  apply (IH _ Hwf2); [|done|done].
  by apply (tight_SplitBucket t1 a b).
Qed.

Lemma Remove_eq t key a b :
  wf hash t → bucket_at t (IndexOf hash t key) = Some (a, b) →
  Remove hash t key
  = ((Bucket_Remove key b).1, put_bucket a (Bucket_Remove key b).2 t).
Proof.
  intros Hwf Hat. unfold Remove.
  rewrite (Remove_path_bucket hash t key a b) by done.
  by destruct (Bucket_Remove key b).
Qed.

Lemma reachable_tight bucket_size t :
  reachable hash bucket_size t →
  Z.of_nat (length (dir_ t)) <= 2 ^ 30 → wf hash t ∧ tight t.
Proof.
  induction 1 as [Hbs|t fuel key value t' _ IH Hins|t key _ IH]; intros Hlen.
  - split; [by apply table_wf_new | apply tight_new].
  - pose proof (Insert_dir_length hash _ _ _ _ _ Hins).
    destruct IH as [Hwf Ht]; [lia|]. split.
    + by apply (Insert_spec hash fuel key value t t').
    + by apply (Insert_loop_tight fuel key value t t').
  - rewrite Remove_dir in Hlen. destruct (IH Hlen) as [Hwf Ht].
    split; [by apply table_wf_Remove|].
    destruct (wf_bucket_of hash t key Hwf) as (a & b & Hat).
    pose proof Hat as (_ & _ & Hb)%bucket_at_Some.
    rewrite (Remove_eq t key a b) by done. simpl.
    apply (tight_put_bucket t a b); [done|done|apply Bucket_Remove_depth].
Qed.


(** ** [Remove] on the table *)

Lemma put_bucket_same t a b : buckets t !! a = Some b → put_bucket a b t = t.
Proof.
  intros Hb. unfold put_bucket. rewrite list_insert_id by done.
  by destruct t.
Qed.

Lemma Find_Some_iff t key a b :
  wf hash t → bucket_at t (IndexOf hash t key) = Some (a, b) →
  is_Some (Find hash t key) ↔ key ∈ (list_ b).*1.
Proof.
  intros Hwf Hat. rewrite (Find_bucket hash t key a b) by done.
  split.
  - intros [v Hv]. by eapply (find_item_Some_elem hash).
  - intros Hin. destruct (find_item key (list_ b)) eqn:Hf; [by eexists|].
    by apply (find_item_None hash) in Hf.
Qed.

(** X15: [Remove(key)] on a reachable table returns true exactly when
    [Find(key)] found the key; afterwards the key is not found, every other
    key is found as before, and the global depth, the number of buckets, the
    directory and the local depths are unchanged: [Remove] never merges
    buckets or shrinks the directory. *)
Theorem Remove_reports_presence bucket_size t key :
  reachable hash bucket_size t →
  Z.of_nat (length (dir_ t)) <= 2 ^ 30 →
  ((Remove hash t key).1 = true ↔ is_Some (Find hash t key)) ∧
  Find hash (Remove hash t key).2 key = None ∧
  (∀ k, k ≠ key → Find hash (Remove hash t key).2 k = Find hash t k) ∧
  GetGlobalDepth (Remove hash t key).2 = GetGlobalDepth t ∧
  GetNumBuckets (Remove hash t key).2 = GetNumBuckets t ∧
  dir_ (Remove hash t key).2 = dir_ t ∧
  (∀ i, GetLocalDepth (Remove hash t key).2 i = GetLocalDepth t i).
Proof.
  intros Hreach Hlen.
  pose proof (table_reachable_wf hash _ _ Hreach Hlen) as Hwf.
  destruct (table_wf_Remove hash t key Hwf) as (_ & Hfind & _).
  destruct (wf_bucket_of hash t key Hwf) as (a & b & Hat).
  pose proof Hat as (_ & _ & Hb)%bucket_at_Some.
  destruct (Bucket_Remove_found_iff_present_aux key b) as [Hiff _].
  split_and!.
  - rewrite (Remove_eq t key a b) by done. simpl.
    by rewrite (Find_Some_iff t key a b).
  - by rewrite Hfind, decide_True.
  - intros k Hk. by rewrite Hfind, decide_False.
  - by rewrite (Remove_eq t key a b).
  - by rewrite (Remove_eq t key a b).
  - apply Remove_dir.
  - intros i. rewrite (Remove_eq t key a b) by done. simpl.
    unfold GetLocalDepth. rewrite bucket_at_put_bucket.
    destruct (bucket_at t i) as [[a0 b0]|] eqn:Hi; [|done].
    destruct (decide (a0 = a)) as [->|]; [|done].
    apply bucket_at_Some in Hi as (_ & _ & Hb0).
    assert (b0 = b) as -> by congruence.
    unfold GetDepth. by rewrite Bucket_Remove_depth.
Qed.

(** X16: [Remove(key)] of a key that [Find] does not find returns false
    and leaves the reachable table exactly as it was. *)
Theorem Remove_of_absent_key_changes_nothing bucket_size t key :
  reachable hash bucket_size t →
  Z.of_nat (length (dir_ t)) <= 2 ^ 30 →
  Find hash t key = None →
  Remove hash t key = (false, t).
Proof.
  intros Hreach Hlen Hnone.
  pose proof (table_reachable_wf hash _ _ Hreach Hlen) as Hwf.
  destruct (wf_bucket_of hash t key Hwf) as (a & b & Hat).
  pose proof Hat as (_ & _ & Hb)%bucket_at_Some.
  rewrite (Remove_eq t key a b) by done.
  rewrite (Find_bucket hash t key a b) in Hnone by done.
  apply (find_item_None hash), (erase_item_None hash) in Hnone.
  unfold Bucket_Remove. rewrite Hnone. simpl.
  by rewrite put_bucket_same.
Qed.


(** ** [Insert], [ExpandTable] and [SplitBucket] on reachable tables *)

Lemma global_depth_le_of_dir t t' :
  wf hash t → wf hash t' → (length (dir_ t) ≤ length (dir_ t'))%nat →
  global_depth_ t <= global_depth_ t'.
Proof.
  intros Hwf Hwf' Hlen.
  pose proof (wf_depth _ _ Hwf). pose proof (wf_depth _ _ Hwf').
  apply (Z.pow_le_mono_r_iff 2); [lia..|].
  rewrite <-(wf_length _ _ Hwf), <-(wf_length _ _ Hwf'). lia.
Qed.

Lemma SplitBucket_store_grows t a :
  (length (buckets t) ≤ length (buckets (SplitBucket hash a t)))%nat.
Proof.
  unfold SplitBucket. destruct (buckets t !! a); [|done].
  destruct (split_items _ _ _ _ _). simpl.
  rewrite length_app, length_insert. lia.
Qed.

Lemma Insert_loop_store_grows fuel key value t index t' :
  Insert_loop hash fuel key value t index = Some t' →
  (length (buckets t) ≤ length (buckets t'))%nat.
Proof.
  revert t index. induction fuel as [|fuel IH]; intros t index;
    rewrite Insert_loop_unfold;
    (destruct (bucket_at t index) as [[a b]|]; [|done]);
    (destruct (Bucket_Insert key value b) as [[] b']);
    try done;
    try (intros [= <-]; simpl; by rewrite length_insert).
  destruct (GetDepth b =? global_depth_ t);
    (destruct (bucket_at _ _) as [[a1 b1]|]; [|done]);
    intros Hloop%IH;
    pose proof (SplitBucket_store_grows (ExpandTable t) a1);
    pose proof (SplitBucket_store_grows t a1); simpl in *; lia.
Qed.

(** A key held by a bucket is routed to that bucket. *)
Lemma stored_is_routed t a b k :
  wf hash t → tight t → buckets t !! a = Some b → k ∈ (list_ b).*1 →
  bucket_at t (IndexOf hash t k) = Some (a, b).
Proof.
  intros Hwf Ht Hb Hk.
  destruct (tight_used _ Ht a ltac:(by eapply lookup_lt_Some)) as [i Hi].
  destruct (wf_bucket _ _ Hwf a b Hb) as (Hd & _).
  pose proof (IndexOf_range hash t k Hwf) as Hr.
  apply bucket_at_Some. split_and!; [lia| |done].
  apply (tight_fill _ Ht i _ a b); [done|done|lia|].
  rewrite Z2Nat.id by lia. rewrite IndexOf_mod by apply Hwf.
  rewrite mod_pow2_mod by lia.
  by apply (wf_route _ _ Hwf i a b).
Qed.

(** X17: An [Insert(key, value)] that completes on a reachable table makes
    [Find(key)] return [value] and leaves the value of every other key
    untouched, through any number of directory doublings and bucket splits;
    the global depth and the number of buckets do not decrease, and the
    stored keys are the old ones and [key]. *)
Theorem Insert_keeps_the_other_keys bucket_size fuel key value t t' :
  reachable hash bucket_size t →
  Insert hash fuel key value t = Some t' →
  Z.of_nat (length (dir_ t')) <= 2 ^ 30 →
  Find hash t' key = Some value ∧
  (∀ k, k ≠ key → Find hash t' k = Find hash t k) ∧
  GetGlobalDepth t <= GetGlobalDepth t' ∧
  GetNumBuckets t <= GetNumBuckets t' ∧
  (∀ k, stored t' k ↔ k = key ∨ stored t k).
Proof.
  intros Hreach Hins Hlen.
  pose proof (Insert_dir_length hash _ _ _ _ _ Hins) as Hdir.
  destruct (reachable_tight _ _ Hreach ltac:(lia)) as [Hwf Ht].
  destruct (Insert_spec hash fuel key value t t' Hwf Hins Hlen)
    as (Hwf' & Hfind & Hstored).
  pose proof (Insert_loop_tight fuel key value t t' Hwf Ht Hins Hlen) as Ht'.
  split_and!.
  - by rewrite Hfind, decide_True.
  - intros k Hk. by rewrite Hfind, decide_False.
  - by apply global_depth_le_of_dir.
  - unfold GetNumBuckets. rewrite (tight_count _ Ht), (tight_count _ Ht').
    apply Insert_loop_store_grows in Hins. lia.
  - intros k. split; [apply Hstored|].
    assert (∀ k0, is_Some (Find hash t' k0) → stored t' k0) as Hfs.
    { intros k0 Hk0. destruct (wf_bucket_of hash t' k0 Hwf') as (a & b & Hat).
      apply (Find_Some_iff t' k0 a b) in Hk0; [|done..].
      apply bucket_at_Some in Hat as (_ & _ & Hb). by exists a, b. }
    intros [->|(a & b & Hb & Hk)]; apply Hfs.
    + rewrite Hfind, decide_True by done. by eexists.
    + rewrite Hfind. case_decide; [by eexists|].
      apply (Find_Some_iff t k a b); [done| |done].
      by apply stored_is_routed.
Qed.


(** X18: [ExpandTable] on a reachable table of at most [2 ^ 29] slots
    appends a copy of the directory to itself and raises the global depth by
    one: slot [i + old size] points to the bucket
    of slot [i], no bucket is created, and every key is found as before. *)
Theorem ExpandTable_mirrors_the_directory bucket_size t :
  reachable hash bucket_size t →
  Z.of_nat (length (dir_ t)) <= 2 ^ 29 →
  dir_ (ExpandTable t) = dir_ t ++ dir_ t ∧
  GetGlobalDepth (ExpandTable t) = GetGlobalDepth t + 1 ∧
  GetNumBuckets (ExpandTable t) = GetNumBuckets t ∧
  (∀ i, (i < length (dir_ t))%nat →
     GetLocalDepth (ExpandTable t) (Z.of_nat (i + length (dir_ t)))
     = GetLocalDepth t (Z.of_nat i)) ∧
  (∀ key, Find hash (ExpandTable t) key = Find hash t key).
Proof.
  intros Hreach Hlen.
  destruct (reachable_tight _ _ Hreach ltac:(lia)) as [Hwf Ht].
  assert (global_depth_ t < 30) as Hlt.
  { pose proof (wf_depth _ _ Hwf). rewrite (wf_length _ _ Hwf) in Hlen.
    apply (Z.pow_le_mono_r_iff 2) in Hlen; lia. }
  destruct (wf_ExpandTable hash t Hwf Hlt) as (Hwf' & Hgd & Hbk & Hsame).
  split_and!; [apply ExpandTable_dir|done|done| |].
  - intros i Hi. unfold GetLocalDepth, bucket_at.
    rewrite !(proj2 (Z.ltb_ge _ 0)) by lia. rewrite !Nat2Z.id.
    rewrite ExpandTable_dir, lookup_app_r by lia.
    replace (i + length (dir_ t) - length (dir_ t))%nat with i by lia.
    by rewrite Hbk.
  - intros key. destruct (wf_bucket_of hash t key Hwf) as (a & b & Hat).
    rewrite (Find_bucket hash t key a b) by done.
    apply (Find_bucket hash _ key a); [done|]. by rewrite Hsame.
Qed.

Lemma filter_bit_Permutation (f : K * V → bool) items :
  filter (λ kv, f kv = false) items ++ filter (λ kv, f kv = true) items
  ≡ₚ items.
Proof.
  induction items as [|kv items IH]; [done|].
  destruct (f kv) eqn:Hf.
  - rewrite filter_cons_False by congruence.
    rewrite (filter_cons_True (λ kv, f kv = true)) by done.
    by rewrite <-Permutation_middle, IH.
  - rewrite filter_cons_True by done.
    rewrite (filter_cons_False (λ kv, f kv = true)) by congruence.
    simpl. by rewrite IH.
Qed.

(** X19: [SplitBucket] of a bucket whose local depth is below the global
    depth keeps in it the entries whose hash has bit [depth] clear and moves
    those with the bit set to one new bucket appended to the store; both
    halves get local depth [depth + 1], no entry is lost or duplicated, the
    number of buckets grows by one, and the global depth and the result of
    every [Find] stay the same. *)
Theorem SplitBucket_divides_the_entries bucket_size t a b0 :
  reachable hash bucket_size t →
  Z.of_nat (length (dir_ t)) <= 2 ^ 30 →
  buckets t !! a = Some b0 → depth_ b0 < global_depth_ t →
  ∃ kept moved,
    buckets (SplitBucket hash a t) !! a = Some kept ∧
    buckets (SplitBucket hash a t) !! length (buckets t) = Some moved ∧
    depth_ kept = depth_ b0 + 1 ∧ depth_ moved = depth_ b0 + 1 ∧
    list_ kept = filter (λ kv, Z.testbit (hash kv.1) (depth_ b0) = false)
                   (list_ b0) ∧
    list_ moved = filter (λ kv, Z.testbit (hash kv.1) (depth_ b0) = true)
                    (list_ b0) ∧
    list_ kept ++ list_ moved ≡ₚ list_ b0 ∧
    GetNumBuckets (SplitBucket hash a t) = GetNumBuckets t + 1 ∧
    GetGlobalDepth (SplitBucket hash a t) = GetGlobalDepth t ∧
    (∀ key, Find hash (SplitBucket hash a t) key = Find hash t key).
Proof.
  intros Hreach Hlen Hb Hlt.
  destruct (reachable_tight _ _ Hreach Hlen) as [Hwf Ht].
  assert (a < length (buckets t))%nat as Ha by by eapply lookup_lt_Some.
  pose proof (tight_SplitBucket t a b0 Hwf Ht Hb Hlt) as Ht'.
  pose proof (tight_count _ Ht') as Hcount.
  rewrite (SplitBucket_store_length t a b0) in Hcount by done.
  pose proof (SplitBucket_eq hash t a b0 Hwf Hb Hlt) as Heq.
  eexists _, _. split_and!.
  - rewrite Heq. simpl. rewrite lookup_app_l by (rewrite length_insert; lia).
    by apply list_lookup_insert_eq.
  - rewrite Heq. simpl. rewrite lookup_app_r by (rewrite length_insert; lia).
    by rewrite length_insert, Nat.sub_diag.
  - done.
  - done.
  - done.
  - done.
  - simpl. apply (filter_bit_Permutation
                    (λ kv, Z.testbit (hash kv.1) (depth_ b0))).
  - unfold GetNumBuckets. rewrite Hcount, (tight_count _ Ht). lia.
  - apply SplitBucket_global_depth.
  - intros key. by apply (Find_SplitBucket hash t a b0).
Qed.

(** ** What holds of every reachable table *)

(** X20: In a reachable table every directory slot points to a bucket
    whose local depth is between 0 and the global depth, and the slots that
    point to that same bucket are exactly those that agree with it on the low
    [local depth] bits of the index. *)
Theorem slots_share_by_local_depth bucket_size t (i : nat) :
  reachable hash bucket_size t →
  Z.of_nat (length (dir_ t)) <= 2 ^ 30 →
  (i < length (dir_ t))%nat →
  ∃ a b, dir_ t !! i = Some (Some a) ∧ buckets t !! a = Some b ∧
    GetLocalDepth t (Z.of_nat i) = Some (depth_ b) ∧
    0 <= depth_ b <= GetGlobalDepth t ∧
    ∀ j, (j < length (dir_ t))%nat →
      (dir_ t !! j = Some (Some a) ↔
       Z.of_nat j mod 2 ^ depth_ b = Z.of_nat i mod 2 ^ depth_ b).
Proof.
  intros Hreach Hlen Hi.
  destruct (reachable_tight _ _ Hreach Hlen) as [Hwf Ht].
  destruct (wf_bucket_at hash t (Z.of_nat i) Hwf ltac:(lia)) as (a & b & Hat).
  pose proof Hat as [Hslot Hb]%bucket_at_slot.
  destruct (wf_bucket _ _ Hwf a b Hb) as (Hd & _).
  exists a, b. split_and!; try done.
  - unfold GetLocalDepth. by rewrite Hat.
  - lia.
  - unfold GetGlobalDepth. lia.
  - intros j Hj. split.
    + intros Hjs. by apply (wf_share _ _ Hwf j i a b).
    + intros Hmod. by apply (tight_fill _ Ht i j a b).
Qed.

(** X21: In a reachable table [GetNumBuckets()] is the number of distinct
    buckets the directory points to, which is also the number of buckets
    ever created, and it lies between 1 and [2 ^ GetGlobalDepth()]. *)
Theorem GetNumBuckets_counts_the_buckets bucket_size t :
  reachable hash bucket_size t →
  Z.of_nat (length (dir_ t)) <= 2 ^ 30 →
  GetNumBuckets t = Z.of_nat (size (dir_buckets t)) ∧
  GetNumBuckets t = Z.of_nat (length (buckets t)) ∧
  1 <= GetNumBuckets t <= 2 ^ GetGlobalDepth t.
Proof.
  intros Hreach Hlen.
  destruct (reachable_tight _ _ Hreach Hlen) as [Hwf Ht].
  assert (dir_buckets t = list_to_set (seq 0 (length (buckets t)))) as Hset.
  { unfold dir_buckets. apply set_eq. intros a.
    rewrite !elem_of_list_to_set, list_elem_of_omap, elem_of_seq. split.
    - intros (slot & Hin & Hid). simpl in Hid. subst slot.
      apply list_elem_of_lookup in Hin as [i Hi].
      destruct (wf_slot _ _ Hwf _ _ Hi) as (c & bc & [= <-] & Hc).
      apply lookup_lt_Some in Hc. lia.
    - intros [_ Ha]. destruct (tight_used _ Ht a ltac:(lia)) as [i Hi].
      exists (Some a). split; [|done]. by eapply list_elem_of_lookup_2. }
  unfold GetNumBuckets, GetGlobalDepth. split_and!.
  - rewrite Hset, size_list_to_set by apply NoDup_seq.
    rewrite length_seq. apply (tight_count _ Ht).
  - apply (tight_count _ Ht).
  - rewrite (tight_count _ Ht).
    pose proof (wf_length _ _ Hwf) as Hl.
    pose proof (Z.pow_pos_nonneg 2 (global_depth_ t) ltac:(lia)
                  (proj1 (wf_depth _ _ Hwf))) as Hpos.
    destruct (lookup_lt_is_Some_2 (dir_ t) 0) as [slot Hslot]; [lia|].
    destruct (wf_slot _ _ Hwf _ _ Hslot) as (c & bc & _ & Hc).
    apply lookup_lt_Some in Hc. lia.
  - rewrite (tight_count _ Ht), <-(wf_length _ _ Hwf).
    pose proof (buckets_le_dir t Ht). lia.
Qed.

(** X22: In a reachable table a key is stored in some bucket exactly when
    [Find] finds it; a stored key lies in the bucket its hash is routed to,
    and no key lies in two buckets. *)
Theorem stored_keys_are_found bucket_size t :
  reachable hash bucket_size t →
  Z.of_nat (length (dir_ t)) <= 2 ^ 30 →
  (∀ key, stored t key ↔ is_Some (Find hash t key)) ∧
  (∀ a b key, buckets t !! a = Some b → key ∈ (list_ b).*1 →
     bucket_at t (IndexOf hash t key) = Some (a, b)) ∧
  (∀ a a' b b' key, buckets t !! a = Some b → buckets t !! a' = Some b' →
     key ∈ (list_ b).*1 → key ∈ (list_ b').*1 → a = a').
Proof.
  intros Hreach Hlen.
  destruct (reachable_tight _ _ Hreach Hlen) as [Hwf Ht].
  split_and!.
  - intros key. split.
    + intros (a & b & Hb & Hk).
      apply (Find_Some_iff t key a b); [done| |done].
      by apply stored_is_routed.
    + intros Hsome. destruct (wf_bucket_of hash t key Hwf) as (a & b & Hat).
      apply (Find_Some_iff t key a b) in Hsome; [|done..].
      apply bucket_at_Some in Hat as (_ & _ & Hb). by exists a, b.
  - intros a b key Hb Hk. by apply stored_is_routed.
  - intros a a' b b' key Hb Hb' Hk Hk'.
    pose proof (stored_is_routed t a b key Hwf Ht Hb Hk).
    pose proof (stored_is_routed t a' b' key Hwf Ht Hb' Hk').
    congruence.
Qed.

(** X23: Every bucket of a reachable table has the capacity given to the
    constructor and holds at most that many entries, with distinct keys; its
    local depth is between 0 and the global depth, and the hash of each of
    its keys agrees on the low [local depth] bits with every slot that points
    to the bucket. *)
Theorem buckets_stay_within_capacity bucket_size t a b :
  reachable hash bucket_size t →
  Z.of_nat (length (dir_ t)) <= 2 ^ 30 →
  buckets t !! a = Some b →
  size_ b = bucket_size ∧
  Z.of_nat (length (list_ b)) <= bucket_size ∧
  NoDup (list_ b).*1 ∧
  0 <= GetDepth b <= GetGlobalDepth t ∧
  (∀ key, key ∈ (list_ b).*1 →
     ∀ i, dir_ t !! i = Some (Some a) →
       hash key mod 2 ^ depth_ b = Z.of_nat i mod 2 ^ depth_ b).
Proof.
  intros Hreach Hlen Hb.
  pose proof (table_reachable_wf hash _ _ Hreach Hlen) as Hwf.
  pose proof (reachable_bucket_size hash _ _ Hreach) as Hbs.
  destruct (wf_bucket _ _ Hwf a b Hb) as (Hd & Hs & Hl & Hn).
  unfold GetDepth, GetGlobalDepth.
  split_and!; try done; try lia.
  intros key Hk i Hi. by apply (wf_route _ _ Hwf i a b).
Qed.


(** ** Runs that complete, and a table that never takes an entry *)


(** X24: From a new table of bucket capacity at least 1, a sequence of
    [Insert] and [Remove] calls whose inserted keys differ pairwise in their
    low [W] hash bits runs to its end with at most [W] split rounds per
    call; the directory never exceeds [2 ^ W] slots and [Find] returns for
    every key the value last inserted and not removed since. *)
Theorem runs_on_separated_keys_complete bucket_size (W : Z) ops :
  1 <= bucket_size → 0 <= W <= 30 →
  (∀ k k', k ∈ inserted_keys ops → k' ∈ inserted_keys ops →
           k ≠ k' → hash k mod 2 ^ W ≠ hash k' mod 2 ^ W) →
  ∃ t, run hash (Z.to_nat W) ops (ExtendibleHashTable_new bucket_size) = Some t ∧
       Z.of_nat (length (dir_ t)) <= 2 ^ W ∧
       ∀ key, Find hash t key = last_inserted ops key None.
Proof. apply run_new_total. Qed.

Lemma Insert_loop_capacity_0 fuel key value t index :
  bucket_size_ t = 0 →
  (∀ a b, buckets t !! a = Some b → list_ b = [] ∧ size_ b = 0) →
  Insert_loop hash fuel key value t index = None.
Proof.
  revert t index. induction fuel as [|fuel IH]; intros t index Hbs Hall;
    rewrite Insert_loop_unfold;
    (destruct (bucket_at t index) as [[a b]|] eqn:Hat; [|done]);
    apply bucket_at_Some in Hat as (_ & _ & Hb);
    destruct (Hall a b Hb) as [Hlist Hsize];
    unfold Bucket_Insert, IsFull; rewrite Hlist, Hsize; simpl; [done|].
  assert (∀ t1 a1, bucket_size_ t1 = 0 →
            (∀ a b, buckets t1 !! a = Some b → list_ b = [] ∧ size_ b = 0) →
            Insert_loop hash fuel key value (SplitBucket hash a1 t1)
              (IndexOf hash t1 key) = None ∧
            ∀ index1, Insert_loop hash fuel key value (SplitBucket hash a1 t1)
              index1 = None) as Hsplit.
  { intros t1 a1 Hbs1 Hall1.
    assert (bucket_size_ (SplitBucket hash a1 t1) = 0) as Hbs2
      by by rewrite SplitBucket_bucket_size.
    assert (∀ a b, buckets (SplitBucket hash a1 t1) !! a = Some b →
              list_ b = [] ∧ size_ b = 0) as Hall2.
    { unfold SplitBucket. destruct (buckets t1 !! a1) as [b0|] eqn:Hb0;
        [|done].
      destruct (Hall1 a1 b0 Hb0) as [Hl0 Hs0].
      unfold GetItems, IncrementDepth. simpl. rewrite Hl0. simpl.
      intros c bc Hc.
      apply lookup_app_Some in Hc as [Hc|[_ Hc]].
      - apply list_lookup_insert_Some in Hc as [(_ & <- & _)|[_ Hc]];
          [done | by apply (Hall1 c)].
      - apply list_lookup_singleton_Some in Hc as [_ <-]. done. }
    split; [|intros index1]; by apply IH. }
  destruct (GetDepth b =? global_depth_ t).
  - destruct (bucket_at (ExpandTable t) _) as [[a1 b1]|]; [|done].
    by apply (Hsplit (ExpandTable t) a1).
  - destruct (bucket_at t index) as [[a1 b1]|]; [|done].
    by apply (Hsplit t a1).
Qed.

(** X25: In a table constructed with bucket capacity 0 no [Insert]
    completes, whatever the number of split rounds allowed: every bucket is
    full while empty, so each round ends in a full bucket again. *)
Theorem capacity_0_never_takes_an_entry t fuel key value :
  reachable hash 0 t → Insert hash fuel key value t = None.
Proof.
  intros Hreach. unfold Insert.
  assert (bucket_size_ t = 0 ∧
          ∀ a b, buckets t !! a = Some b → list_ b = [] ∧ size_ b = 0)
    as [Hbs Hall]; [|by apply Insert_loop_capacity_0].
  induction Hreach as [Hz|t fuel' k v t' _ IH Hins|t k _ IH].
  - split; [done|]. intros [|a] b; simpl; [|done]. by intros [= <-].
  - destruct IH as [Hbs Hall]. unfold Insert in Hins.
    by rewrite Insert_loop_capacity_0 in Hins.
  - destruct IH as [Hbs Hall]. unfold Remove.
    destruct (Remove_path hash t k) as [| |a b] eqn:Hpath; [done..|].
    assert (buckets t !! a = Some b) as Hb.
    { revert Hpath. unfold Remove_path. destruct (_ <? _); [done|].
      destruct (bucket_at t _) as [[a0 b0]|] eqn:Hat; [|done].
      intros [= <- <-]. by apply bucket_at_Some in Hat as (_ & _ & ?). }
    destruct (Hall a b Hb) as [Hl Hs].
    unfold Bucket_Remove. rewrite Hl. simpl.
    split; [done|]. rewrite list_insert_id by done. apply Hall.
Qed.

End TableMore.

(** * More about the table on [int] keys *)

Section IntTableMore.

Import Table.

Lemma hash_int_low_bits (W k : Z) :
  0 <= W <= 30 → 0 <= k < 2 ^ W → hash_int k mod 2 ^ W = k.
Proof.
  intros HW Hk. pose proof (pow2_le_30 W HW).
  unfold hash_int, to_size_t. rewrite (Z.mod_small k) by lia.
  by apply Z.mod_small.
Qed.

(** X26: With [int] keys and [std::hash<int>], a sequence of calls whose
    inserted keys lie in [0, 2 ^ W) runs to its end from a new table of
    bucket capacity at least 1; the global depth stays at most [W] and [Find]
    returns the value last inserted and not removed since. *)
Theorem int_keys_below_2_pow_W_complete bucket_size (W : Z)
    (ops : list (@op Z string)) :
  1 <= bucket_size → 0 <= W <= 30 →
  (∀ k, k ∈ inserted_keys ops → 0 <= k < 2 ^ W) →
  ∃ t, run hash_int (Z.to_nat W) ops (ExtendibleHashTable_new bucket_size)
         = Some t ∧
       GetGlobalDepth t <= W ∧
       ∀ key, Find hash_int t key = last_inserted ops key None.
Proof.
  intros Hbs HW Hkeys.
  destruct (run_new_total hash_int bucket_size W ops Hbs HW)
    as (t & Hrun & Hlen & Hfind).
  { intros k k' Hk Hk' Hne.
    rewrite !hash_int_low_bits by auto. done. }
  exists t. split_and!; [done| |done].
  assert (2 ^ W <= 2 ^ 30) by (apply Z.pow_le_mono_r; lia).
  assert (wf hash_int t) as Hwf.
  { apply (table_reachable_wf hash_int bucket_size); [|lia].
    apply (run_reachable hash_int bucket_size _ _ _ _ ltac:(apply reach_new; lia)
             Hrun). }
  unfold GetGlobalDepth. pose proof (wf_depth _ _ Hwf).
  rewrite (wf_length _ _ Hwf) in Hlen.
  apply (Z.pow_le_mono_r_iff 2); lia.
Qed.

(** ** The theorems above at concrete tables *)

(** The theorem of X13 at a full bucket holding the keys 0 and 1024: key
    2048 is refused, key 0 is overwritten. *)
Lemma Bucket_Insert_fails_iff_full_witness :
  (Bucket_Insert 2048 "c"
     {| size_ := 2; depth_ := 0; list_ := [(0, "a"); (1024, "b")] |}).1
    = false ∧
  (2048 ∉ [0; 1024]) ∧
  (Bucket_Insert 2048 "c"
     {| size_ := 2; depth_ := 0; list_ := [(0, "a"); (1024, "b")] |}).2
    = {| size_ := 2; depth_ := 0; list_ := [(0, "a"); (1024, "b")] |} ∧
  (Bucket_Insert 0 "z"
     {| size_ := 2; depth_ := 0; list_ := [(0, "a"); (1024, "b")] |}).1
    = true ∧
  Bucket_Find 0
    (Bucket_Insert 0 "z"
       {| size_ := 2; depth_ := 0; list_ := [(0, "a"); (1024, "b")] |}).2
    = Some "z".
Proof.
  pose (b := {| size_ := 2; depth_ := 0;
                list_ := [(0, "a"); (1024, "b")] |} : @Bucket Z string).
  assert ((Bucket_Insert 2048 "c" b).1 = false) as Hfull
    by (vm_compute; reflexivity).
  assert ((Bucket_Insert 0 "z" b).1 = true) as Hold
    by (vm_compute; reflexivity).
  destruct (Bucket_Insert_fails_iff_full 2048 "c" b) as (Hiff & Hsame & _).
  destruct (Bucket_Insert_fails_iff_full 0 "z" b) as (_ & _ & Hdone).
  split; [exact Hfull|]. split; [exact (proj1 (proj1 Hiff Hfull))|].
  split; [exact (Hsame Hfull)|]. split; [exact Hold|].
  exact (proj1 (Hdone Hold)).
Defined.

(** The theorem of X14 at a bucket holding the keys 0 and 1024. *)
Lemma Bucket_Remove_found_iff_present_witness :
  0 ∈ [0; 1024] ∧
  (Bucket_Remove 0
     {| size_ := 2; depth_ := 0; list_ := [(0, "a"); (1024, "b")] |}).1
    = true ∧
  (Bucket_Remove 7
     {| size_ := 2; depth_ := 0; list_ := [(0, "a"); (1024, "b")] |}).1
    = false ∧
  (Bucket_Remove 7
     {| size_ := 2; depth_ := 0; list_ := [(0, "a"); (1024, "b")] |}).2
    = {| size_ := 2; depth_ := 0; list_ := [(0, "a"); (1024, "b")] |}.
Proof.
  pose (b := {| size_ := 2; depth_ := 0;
                list_ := [(0, "a"); (1024, "b")] |} : @Bucket Z string).
  assert (0 ∈ [0; 1024]) as Hin by left.
  assert ((Bucket_Remove 7 b).1 = false) as Hout by (vm_compute; reflexivity).
  split; [exact Hin|].
  split; [exact (proj2 (proj1 (Bucket_Remove_found_iff_present 0 b)) Hin)|].
  split; [exact Hout|].
  exact (proj1 (proj2 (Bucket_Remove_found_iff_present 7 b)) Hout).
Defined.

(** The theorem of X15 at [deep_table] and key 4. *)
Lemma Remove_reports_presence_witness :
  reachable hash_int 2 deep_table ∧
  Z.of_nat (length (dir_ deep_table)) <= 2 ^ 30 ∧
  Find hash_int (Remove hash_int deep_table 4).2 4 = None ∧
  Find hash_int (Remove hash_int deep_table 4).2 8 = Find hash_int deep_table 8 ∧
  dir_ (Remove hash_int deep_table 4).2 = dir_ deep_table.
Proof.
  destruct (Remove_reports_presence hash_int 2 deep_table 4
              deep_table_reachable deep_table_length)
    as (_ & Hgone & Hrest & _ & _ & Hdir & _).
  split; [exact deep_table_reachable|]. split; [exact deep_table_length|].
  split; [exact Hgone|]. split; [|exact Hdir].
  apply Hrest. lia.
Defined.

(** The theorem of X16 at [deep_table] and key 7, which is not stored. *)
Lemma Remove_of_absent_key_changes_nothing_witness :
  reachable hash_int 2 deep_table ∧
  Z.of_nat (length (dir_ deep_table)) <= 2 ^ 30 ∧
  Find hash_int deep_table 7 = None ∧
  Remove hash_int deep_table 7 = (false, deep_table).
Proof.
  assert (Find hash_int deep_table 7 = None) as Hnone
    by (vm_compute; reflexivity).
  split; [exact deep_table_reachable|]. split; [exact deep_table_length|].
  split; [exact Hnone|].
  exact (Remove_of_absent_key_changes_nothing hash_int 2 deep_table 7
           deep_table_reachable deep_table_length Hnone).
Defined.

(** The theorem of X17 at the last insertion of the directory scenario. *)
Lemma Insert_keeps_the_other_keys_witness :
  reachable hash_int 2 (full_table 0 1) ∧
  Insert hash_int 1 2 "c" (full_table 0 1) = Some scenario_table ∧
  Z.of_nat (length (dir_ scenario_table)) <= 2 ^ 30 ∧
  Find hash_int scenario_table 2 = Some "c" ∧
  Find hash_int scenario_table 1 = Find hash_int (full_table 0 1) 1 ∧
  GetNumBuckets (full_table 0 1) <= GetNumBuckets scenario_table.
Proof.
  assert (reachable hash_int 2 (full_table 0 1)) as Hreach
    by (apply full_table_reachable; lia).
  assert (Insert hash_int 1 2 "c" (full_table 0 1) = Some scenario_table)
    as Hins by (vm_compute; reflexivity).
  assert (Z.of_nat (length (dir_ scenario_table)) <= 2 ^ 30) as Hlen
    by (vm_compute; discriminate).
  destruct (Insert_keeps_the_other_keys hash_int 2 1 2 "c" (full_table 0 1)
              scenario_table Hreach Hins Hlen)
    as (Hnew & Hrest & _ & Hnum & _).
  split; [exact Hreach|]. split; [exact Hins|]. split; [exact Hlen|].
  split; [exact Hnew|]. split; [|exact Hnum].
  apply Hrest. lia.
Defined.

(** The theorem of X18 at [scenario_table]. *)
Lemma ExpandTable_mirrors_the_directory_witness :
  reachable hash_int 2 scenario_table ∧
  Z.of_nat (length (dir_ scenario_table)) <= 2 ^ 29 ∧
  dir_ (ExpandTable scenario_table)
    = dir_ scenario_table ++ dir_ scenario_table ∧
  GetGlobalDepth (ExpandTable scenario_table)
    = GetGlobalDepth scenario_table + 1 ∧
  Find hash_int (ExpandTable scenario_table) 2 = Find hash_int scenario_table 2.
Proof.
  destruct (ExpandTable_mirrors_the_directory hash_int 2 scenario_table
              scenario_table_reachable scenario_table_length)
    as (Hdir & Hgd & _ & _ & Hfind).
  split; [exact scenario_table_reachable|].
  split; [exact scenario_table_length|].
  split; [exact Hdir|]. split; [exact Hgd|exact (Hfind 2)].
Defined.

(** The theorem of X19 at [deep_table] and its bucket of local depth 1,
    which holds the keys 1 and 3. *)
Lemma SplitBucket_divides_the_entries_witness :
  reachable hash_int 2 deep_table ∧
  Z.of_nat (length (dir_ deep_table)) <= 2 ^ 30 ∧
  buckets deep_table !! 1%nat
    = Some {| size_ := 2; depth_ := 1; list_ := [(1, "a"); (3, "b")] |} ∧
  1 < global_depth_ deep_table ∧
  ∃ kept moved,
    buckets (SplitBucket hash_int 1 deep_table) !! 1%nat = Some kept ∧
    buckets (SplitBucket hash_int 1 deep_table) !! 4%nat = Some moved ∧
    list_ kept ++ list_ moved ≡ₚ [(1, "a"); (3, "b")] ∧
    ∀ key, Find hash_int (SplitBucket hash_int 1 deep_table) key
           = Find hash_int deep_table key.
Proof.
  assert (buckets deep_table !! 1%nat
          = Some {| size_ := 2; depth_ := 1; list_ := [(1, "a"); (3, "b")] |})
    as Hb by reflexivity.
  assert (1 < global_depth_ deep_table) as Hd by (simpl; lia).
  destruct (SplitBucket_divides_the_entries hash_int 2 deep_table 1 _
              deep_table_reachable deep_table_length Hb Hd)
    as (kept & moved & Hk & Hm & _ & _ & _ & _ & Hperm & _ & _ & Hfind).
  split; [exact deep_table_reachable|]. split; [exact deep_table_length|].
  split; [exact Hb|]. split; [exact Hd|].
  exists kept, moved.
  split; [exact Hk|]. split; [exact Hm|]. split; [exact Hperm|exact Hfind].
Defined.

(** The theorem of X20 at [deep_table] and slot 3. *)
Lemma slots_share_by_local_depth_witness :
  reachable hash_int 2 deep_table ∧
  Z.of_nat (length (dir_ deep_table)) <= 2 ^ 30 ∧
  (3 < length (dir_ deep_table))%nat ∧
  ∃ a b, dir_ deep_table !! 3%nat = Some (Some a) ∧
    buckets deep_table !! a = Some b ∧
    ∀ j, (j < length (dir_ deep_table))%nat →
      (dir_ deep_table !! j = Some (Some a) ↔
       Z.of_nat j mod 2 ^ depth_ b = Z.of_nat 3 mod 2 ^ depth_ b).
Proof.
  assert (3 < length (dir_ deep_table))%nat as Hi by (simpl; lia).
  destruct (slots_share_by_local_depth hash_int 2 deep_table 3
              deep_table_reachable deep_table_length Hi)
    as (a & b & Ha & Hb & _ & _ & Hshare).
  split; [exact deep_table_reachable|]. split; [exact deep_table_length|].
  split; [exact Hi|]. exists a, b.
  split; [exact Ha|]. split; [exact Hb|exact Hshare].
Defined.

(** The theorem of X21 at [deep_table]. *)
Lemma GetNumBuckets_counts_the_buckets_witness :
  reachable hash_int 2 deep_table ∧
  Z.of_nat (length (dir_ deep_table)) <= 2 ^ 30 ∧
  GetNumBuckets deep_table = Z.of_nat (size (dir_buckets deep_table)) ∧
  GetNumBuckets deep_table = Z.of_nat (length (buckets deep_table)).
Proof.
  destruct (GetNumBuckets_counts_the_buckets hash_int 2 deep_table
              deep_table_reachable deep_table_length) as (Hset & Hstore & _).
  split; [exact deep_table_reachable|]. split; [exact deep_table_length|].
  split; [exact Hset|exact Hstore].
Defined.

(** The theorem of X22 at [deep_table]. *)
Lemma stored_keys_are_found_witness :
  reachable hash_int 2 deep_table ∧
  Z.of_nat (length (dir_ deep_table)) <= 2 ^ 30 ∧
  ∀ key, stored deep_table key ↔ is_Some (Find hash_int deep_table key).
Proof.
  split; [exact deep_table_reachable|]. split; [exact deep_table_length|].
  exact (proj1 (stored_keys_are_found hash_int 2 deep_table
                  deep_table_reachable deep_table_length)).
Defined.

(** The theorem of X23 at [deep_table] and its bucket 0. *)
Lemma buckets_stay_within_capacity_witness :
  reachable hash_int 2 deep_table ∧
  Z.of_nat (length (dir_ deep_table)) <= 2 ^ 30 ∧
  buckets deep_table !! 0%nat
    = Some {| size_ := 2; depth_ := 3; list_ := [(0, "c"); (8, "e")] |} ∧
  Z.of_nat (length [(0, "c"); (8, "e")]) <= 2 ∧
  NoDup [0; 8].
Proof.
  assert (buckets deep_table !! 0%nat
          = Some {| size_ := 2; depth_ := 3; list_ := [(0, "c"); (8, "e")] |})
    as Hb by reflexivity.
  destruct (buckets_stay_within_capacity hash_int 2 deep_table 0 _
              deep_table_reachable deep_table_length Hb)
    as (_ & Hcap & Hnd & _).
  split; [exact deep_table_reachable|]. split; [exact deep_table_length|].
  split; [exact Hb|]. split; [exact Hcap|exact Hnd].
Defined.

Lemma scenario_keys_small :
  ∀ k, k ∈ inserted_keys scenario_ops → 0 <= k < 2 ^ 2.
Proof.
  intros k Hk. simpl in Hk.
  repeat (apply elem_of_cons in Hk as [->|Hk]; [lia|]).
  by apply elem_of_nil in Hk.
Qed.

Lemma scenario_keys_separated :
  ∀ k k', k ∈ inserted_keys scenario_ops → k' ∈ inserted_keys scenario_ops →
          k ≠ k' → hash_int k mod 2 ^ 2 ≠ hash_int k' mod 2 ^ 2.
Proof.
  intros k k' Hk Hk' Hne.
  rewrite !(hash_int_low_bits 2) by (try lia; by apply scenario_keys_small).
  done.
Qed.

(** The theorem of X24 at the calls of the directory scenario, with two
    hash bits. *)
Lemma runs_on_separated_keys_complete_witness :
  1 <= 2 ∧ 0 <= 2 <= 30 ∧
  ∃ t, run hash_int (Z.to_nat 2) scenario_ops (ExtendibleHashTable_new 2)
         = Some t ∧
       ∀ key, Find hash_int t key = last_inserted scenario_ops key None.
Proof.
  assert (1 <= 2) as Hbs by lia.
  assert (0 <= 2 <= 30) as HW by lia.
  destruct (runs_on_separated_keys_complete hash_int 2 2 scenario_ops Hbs HW
              scenario_keys_separated) as (t & Hrun & _ & Hfind).
  split; [exact Hbs|]. split; [exact HW|].
  exists t. split; [exact Hrun|exact Hfind].
Defined.

(** The theorem of X26 at the calls of the directory scenario. *)
Lemma int_keys_below_2_pow_W_complete_witness :
  1 <= 2 ∧ 0 <= 2 <= 30 ∧
  ∃ t, run hash_int (Z.to_nat 2) scenario_ops (ExtendibleHashTable_new 2)
         = Some t ∧ GetGlobalDepth t <= 2.
Proof.
  assert (1 <= 2) as Hbs by lia.
  assert (0 <= 2 <= 30) as HW by lia.
  destruct (int_keys_below_2_pow_W_complete 2 2 scenario_ops Hbs HW
              scenario_keys_small) as (t & Hrun & Hgd & _).
  split; [exact Hbs|]. split; [exact HW|].
  exists t. split; [exact Hrun|exact Hgd].
Defined.

(** The theorem of X25 at a new table of bucket capacity 0. *)
Lemma capacity_0_never_takes_an_entry_witness :
  reachable hash_int 0
    (ExtendibleHashTable_new 0 : @ExtendibleHashTable Z string) ∧
  Insert hash_int 40 7 "a" (ExtendibleHashTable_new 0) = None.
Proof.
  assert (reachable hash_int 0
            (ExtendibleHashTable_new 0 : @ExtendibleHashTable Z string))
    as Hreach by (apply reach_new; lia).
  split; [exact Hreach|].
  exact (capacity_0_never_takes_an_entry hash_int _ 40 7 "a" Hreach).
Defined.

End IntTableMore.
